(** * aws-iam-manager: the Users reconciler and the Policies service

    A shallow embedding of [src/users.js] (class [Users]) and of the
    [Policies] service exercised by the Policies test-suite, with the
    properties of the reconciliation algorithm proved over it.

    Conventions.
    - A JavaScript string is a [string]; one [ascii] stands for one code
      unit (IAM names are ASCII).
    - A promise is represented by its eventual outcome, a [result].
    - An asynchronous function is a computation [M A]: it threads the state
      of the outside world, records every call it issues together with the
      answer the call gets, and ends in an outcome.
    - [this.log.info] only writes to the bunyan logger and is left out. *)

From Stdlib Require Import List String Ascii ZArith NArith Lia Bool.
From Stdlib.Strings Require Import Byte.
From Stdlib Require Import DecimalString.
Import ListNotations.
Open Scope string_scope.

(** ** JavaScript strings *)

Module JS.

(** [String.prototype.substr(start)] with the length left out: a negative
    [start] counts from the end and is clamped at the beginning. *)
Definition substr (start : Z) (s : string) : string :=
  let size := Z.of_nat (String.length s) in
  let from := if (start <? 0)%Z then Z.max (size + start) 0
              else Z.min start size in
  String.substring (Z.to_nat from) (Z.to_nat (size - from)) s.

(** The double quote, by its code: the character itself cannot be written
    inside a string literal without doubling it. *)
Definition dquote : ascii := ascii_of_nat 34.

Definition hex_digit (n : nat) : ascii :=
  nth n (list_ascii_of_string "0123456789abcdef") "0"%char.

(** [QuoteJSONString], one code unit at a time. *)
Definition escape_char (c : ascii) : string :=
  let n := nat_of_ascii c in
  if Nat.eqb n 34 then String "\" (String dquote "")
  else if Nat.eqb n 92 then "\\"
  else if Nat.eqb n 8 then "\b"
  else if Nat.eqb n 9 then "\t"
  else if Nat.eqb n 10 then "\n"
  else if Nat.eqb n 12 then "\f"
  else if Nat.eqb n 13 then "\r"
  else if Nat.ltb n 32 then
    "\u00" ++ String (hex_digit (n / 16)) (String (hex_digit (n mod 16)) "")
  else String c "".

Fixpoint escape (s : string) : string :=
  match s with
  | EmptyString => ""
  | String c s' => escape_char c ++ escape s'
  end.

Definition quote (s : string) : string :=
  String dquote (escape s ++ String dquote "").

(** The values a parsed YAML or JSON document is made of.  Numbers are
    integers here, and [JNumber n] stands for a number that JavaScript holds
    exactly and prints in full: an integer of magnitude below [2 ^ 53].
    Fractions, and the larger numbers that [JSON.stringify] prints with an
    exponent, are not covered. *)
#[warnings="-register-all"]
Inductive json : Type :=
| JNull
| JBool (b : bool)
| JNumber (n : Z)
| JString (s : string)
| JArray (items : list json)
| JObject (members : list (string * json)).

Fixpoint join (sep : string) (l : list string) : string :=
  match l with
  | [] => ""
  | [x] => x
  | x :: l' => x ++ sep ++ join sep l'
  end.

Definition decimal (n : Z) : string := NilZero.string_of_int (Z.to_int n).

(** [JSON.stringify(value)] without indentation. *)
Fixpoint JSON_stringify (v : json) : string :=
  match v with
  | JNull => "null"
  | JBool true => "true"
  | JBool false => "false"
  | JNumber n => decimal n
  | JString s => quote s
  | JArray items => "[" ++ join "," (map JSON_stringify items) ++ "]"
  | JObject members =>
      "{" ++ join "," (map (fun kv => match kv with
                                      | (k, x) => quote k ++ ":" ++ JSON_stringify x
                                      end) members) ++ "}"
  end.

(** [Buffer.prototype.toString('base64')]: the standard alphabet, padded
    with [=]. *)
Definition base64_digit (n : N) : ascii :=
  nth (N.to_nat n)
      (list_ascii_of_string
         "ABCDEFGHIJKLMNOPQRSTUVWXYZabcdefghijklmnopqrstuvwxyz0123456789+/")
      "="%char.

Fixpoint base64 (bytes : list byte) : string :=
  match bytes with
  | [] => ""
  | [a] =>
      let x := Byte.to_N a in
      String (base64_digit (x / 4))
        (String (base64_digit ((x mod 4) * 16)) "==")
  | [a; b] =>
      let x := Byte.to_N a in
      let y := Byte.to_N b in
      String (base64_digit (x / 4))
        (String (base64_digit ((x mod 4) * 16 + y / 16))
           (String (base64_digit ((y mod 16) * 4)) "="))
  | a :: b :: c :: rest =>
      let x := Byte.to_N a in
      let y := Byte.to_N b in
      let z := Byte.to_N c in
      String (base64_digit (x / 4))
        (String (base64_digit ((x mod 4) * 16 + y / 16))
           (String (base64_digit ((y mod 16) * 4 + z / 64))
              (String (base64_digit (z mod 64)) (base64 rest))))
  end%N.

(** lodash [difference(array, values)]: the elements of [array] that do not
    occur in [values], in the order of [array], duplicates kept. *)
Definition includes (values : list string) (x : string) : bool :=
  existsb (String.eqb x) values.

Definition difference (array values : list string) : list string :=
  filter (fun x => negb (includes values x)) array.

End JS.

(** ** The services the code talks to *)

(** The records of the listing answers, with the fields the code reads. *)
Record User := mkUser { user_UserName : string; user_Arn : string }.
Record Group := mkGroup { group_GroupName : string }.
Record AccessKey := mkAccessKey { key_AccessKeyId : string }.
Record Policy := mkPolicy { policy_PolicyName : string; policy_Arn : string }.

(** The parameter objects handed to the AWS SDK's IAM client.  A [Path] or
    [PathPrefix] is [process.env.USERS_PATH], which may be undefined. *)
Module IAM.

Inductive request : Type :=
| createUser (UserName : string) (Path : option string)
| createLoginProfile (Password : string) (PasswordResetRequired : bool)
                     (UserName : string)
| createAccessKey (UserName : string)
| listAccessKeys (UserName : string)
| deleteLoginProfile (UserName : string)
| deleteAccessKey (AccessKeyId UserName : string)
| listGroupsForUser (UserName : string)
| deleteUser (UserName : string)
| listUsers (PathPrefix : option string)
| createPolicy (PolicyName PolicyDocument : string) (Path : option string)
| deletePolicy (PolicyArn : string)
| detachGroupPolicy (GroupName PolicyArn : string)
| listEntitiesForPolicy (PolicyArn : string)
| listPolicies.

End IAM.

(** What a call resolves with: a listing, or a body the code hands on
    without looking into it. *)
Inductive response : Type :=
| Data (body : JS.json)
| Users (l : list User)
| Groups (l : list Group)
| AccessKeyMetadata (l : list AccessKey)
| Policies (l : list Policy)
| PolicyGroups (l : list Group).

(** Every call that leaves the class: to the IAM client, to the Groups
    service ([this.groups]) and to the notifier ([this.ses]). *)
Inductive call : Type :=
| iam (r : IAM.request)
| groups_removeUserFromGroup (UserName GroupName : string)
| ses_enqueueSendProgrammaticAccessKeys (UserName : string)
    (credentials : response) (accountName : string)
| ses_enqueueSendUserCredentialsEmail (UserName password accountName : string).


Definition error := string.

(** The outcome of a promise.  A rejection carries the reasons it can have:
    one for a single call; for [Promise.all] the reason is that of the member
    whose rejection reaches it first, which is one of the members'
    reasons. *)
Inductive result (A : Type) : Type :=
| Resolved (a : A)
| Rejected (reasons : list error).
Arguments Resolved {A} a.
Arguments Rejected {A} reasons.

Definition is_rejected {A} (r : result A) : bool :=
  match r with Rejected _ => true | Resolved _ => false end.

(** A call together with the answer it got. *)
Definition event : Type := call * result response.

(** The outside world: how it answers a call, the bytes
    [crypto.randomBytes] draws, and [process.env.USERS_PATH]. *)
Record Env (World : Type) := mkEnv {
  answer : call -> World -> World * result response;
  randomBytes : nat -> World -> World * list byte;
  USERS_PATH : option string
}.
Arguments answer {World} e c w.
Arguments randomBytes {World} e n w.
Arguments USERS_PATH {World} e.

(** ** Asynchronous computations

    A method is read as the function that, from a state of the world, gives
    the state after it, the calls it issues with their answers, and the
    outcome of its promise.  Which calls a method issues and whether it
    resolves depend on the answers only, not on the moment they arrive, and
    [answer] is arbitrary and may depend on all that happened before: every
    way the services can answer is covered.  The log lists the calls of a
    method in the order it issues them; the calls of a method that was
    started without [await] are listed where it was started.  The order in
    time of calls that are in flight together is the subject of
    [DeleteUserRun] below. *)

Section Async.

Context {World : Type}.

Definition M (A : Type) : Type := World -> World * list event * result A.

Definition ret {A} (a : A) : M A := fun w => (w, [], Resolved a).

(** [const x = await m; k x]: a rejection of [m] ends the function. *)
Definition bind {A B} (m : M A) (k : A -> M B) : M B :=
  fun w =>
    let '(w1, l1, r) := m w in
    match r with
    | Resolved a => let '(w2, l2, r2) := k a w1 in (w2, (l1 ++ l2)%list, r2)
    | Rejected e => (w1, l1, Rejected e)
    end.

(** A thrown exception inside an async function rejects its promise. *)
Definition throw {A} (e : error) : M A := fun w => (w, [], Rejected [e]).

(** Calling an async function without awaiting it: the calls it makes are
    issued, its outcome is held as a promise. *)
Definition start {A} (m : M A) : M (result A) :=
  fun w => let '(w1, l, r) := m w in (w1, l, Resolved r).

Definition await {A} (p : result A) : M A := fun w => (w, [], p).

(** [array.map(f)] where [f] has effects. *)
Fixpoint mapM {A B} (f : A -> M B) (l : list A) : M (list B) :=
  match l with
  | [] => ret []
  | x :: l' => bind (f x) (fun y => bind (mapM f l') (fun ys => ret (y :: ys)))
  end.

(** [Promise.all(promises)]. *)
Fixpoint Promise_all {A} (promises : list (result A)) : result (list A) :=
  match promises with
  | [] => Resolved []
  | p :: ps =>
      match p, Promise_all ps with
      | Resolved a, Resolved l => Resolved (a :: l)
      | Resolved _, Rejected es => Rejected es
      | Rejected e, Resolved _ => Rejected e
      | Rejected e, Rejected es => Rejected (e ++ es)%list
      end
  end.

Context (E : Env World).

(** [service.method(params).promise()], awaited. *)
Definition perform (c : call) : M response :=
  fun w => let (w1, r) := answer E c w in (w1, [(c, r)], r).

Definition random (n : nat) : M (list byte) :=
  fun w => let (w1, bytes) := randomBytes E n w in (w1, [], Resolved bytes).

End Async.

Declare Scope async_scope.
Delimit Scope async_scope with async.
Notation "x <- m ;; k" := (bind m (fun x => k))
  (at level 61, m at next level, right associativity) : async_scope.
Notation "' pat <- m ;; k" := (bind m (fun x => match x with pat => k end))
  (at level 61, pat pattern, m at next level, right associativity) : async_scope.
Open Scope async_scope.

(** Reading a property of an answer that does not have it yields
    [undefined], and [undefined.map] throws. *)
Definition type_error : error := "TypeError".

Definition the_Users {World} (data : response) : @M World (list User) :=
  match data with Users l => ret l | _ => throw type_error end.

Definition the_Groups {World} (data : response) : @M World (list Group) :=
  match data with Groups l => ret l | _ => throw type_error end.

Definition the_AccessKeyMetadata {World} (data : response) : @M World (list AccessKey) :=
  match data with AccessKeyMetadata l => ret l | _ => throw type_error end.

Definition the_Policies {World} (data : response) : @M World (list Policy) :=
  match data with Policies l => ret l | _ => throw type_error end.

Definition the_PolicyGroups {World} (data : response) : @M World (list Group) :=
  match data with PolicyGroups l => ret l | _ => throw type_error end.

(** ** [src/users.js]: class [Users] *)

Module Users.

(** [users.yml], parsed. *)
Record input := mkInput { users : list string }.

Section Methods.

Context {World : Type} (E : Env World).

Definition generateUserLoginProfile (UserName : string) : M string :=
  bytes <- random E 16 ;;
  let Password := JS.base64 bytes in
  _ <- perform E (iam (IAM.createLoginProfile Password true UserName)) ;;
  ret Password.

Definition generateProgrammaticAccessKeys (UserName : string) : M response :=
  perform E (iam (IAM.createAccessKey UserName)).

(** [UserName.substr(-5) === '_keys'] *)
Definition has_keys_suffix (UserName : string) : bool :=
  String.eqb (JS.substr (-5) UserName) "_keys".

Definition createUser (UserName accountName : string) : M response :=
  createUserResponse <- perform E (iam (IAM.createUser UserName (USERS_PATH E))) ;;
  if has_keys_suffix UserName then
    credentials <- generateProgrammaticAccessKeys UserName ;;
    _ <- perform E (ses_enqueueSendProgrammaticAccessKeys
                      UserName credentials accountName) ;;
    ret createUserResponse
  else
    password <- generateUserLoginProfile UserName ;;
    _ <- start (perform E (ses_enqueueSendUserCredentialsEmail
                             UserName password accountName)) ;;
    ret createUserResponse.

Definition listUserAccessKeys (UserName : string) : M response :=
  perform E (iam (IAM.listAccessKeys UserName)).

Definition deleteLoginProfile (UserName : string) : M response :=
  perform E (iam (IAM.deleteLoginProfile UserName)).

Definition deleteAccessKeys (UserName : string) : M (list response) :=
  accessKeys <- listUserAccessKeys UserName ;;
  items <- the_AccessKeyMetadata accessKeys ;;
  promises <- mapM (fun item =>
                start (perform E (iam (IAM.deleteAccessKey
                                         (key_AccessKeyId item) UserName))))
              items ;;
  await (Promise_all promises).

Definition deleteUser (UserName : string) : M response :=
  userGroups <- perform E (iam (IAM.listGroupsForUser UserName)) ;;
  groups <- the_Groups userGroups ;;
  groupRemovalPromises <-
    mapM (fun group =>
            start (perform E (groups_removeUserFromGroup
                                UserName (group_GroupName group))))
         groups ;;
  _ <- (if has_keys_suffix UserName
        then _ <- deleteAccessKeys UserName ;; ret tt
        else _ <- deleteLoginProfile UserName ;; ret tt) ;;
  _ <- await (Promise_all groupRemovalPromises) ;;
  perform E (iam (IAM.deleteUser UserName)).

Definition usersToAdd (newUsers oldUsers : list string) : list string :=
  JS.difference newUsers oldUsers.

Definition usersToDelete (newUsers oldUsers : list string) : list string :=
  JS.difference oldUsers newUsers.

(** The result is the two-element array
    [[createResults, deleteResults]]. *)
Definition update (json : input) (accountName : string)
  : M (list (list response)) :=
  data <- perform E (iam (IAM.listUsers (USERS_PATH E))) ;;
  listed <- the_Users data ;;
  let newUsers := users json in
  let oldUsers := map user_UserName listed in
  createUserPromises <-
    mapM (fun user => start (createUser user accountName))
         (usersToAdd newUsers oldUsers) ;;
  deleteUserPromises <-
    mapM (fun user => start (deleteUser user))
         (usersToDelete newUsers oldUsers) ;;
  await (Promise_all [Promise_all createUserPromises;
                      Promise_all deleteUserPromises]).

End Methods.

End Users.

(** ** [Users.deleteUser] with its calls in flight

    The same method, [src/users.js] lines 119-137, as a machine that is
    driven by the order in which the outside world settles the pending
    promises.  The history records when a call is issued and when its
    promise settles; the machine rests at an [await] and moves on as soon as
    what it waits for has settled. *)

Module DeleteUserRun.

Inductive ev : Type :=
| Issued (p : nat) (c : call)
| Settled (p : nat) (r : result response).

(** Newest event first. *)
Definition history := list ev.

(** The [await] the method rests at, with the promises it holds. *)
Inductive point : Type :=
| AwaitListGroups (p : nat)
| AwaitListAccessKeys (groupRemovalPromises : list nat) (p : nat)
| AwaitDeleteAccessKeys (groupRemovalPromises promises : list nat)
| AwaitDeleteLoginProfile (groupRemovalPromises : list nat) (p : nat)
| AwaitGroupRemovals (groupRemovalPromises : list nat)
| Returned (p : nat)
| Threw (reasons : list error).

Record state := mkState { past : history; next : nat; at_ : point }.

Fixpoint settled (h : history) (p : nat) : option (result response) :=
  match h with
  | [] => None
  | Settled q r :: h' => if Nat.eqb p q then Some r else settled h' p
  | Issued _ _ :: h' => settled h' p
  end.

Definition issued (h : history) (p : nat) : bool :=
  existsb (fun e => match e with
                    | Issued q _ => Nat.eqb p q
                    | Settled _ _ => false
                    end) h.

Definition pending (h : history) (p : nat) : bool :=
  issued h p && match settled h p with None => true | Some _ => false end.

(** The promise of [Promise.all(ps)] is rejected with the reason of the
    member whose rejection reaches it first, and resolved once every member
    has resolved.  [Promise.all] subscribes to its members in the order of
    the array, so of the members that have rejected before it is called
    (the group removals, when line 135 is reached) the first of the array
    gives the reason.  After that the method looks again each time one
    promise settles, and then at most one more member has rejected: the one
    that rejected first in time. *)
Fixpoint first_rejection (h : history) (ps : list nat) : option (list error) :=
  match ps with
  | [] => None
  | p :: ps' =>
      match settled h p with
      | Some (Rejected reasons) => Some reasons
      | _ => first_rejection h ps'
      end
  end.

Definition all_resolved (h : history) (ps : list nat) : bool :=
  forallb (fun p => match settled h p with
                    | Some (Resolved _) => true
                    | _ => false
                    end) ps.

(** [array.map(x => call(x))]: the calls are issued one after the other and
    the promises are kept in the order of the array. *)
Fixpoint issue_all (cs : list call) (h : history) (n : nat)
  : history * nat * list nat :=
  match cs with
  | [] => (h, n, [])
  | c :: cs' =>
      let '(h', n', ps) := issue_all cs' (Issued n c :: h) (S n) in
      (h', n', n :: ps)
  end.

Section Machine.

Variable UserName : string.

Definition begin : state :=
  mkState [Issued 0 (iam (IAM.listGroupsForUser UserName))] 1 (AwaitListGroups 0).

(** One move of the method from the [await] it rests at, if what it waits
    for has settled. *)
Definition advance (s : state) : state :=
  let h := past s in
  let n := next s in
  match at_ s with
  | AwaitListGroups p =>
      match settled h p with
      | None => s
      | Some (Rejected reasons) => mkState h n (Threw reasons)
      | Some (Resolved (Groups groups)) =>
          let '(h1, n1, groupRemovalPromises) :=
            issue_all (map (fun group => groups_removeUserFromGroup
                                           UserName (group_GroupName group))
                           groups) h n in
          if Users.has_keys_suffix UserName
          then mkState (Issued n1 (iam (IAM.listAccessKeys UserName)) :: h1) (S n1)
                       (AwaitListAccessKeys groupRemovalPromises n1)
          else mkState (Issued n1 (iam (IAM.deleteLoginProfile UserName)) :: h1) (S n1)
                       (AwaitDeleteLoginProfile groupRemovalPromises n1)
      | Some (Resolved _) => mkState h n (Threw [type_error])
      end
  | AwaitListAccessKeys gps p =>
      match settled h p with
      | None => s
      | Some (Rejected reasons) => mkState h n (Threw reasons)
      | Some (Resolved (AccessKeyMetadata items)) =>
          let '(h1, n1, promises) :=
            issue_all (map (fun item => iam (IAM.deleteAccessKey
                                               (key_AccessKeyId item) UserName))
                           items) h n in
          mkState h1 n1 (AwaitDeleteAccessKeys gps promises)
      | Some (Resolved _) => mkState h n (Threw [type_error])
      end
  | AwaitDeleteAccessKeys gps promises =>
      match first_rejection h promises with
      | Some reasons => mkState h n (Threw reasons)
      | None => if all_resolved h promises
                then mkState h n (AwaitGroupRemovals gps)
                else s
      end
  | AwaitDeleteLoginProfile gps p =>
      match settled h p with
      | None => s
      | Some (Rejected reasons) => mkState h n (Threw reasons)
      | Some (Resolved _) => mkState h n (AwaitGroupRemovals gps)
      end
  | AwaitGroupRemovals gps =>
      match first_rejection h gps with
      | Some reasons => mkState h n (Threw reasons)
      | None => if all_resolved h gps
                then mkState (Issued n (iam (IAM.deleteUser UserName)) :: h) (S n)
                             (Returned n)
                else s
      end
  | Returned _ => s
  | Threw _ => s
  end.

(** After a promise settles the method runs until it has to wait again; it
    passes at most three [await]s without waiting (the key listing, no key
    to delete, every group removal already done). *)
Definition react (s : state) : state := advance (advance (advance s)).

(** The outside world settles the pending promise [p] with [r]. *)
Definition deliver (s : state) (pr : nat * result response) : option state :=
  let (p, r) := pr in
  if pending (past s) p
  then Some (react (mkState (Settled p r :: past s) (next s) (at_ s)))
  else None.

Fixpoint run (schedule : list (nat * result response)) (s : state)
  : option state :=
  match schedule with
  | [] => Some s
  | pr :: schedule' =>
      match deliver s pr with
      | Some s' => run schedule' s'
      | None => None
      end
  end.

(** What the promise of [deleteUser] has become. *)
Definition outcome (s : state) : option (result response) :=
  match at_ s with
  | Returned p => settled (past s) p
  | Threw reasons => Some (Rejected reasons)
  | _ => None
  end.

End Machine.

(** Reading a history. *)
Definition completed (h : history) (c : call) : Prop :=
  exists p a, In (Issued p c) h /\ In (Settled p (Resolved a)) h.

Definition groups_removed (UserName : string) (h : history) : Prop :=
  exists p groups,
    In (Issued p (iam (IAM.listGroupsForUser UserName))) h /\
    In (Settled p (Resolved (Groups groups))) h /\
    forall group, In group groups ->
      completed h (groups_removeUserFromGroup UserName (group_GroupName group)).

Definition credentials_removed (UserName : string) (h : history) : Prop :=
  if Users.has_keys_suffix UserName
  then exists p items,
         In (Issued p (iam (IAM.listAccessKeys UserName))) h /\
         In (Settled p (Resolved (AccessKeyMetadata items))) h /\
         forall item, In item items ->
           completed h (iam (IAM.deleteAccessKey (key_AccessKeyId item) UserName))
  else completed h (iam (IAM.deleteLoginProfile UserName)).

(** The calls of a history, in the order they were issued. *)
Definition calls_issued (h : history) : list call :=
  rev (flat_map (fun e => match e with
                          | Issued _ c => [c]
                          | Settled _ _ => []
                          end) h).

(** [e1] is recorded before [e2]. *)
Definition earlier (h : history) (e1 e2 : ev) : Prop :=
  exists a b c, h = (a ++ e2 :: b ++ e1 :: c)%list.

(** Promises are numbered in the order of issue. *)
Definition promise_of (e : ev) : nat :=
  match e with Issued p _ => p | Settled p _ => p end.

Definition well_numbered (s : state) : Prop :=
  forall e, In e (past s) -> promise_of e < next s.

(** The promises the method holds at a point. *)
Definition promises_held (pt : point) : list nat :=
  match pt with
  | AwaitListGroups p => [p]
  | AwaitListAccessKeys gps p => p :: gps
  | AwaitDeleteAccessKeys gps kps => (kps ++ gps)%list
  | AwaitDeleteLoginProfile gps p => p :: gps
  | AwaitGroupRemovals gps => gps
  | Returned p => [p]
  | Threw _ => []
  end.

Definition holds_issued (s : state) : Prop :=
  forall p, In p (promises_held (at_ s)) -> issued (past s) p = true.

(** What holds of the history at each [await]. *)
Definition no_final (UserName : string) (h : history) : Prop :=
  forall p, ~ In (Issued p (iam (IAM.deleteUser UserName))) h.

(** The groups are listed and [gps] holds a promise for each removal. *)
Definition holds_removals (UserName : string) (h : history) (gps : list nat) : Prop :=
  exists p groups,
    In (Issued p (iam (IAM.listGroupsForUser UserName))) h /\
    In (Settled p (Resolved (Groups groups))) h /\
    forall group, In group groups ->
      exists q, In q gps /\
                In (Issued q (groups_removeUserFromGroup
                                UserName (group_GroupName group))) h.

(** The keys are listed and [kps] holds a promise for each deletion. *)
Definition holds_deletions (UserName : string) (h : history) (kps : list nat) : Prop :=
  exists p items,
    In (Issued p (iam (IAM.listAccessKeys UserName))) h /\
    In (Settled p (Resolved (AccessKeyMetadata items))) h /\
    forall item, In item items ->
      exists q, In q kps /\
                In (Issued q (iam (IAM.deleteAccessKey
                                     (key_AccessKeyId item) UserName))) h.

Definition invariant (UserName : string) (s : state) : Prop :=
  let h := past s in
  match at_ s with
  | AwaitListGroups p =>
      no_final UserName h /\
      In (Issued p (iam (IAM.listGroupsForUser UserName))) h
  | AwaitListAccessKeys gps p =>
      no_final UserName h /\ holds_removals UserName h gps /\
      Users.has_keys_suffix UserName = true /\
      In (Issued p (iam (IAM.listAccessKeys UserName))) h
  | AwaitDeleteAccessKeys gps kps =>
      no_final UserName h /\ holds_removals UserName h gps /\
      Users.has_keys_suffix UserName = true /\
      holds_deletions UserName h kps
  | AwaitDeleteLoginProfile gps p =>
      no_final UserName h /\ holds_removals UserName h gps /\
      Users.has_keys_suffix UserName = false /\
      In (Issued p (iam (IAM.deleteLoginProfile UserName))) h
  | AwaitGroupRemovals gps =>
      no_final UserName h /\ holds_removals UserName h gps /\
      credentials_removed UserName h
  | Returned p =>
      exists after before,
        h = (after ++ Issued p (iam (IAM.deleteUser UserName)) :: before)%list /\
        no_final UserName after /\ no_final UserName before /\
        groups_removed UserName before /\ credentials_removed UserName before
  | Threw _ => no_final UserName h
  end.

(** Two ways the world may answer the deletion of [carol], who is in the
    group [devs]: the group removal (promise 1) settles before the deletion
    of the login profile (promise 2), or after it. *)
Definition removal_first : list (nat * result response) :=
  [(0, Resolved (Groups [mkGroup "devs"]));
   (1, Resolved (Data JS.JNull));
   (2, Resolved (Data JS.JNull))].

Definition credentials_first : list (nat * result response) :=
  [(0, Resolved (Groups [mkGroup "devs"]));
   (2, Resolved (Data JS.JNull));
   (1, Resolved (Data JS.JNull))].

(** The deletion of [bob_keys], in the group [devs] and with two keys. *)
Definition keys_schedule : list (nat * result response) :=
  [(0, Resolved (Groups [mkGroup "devs"]));
   (2, Resolved (AccessKeyMetadata [mkAccessKey "AKIA1"; mkAccessKey "AKIA2"]));
   (4, Resolved (Data JS.JNull));
   (1, Resolved (Data JS.JNull));
   (3, Resolved (Data JS.JNull))].

(** The deletion of [carol] while both removals are in flight. *)
Definition carol_calls_in_flight : history :=
  [Issued 2 (iam (IAM.deleteLoginProfile "carol"));
   Issued 1 (groups_removeUserFromGroup "carol" "devs");
   Settled 0 (Resolved (Groups [mkGroup "devs"]));
   Issued 0 (iam (IAM.listGroupsForUser "carol"))].

(** Promise 1 is the removal of [carol] from [devs], promise 2 the deletion
    of her login profile, and promise 3 the deletion of [carol]. *)
Definition carol_is_deleted (s : state) : Prop :=
  at_ s = Returned 3 /\
  In (Issued 1 (groups_removeUserFromGroup "carol" "devs")) (past s) /\
  In (Issued 2 (iam (IAM.deleteLoginProfile "carol"))) (past s) /\
  In (Issued 3 (iam (IAM.deleteUser "carol"))) (past s).

(** The history of that deletion just before [iam.deleteUser] is issued. *)
Definition calls_settled_before_bob_keys_is_deleted : history :=
  [Settled 3 (Resolved (Data JS.JNull));
   Settled 1 (Resolved (Data JS.JNull));
   Settled 4 (Resolved (Data JS.JNull));
   Issued 4 (iam (IAM.deleteAccessKey "AKIA2" "bob_keys"));
   Issued 3 (iam (IAM.deleteAccessKey "AKIA1" "bob_keys"));
   Settled 2 (Resolved (AccessKeyMetadata [mkAccessKey "AKIA1"; mkAccessKey "AKIA2"]));
   Issued 2 (iam (IAM.listAccessKeys "bob_keys"));
   Issued 1 (groups_removeUserFromGroup "bob_keys" "devs");
   Settled 0 (Resolved (Groups [mkGroup "devs"]));
   Issued 0 (iam (IAM.listGroupsForUser "bob_keys"))].

End DeleteUserRun.

(** ** The Policies service *)

Module Policies.

(** [policies.yml], parsed. *)
Record entry := mkEntry { name : string; document : JS.json }.
Record input := mkInput { policies : list entry }.

Record report := mkReport {
  createResult : list response;
  deleteResult : list response
}.

Section Methods.

Context {World : Type} (E : Env World).

(** Modelled from the spec: [Policies.js] is not among the sources; only its
    test-suite is.  [createPolicy(name, document)] builds the creation
    request with [PolicyName = name] and [Path] from
    [process.env.USERS_PATH] (spec 4.4).  The document goes into the request
    as it is received: the test '#createPolicy' passes the string [doc] and
    expects [PolicyDocument] to be that same string. *)
Definition createPolicy (PolicyName PolicyDocument : string) : M response :=
  perform E (iam (IAM.createPolicy PolicyName PolicyDocument (USERS_PATH E))).

(** Modelled from the spec: [Policies.js] is not among the sources.
    [detachFromAllEntities(policyArn)] lists every group the policy is
    attached to, then issues a detach call per group concurrently and
    returns the per-group detach results (spec 4.4; the test
    '#detachFromAllEntities' expects one [{GroupName, PolicyArn}] per
    group). *)
Definition detachFromAllEntities (PolicyArn : string) : M (list response) :=
  data <- perform E (iam (IAM.listEntitiesForPolicy PolicyArn)) ;;
  groups <- the_PolicyGroups data ;;
  promises <- mapM (fun group =>
                start (perform E (iam (IAM.detachGroupPolicy
                                         (group_GroupName group) PolicyArn))))
              groups ;;
  await (Promise_all promises).

(** Modelled from the spec: [Policies.js] is not among the sources.
    [removePolicy(policyArn)] first detaches from all entities, then deletes
    the policy and returns the delete result; a detach failure is not caught
    (spec 4.4). *)
Definition removePolicy (PolicyArn : string) : M response :=
  _ <- detachFromAllEntities PolicyArn ;;
  perform E (iam (IAM.deletePolicy PolicyArn)).

(** Modelled from the spec: [Policies.js] is not among the sources.
    [update(json)] lists all live policies, creates every policy of the
    input and removes every live policy, without a diff, and returns
    [{createResult, deleteResult}] (spec 4.4).  The document of each input
    policy is JSON-serialised on the way to [createPolicy]: the test
    '#update' gives the document [doc] and expects the created policy to
    carry it quoted.  The spec leaves the order of the two batches open;
    here the creations are started first. *)
Definition update (json : input) : M report :=
  data <- perform E (iam IAM.listPolicies) ;;
  live <- the_Policies data ;;
  createPromises <-
    mapM (fun policy =>
            start (createPolicy (name policy)
                                (JS.JSON_stringify (document policy))))
         (policies json) ;;
  deletePromises <-
    mapM (fun policy => start (removePolicy (policy_Arn policy))) live ;;
  created <- await (Promise_all createPromises) ;;
  deleted <- await (Promise_all deletePromises) ;;
  ret (mkReport created deleted).

End Methods.

End Policies.

(** ** The test doubles of the Policies test-suite *)

Module PoliciesTest.

(** The parameter object of a request, as the mocks hand it back. *)
Definition optional (key : string) (value : option string)
  : list (string * JS.json) :=
  match value with
  | Some v => [(key, JS.JString v)]
  | None => []
  end.

Definition params (r : IAM.request) : JS.json :=
  match r with
  | IAM.createPolicy PolicyName PolicyDocument Path =>
      JS.JObject ([("PolicyName", JS.JString PolicyName);
                   ("PolicyDocument", JS.JString PolicyDocument)]
                  ++ optional "Path" Path)%list
  | IAM.deletePolicy PolicyArn =>
      JS.JObject [("PolicyArn", JS.JString PolicyArn)]
  | IAM.detachGroupPolicy GroupName PolicyArn =>
      JS.JObject [("GroupName", JS.JString GroupName);
                  ("PolicyArn", JS.JString PolicyArn)]
  | _ => JS.JNull
  end.

Definition groupsWithPolicy : list Group :=
  [mkGroup "g_first"; mkGroup "g_second"].

(** [AWS_MOCK.mock('IAM', ...)], lines 12-27 of the test-suite. *)
Definition mocked (c : call) : result response :=
  match c with
  | iam (IAM.createPolicy _ _ _ as r)
  | iam (IAM.deletePolicy _ as r)
  | iam (IAM.detachGroupPolicy _ _ as r) => Resolved (Data (params r))
  | iam (IAM.listEntitiesForPolicy _) => Resolved (PolicyGroups groupsWithPolicy)
  | iam IAM.listPolicies =>
      Resolved (Policies [mkPolicy "first" "123"; mkPolicy "second" "1234"])
  | _ => Rejected ["NotMocked"]
  end.

Definition mock (path : option string) : Env unit :=
  mkEnv unit (fun c w => (w, mocked c)) (fun _ w => (w, [])) path.

End PoliciesTest.

(** ** A small account to run the Users methods on *)

Module UsersDemo.

(** IAM holds [bob_keys] and [carol]; every user is in the group [devs] and
    owns two access keys; everything succeeds. *)
Definition answers (c : call) : result response :=
  match c with
  | iam (IAM.listUsers _) =>
      Resolved (Users [mkUser "bob_keys" "arn:bob"; mkUser "carol" "arn:carol"])
  | iam (IAM.listGroupsForUser _) => Resolved (Groups [mkGroup "devs"])
  | iam (IAM.listAccessKeys _) =>
      Resolved (AccessKeyMetadata [mkAccessKey "AKIA1"; mkAccessKey "AKIA2"])
  | iam (IAM.createUser UserName _) => Resolved (Data (JS.JString UserName))
  | _ => Resolved (Data JS.JNull)
  end.

Definition account : Env unit :=
  mkEnv unit (fun c w => (w, answers c))
        (fun n w => (w, repeat Byte.x00 n)) (Some "/team/").

(** The same account with a notifier that is down. *)
Definition account_without_mail : Env unit :=
  mkEnv unit
        (fun c w => (w, match c with
                        | ses_enqueueSendUserCredentialsEmail _ _ _ =>
                            Rejected ["MessageRejected"]
                        | _ => answers c
                        end))
        (fun n w => (w, repeat Byte.x00 n)) (Some "/team/").


End UsersDemo.

(** The user a call is about. *)
Definition subject (c : call) : option string :=
  match c with
  | iam (IAM.createUser u _)
  | iam (IAM.createLoginProfile _ _ u)
  | iam (IAM.createAccessKey u)
  | iam (IAM.listAccessKeys u)
  | iam (IAM.deleteLoginProfile u)
  | iam (IAM.deleteAccessKey _ u)
  | iam (IAM.listGroupsForUser u)
  | iam (IAM.deleteUser u)
  | groups_removeUserFromGroup u _
  | ses_enqueueSendProgrammaticAccessKeys u _ _
  | ses_enqueueSendUserCredentialsEmail u _ _ => Some u
  | iam _ => None
  end.

(** The one call whose promise the code drops: the notification of a
    password (line 84). *)
Definition awaited (c : call) : bool :=
  match c with
  | ses_enqueueSendUserCredentialsEmail _ _ _ => false
  | _ => true
  end.

(** Some awaited call of the log was answered with an error. *)
Definition failed (l : list event) : Prop :=
  exists c reasons, In (c, Rejected reasons) l /\ awaited c = true.

(** [s] without its first [n] characters. *)
Fixpoint drop (n : nat) (s : string) : string :=
  match n, s with
  | S n', String _ s' => drop n' s'
  | _, _ => s
  end.

(** The three parts of a run. *)
Definition log_of {World A} (m : @M World A) (w : World) : list event :=
  snd (fst (m w)).

Definition outcome_of {World A} (m : @M World A) (w : World) : result A :=
  snd (m w).

Definition world_after {World A} (m : @M World A) (w : World) : World :=
  fst (fst (m w)).

(** Every call [m] issues satisfies [P], in whatever world it runs. *)
Definition emits {World A} (P : event -> Prop) (m : @M World A) : Prop :=
  forall w, Forall P (log_of m w).

Definition about (UserName : string) (e : event) : Prop :=
  subject (fst e) = Some UserName.

(** [m] never swallows the failure of a call it waits for. *)
Definition propagates {World A} (m : @M World A) : Prop :=
  forall w, failed (log_of m w) -> is_rejected (outcome_of m w) = true.

(** When [m] resolves, it resolves with the answer of its call [c]. *)
Definition returns_answer_of {World} (c : call) (m : @M World response) : Prop :=
  forall w v, outcome_of m w = Resolved v -> In (c, Resolved v) (log_of m w).

(** The creation request [Policies.update] issues for an input policy. *)
Definition creation {World} (E : Env World) (policy : Policies.entry) : call :=
  iam (IAM.createPolicy (Policies.name policy)
                        (JS.JSON_stringify (Policies.document policy))
                        (USERS_PATH E)).

(** ** Further readings of the code *)

(** The credential step of [deleteUser], lines 129-133. *)
Definition removeCredentials {World} (E : Env World) (UserName : string) : M unit :=
  if Users.has_keys_suffix UserName
  then _ <- Users.deleteAccessKeys E UserName ;; ret tt
  else _ <- Users.deleteLoginProfile E UserName ;; ret tt.

(** The call a [createUser] begins with, and the call a [deleteUser] begins
    with. *)
Definition begins_createUser (c : call) : bool :=
  match c with iam (IAM.createUser _ _) => true | _ => false end.

Definition begins_deleteUser (c : call) : bool :=
  match c with iam (IAM.listGroupsForUser _) => true | _ => false end.

Definition is_notification (c : call) : bool :=
  match c with
  | ses_enqueueSendProgrammaticAccessKeys _ _ _
  | ses_enqueueSendUserCredentialsEmail _ _ _ => true
  | _ => false
  end.

(** The calls of a log, without their answers. *)
Definition calls_of (l : list event) : list call := map fst l.

(** The 64 characters of base64 text. *)
Definition base64_alphabet : list ascii :=
  list_ascii_of_string
    "ABCDEFGHIJKLMNOPQRSTUVWXYZabcdefghijklmnopqrstuvwxyz0123456789+/".

Fixpoint all_chars (P : ascii -> Prop) (s : string) : Prop :=
  match s with
  | EmptyString => True
  | String c s' => P c /\ all_chars P s'
  end.

(** ** An IAM that keeps a set of user names

    [createUser] adds a name that is not there and refuses one that is,
    [deleteUser] removes a name that is there and refuses one that is not,
    [listUsers] lists the names; users have no groups and no keys, and every
    other call succeeds. *)

Module Directory.

Definition without (UserName : string) (names : list string) : list string :=
  filter (fun x => negb (String.eqb x UserName)) names.

Definition answers (c : call) (names : list string)
  : list string * result response :=
  match c with
  | iam (IAM.createUser UserName _) =>
      if JS.includes names UserName
      then (names, Rejected ["EntityAlreadyExists"])
      else ((names ++ [UserName])%list, Resolved (Data (JS.JString UserName)))
  | iam (IAM.deleteUser UserName) =>
      if JS.includes names UserName
      then (without UserName names, Resolved (Data JS.JNull))
      else (names, Rejected ["NoSuchEntity"])
  | iam (IAM.listUsers _) =>
      (names, Resolved (Users (map (fun x => mkUser x x) names)))
  | iam (IAM.listGroupsForUser _) => (names, Resolved (Groups []))
  | iam (IAM.listAccessKeys _) => (names, Resolved (AccessKeyMetadata []))
  | _ => (names, Resolved (Data JS.JNull))
  end.

Definition service (path : option string) : Env (list string) :=
  mkEnv (list string) answers (fun n names => (names, repeat Byte.x00 n)) path.

End Directory.

(** An account whose users have no login profile, and whose groups refuse
    removals. *)
Module UsersDemoFailing.

Definition account : Env unit :=
  mkEnv unit
        (fun c w => (w, match c with
                        | iam (IAM.deleteLoginProfile _) => Rejected ["NoSuchEntity"]
                        | groups_removeUserFromGroup _ _ => Rejected ["Throttling"]
                        | _ => UsersDemo.answers c
                        end))
        (fun n w => (w, repeat Byte.x00 n)) (Some "/team/").

End UsersDemoFailing.

(** While [deleteUser] has not thrown, every promise issued so far is one
    it still holds or has resolved. *)
Definition answered_or_held (s : DeleteUserRun.state) : Prop :=
  match DeleteUserRun.at_ s with
  | DeleteUserRun.Threw _ => True
  | pt =>
      forall q, DeleteUserRun.issued (DeleteUserRun.past s) q = true ->
                In q (DeleteUserRun.promises_held pt) \/
                exists a, DeleteUserRun.settled (DeleteUserRun.past s) q
                          = Some (Resolved a)
  end.

(** * Properties *)

(** ** JavaScript helpers *)

Example substr_long : JS.substr (-5) "svc_keys" = "_keys".
Proof. reflexivity. Qed.

Example substr_short : JS.substr (-5) "bob" = "bob".
Proof. reflexivity. Qed.

Example stringify_doc :
  JS.JSON_stringify (JS.JString "doc")
  = String JS.dquote ("doc" ++ String JS.dquote "").
Proof. reflexivity. Qed.

Example stringify_object :
  JS.JSON_stringify
    (JS.JObject [("Version", JS.JString "2012-10-17");
                 ("Statement", JS.JArray [JS.JBool true; JS.JNull; JS.JNumber (-7)])])
  = "{" ++ JS.quote "Version" ++ ":" ++ JS.quote "2012-10-17" ++ ","
    ++ JS.quote "Statement" ++ ":[true,null,-7]}".
Proof. reflexivity. Qed.

Example base64_Man : JS.base64 ["M"%byte; "a"%byte; "n"%byte] = "TWFu".
Proof. reflexivity. Qed.

Example base64_Ma : JS.base64 ["M"%byte; "a"%byte] = "TWE=".
Proof. reflexivity. Qed.

Example base64_M : JS.base64 ["M"%byte] = "TQ==".
Proof. reflexivity. Qed.

Lemma includes_In values x : JS.includes values x = true <-> In x values.
Proof.
  unfold JS.includes. rewrite existsb_exists. split.
  - intros [y [Hy Heq]]. apply String.eqb_eq in Heq. now subst.
  - intros H. exists x. split; [assumption | apply String.eqb_refl].
Qed.

Lemma difference_In array values x :
  In x (JS.difference array values) <-> In x array /\ ~ In x values.
Proof.
  unfold JS.difference. rewrite filter_In, negb_true_iff.
  rewrite <- (includes_In values x).
  destruct (JS.includes values x); intuition congruence.
Qed.

Lemma substring_to_end s : forall n,
  String.substring n (String.length s - n) s = drop n s.
Proof.
  induction s as [|c s IH]; intros [|n]; simpl; try reflexivity.
  - f_equal. specialize (IH 0). rewrite Nat.sub_0_r in IH. rewrite IH.
    now destruct s.
  - apply IH.
Qed.

Lemma substr_neg_drop (k : nat) s :
  (0 < k)%nat ->
  JS.substr (- Z.of_nat k) s = drop (String.length s - k) s.
Proof.
  intros Hk. unfold JS.substr.
  destruct (Z.ltb_spec (- Z.of_nat k) 0) as [_|H]; [|lia].
  set (n := String.length s).
  replace (Z.to_nat (Z.max (Z.of_nat n + - Z.of_nat k) 0)) with (n - k)%nat by lia.
  replace (Z.to_nat (Z.of_nat n - Z.max (Z.of_nat n + - Z.of_nat k) 0))
    with (n - (n - k))%nat by lia.
  apply substring_to_end.
Qed.

Lemma drop_append p : forall q, drop (String.length p) (p ++ q) = q.
Proof. induction p as [|c p IH]; intros q; simpl; [now destruct q | apply IH]. Qed.

Lemma length_append p q :
  String.length (p ++ q) = (String.length p + String.length q)%nat.
Proof. induction p as [|c p IH]; simpl; [reflexivity | now rewrite IH]. Qed.

Lemma drop_split s : forall n,
  (n <= String.length s)%nat ->
  exists p, s = p ++ drop n s /\ String.length p = n.
Proof.
  induction s as [|c s IH]; intros [|n] Hn; simpl in *.
  - now exists "".
  - lia.
  - now exists "".
  - destruct (IH n) as [p [Hp Hl]]; [lia|].
    exists (String c p). simpl. split; [now f_equal | now f_equal].
Qed.

(** The test of line 66 and line 129 holds exactly for the names whose last
    five characters are [_keys]. *)
Lemma has_keys_suffix_spec UserName :
  Users.has_keys_suffix UserName = true <-> exists p, UserName = p ++ "_keys".
Proof.
  unfold Users.has_keys_suffix. rewrite String.eqb_eq.
  rewrite (substr_neg_drop 5) by lia. split.
  - intros H.
    destruct (drop_split UserName (String.length UserName - 5)) as [p [Hp _]];
      [lia|].
    exists p. now rewrite <- H.
  - intros [p ->]. rewrite length_append. simpl String.length.
    replace (String.length p + 5 - 5)%nat with (String.length p) by lia.
    apply drop_append.
Qed.

(** ** Runs of asynchronous computations *)

Section AsyncFacts.

Context {World : Type}.

Lemma run_eta {A} (m : @M World A) w :
  m w = (world_after m w, log_of m w, outcome_of m w).
Proof.
  unfold world_after, log_of, outcome_of. now destruct (m w) as [[? ?] ?].
Qed.

Lemma bind_resolved {A B} (m : @M World A) (k : A -> M B) w a :
  outcome_of m w = Resolved a ->
  bind m k w = (world_after (k a) (world_after m w),
                (log_of m w ++ log_of (k a) (world_after m w))%list,
                outcome_of (k a) (world_after m w)).
Proof.
  intros H. unfold bind. rewrite (run_eta m w), H.
  now rewrite (run_eta (k a) (world_after m w)).
Qed.

Lemma bind_rejected {A B} (m : @M World A) (k : A -> M B) w reasons :
  outcome_of m w = Rejected reasons ->
  bind m k w = (world_after m w, log_of m w, Rejected reasons).
Proof. intros H. unfold bind. now rewrite (run_eta m w), H. Qed.

Lemma bind_ret {A B} (a : A) (k : A -> @M World B) w : bind (ret a) k w = k a w.
Proof. unfold bind, ret. now destruct (k a w) as [[? ?] ?]. Qed.

Lemma perform_run (E : Env World) c w w1 r :
  answer E c w = (w1, r) -> perform E c w = (w1, [(c, r)], r).
Proof. intros H. unfold perform. now rewrite H. Qed.

Lemma bind_perform {B} (E : Env World) c (k : response -> @M World B) w w1 a :
  answer E c w = (w1, Resolved a) ->
  bind (perform E c) k w
  = (world_after (k a) w1, (c, Resolved a) :: log_of (k a) w1, outcome_of (k a) w1).
Proof.
  intros H. unfold bind. rewrite (perform_run E c w w1 _ H).
  now rewrite (run_eta (k a) w1).
Qed.

Lemma bind_perform_rejected {B} (E : Env World) c (k : response -> @M World B)
      w w1 reasons :
  answer E c w = (w1, Rejected reasons) ->
  bind (perform E c) k w = (w1, [(c, Rejected reasons)], Rejected reasons).
Proof. intros H. unfold bind. now rewrite (perform_run E c w w1 _ H). Qed.

Lemma emits_ret {A} P (a : A) : emits P (@ret World A a).
Proof. intros w. constructor. Qed.

Lemma emits_throw {A} P e : emits P (@throw World A e).
Proof. intros w. constructor. Qed.

Lemma emits_await {A} P (p : result A) : emits P (@await World A p).
Proof. intros w. constructor. Qed.

Lemma emits_bind {A B} P (m : @M World A) (k : A -> M B) :
  emits P m -> (forall a, emits P (k a)) -> emits P (bind m k).
Proof.
  intros Hm Hk w. unfold log_of.
  destruct (outcome_of m w) as [a|reasons] eqn:Ho.
  - rewrite (bind_resolved m k w a Ho). simpl.
    apply Forall_app. split; [apply Hm | apply Hk].
  - rewrite (bind_rejected m k w reasons Ho). simpl. apply Hm.
Qed.

Lemma emits_start {A} P (m : @M World A) : emits P m -> emits P (start m).
Proof.
  intros Hm w. specialize (Hm w). unfold log_of, start in *.
  now destruct (m w) as [[? ?] ?].
Qed.

Lemma emits_mapM {A B} P (f : A -> @M World B) l :
  (forall x, In x l -> emits P (f x)) -> emits P (mapM f l).
Proof.
  induction l as [|x l IH]; intros Hf; simpl.
  - apply emits_ret.
  - apply emits_bind; [apply Hf; now left|]. intros y.
    apply emits_bind; [apply IH; intros; apply Hf; now right|].
    intros ys. apply emits_ret.
Qed.

Lemma emits_perform (E : Env World) (P : event -> Prop) c :
  (forall r, P (c, r)) -> emits P (perform E c).
Proof.
  intros H w. unfold log_of, perform.
  destruct (answer E c w) as [w1 r]. simpl. constructor; [apply H | constructor].
Qed.

Lemma emits_random (E : Env World) P n : emits P (random E n).
Proof.
  intros w. unfold log_of, random.
  destruct (randomBytes E n w). constructor.
Qed.

Lemma emits_weaken {A} (P Q : event -> Prop) (m : @M World A) :
  (forall e, P e -> Q e) -> emits P m -> emits Q m.
Proof. intros H Hm w. eapply Forall_impl; [apply H | apply Hm]. Qed.

End AsyncFacts.

Create HintDb emits.
#[local] Hint Resolve emits_ret emits_throw emits_await emits_random : emits.

Ltac emits_step :=
  first [ apply emits_bind; [|intro]
        | apply emits_start
        | apply emits_ret | apply emits_throw | apply emits_await
        | apply emits_random
        | apply emits_perform; intro; reflexivity ].

(** ** What the Users methods talk about *)

Section UsersLogs.

Context {World : Type} (E : Env World).

Lemma the_AccessKeyMetadata_emits P data :
  emits P (@the_AccessKeyMetadata World data).
Proof. destruct data; simpl; auto with emits. Qed.

Lemma the_Groups_emits P data : emits P (@the_Groups World data).
Proof. destruct data; simpl; auto with emits. Qed.

Lemma the_Users_emits P data : emits P (@the_Users World data).
Proof. destruct data; simpl; auto with emits. Qed.

Lemma createUser_about UserName accountName :
  emits (about UserName) (Users.createUser E UserName accountName).
Proof.
  unfold Users.createUser, Users.generateProgrammaticAccessKeys,
    Users.generateUserLoginProfile.
  emits_step; [emits_step|].
  destruct (Users.has_keys_suffix UserName); repeat emits_step.
Qed.

Lemma deleteAccessKeys_about UserName :
  emits (about UserName) (Users.deleteAccessKeys E UserName).
Proof.
  unfold Users.deleteAccessKeys, Users.listUserAccessKeys.
  emits_step; [emits_step|].
  emits_step; [apply the_AccessKeyMetadata_emits|].
  emits_step; [|emits_step].
  apply emits_mapM. intros item _. repeat emits_step.
Qed.

Lemma deleteUser_about UserName :
  emits (about UserName) (Users.deleteUser E UserName).
Proof.
  unfold Users.deleteUser, Users.deleteLoginProfile.
  emits_step; [emits_step|].
  emits_step; [apply the_Groups_emits|].
  emits_step; [apply emits_mapM; intros group _; repeat emits_step|].
  emits_step.
  - destruct (Users.has_keys_suffix UserName).
    + emits_step; [apply deleteAccessKeys_about | emits_step].
    + repeat emits_step.
  - repeat emits_step.
Qed.

End UsersLogs.

(** ** The diff inside [update] *)

Section UpdateCalls.

Context {World : Type} (E : Env World).

(** Once the listing has answered, every further call of [update] is about
    a user to create or a user to delete. *)
Lemma update_calls json accountName w w1 listed :
  answer E (iam (IAM.listUsers (USERS_PATH E))) w = (w1, Resolved (Users listed)) ->
  exists rest,
    log_of (Users.update E json accountName) w
    = (iam (IAM.listUsers (USERS_PATH E)), Resolved (Users listed)) :: rest /\
    Forall (fun e => exists x,
                (In x (Users.usersToAdd (Users.users json) (map user_UserName listed)) \/
                 In x (Users.usersToDelete (Users.users json) (map user_UserName listed)))
                /\ about x e) rest.
Proof.
  intros H. unfold Users.update, log_of at 1.
  rewrite (bind_perform E _ _ w w1 _ H). simpl.
  eexists. split; [reflexivity|].
  unfold log_of. simpl the_Users. rewrite bind_ret.
  match goal with |- Forall ?P (snd (fst (?m w1))) =>
    change (Forall P (log_of m w1)); revert w1 H; intros w1 _;
    generalize w1; change (emits P m)
  end.
  emits_step.
  { apply emits_mapM. intros x Hx. emits_step.
    eapply emits_weaken; [|apply createUser_about].
    intros e He. exists x. split; [now left | exact He]. }
  emits_step.
  { apply emits_mapM. intros x Hx. emits_step.
    eapply emits_weaken; [|apply deleteUser_about].
    intros e He. exists x. split; [now right | exact He]. }
  emits_step.
Qed.

End UpdateCalls.

(** C1. The diff computed inside [update]: the users to create are the
    desired names that are not live, the users to delete are the live names
    that are not desired, no name is in both, and a name that is both
    desired and live is in neither, so that once the listing has answered no
    call at all is issued about it. *)
Theorem update_diff (D L : list string) :
  let toCreate := Users.usersToAdd D L in
  let toDelete := Users.usersToDelete D L in
  (forall x, In x toCreate <-> In x D /\ ~ In x L) /\
  (forall x, In x toDelete <-> In x L /\ ~ In x D) /\
  (forall x, ~ (In x toCreate /\ In x toDelete)) /\
  (forall x, In x D -> In x L -> ~ In x toCreate /\ ~ In x toDelete) /\
  (forall World (E : Env World) w w1 listed accountName,
      answer E (iam (IAM.listUsers (USERS_PATH E))) w
      = (w1, Resolved (Users listed)) ->
      L = map user_UserName listed ->
      forall x, In x D -> In x L ->
      forall c r,
        In (c, r) (log_of (Users.update E (Users.mkInput D) accountName) w) ->
        subject c <> Some x).
Proof.
  unfold Users.usersToAdd, Users.usersToDelete. cbv zeta.
  split; [|split; [|split; [|split]]].
  - intros x. apply difference_In.
  - intros x. apply difference_In.
  - intros x [H1 H2]. apply difference_In in H1, H2. tauto.
  - intros x HD HL. split; intros H; apply difference_In in H; tauto.
  - intros World E w w1 listed accountName Hlist -> x HD HL c r Hin Hsub.
    destruct (update_calls E (Users.mkInput D) accountName w w1 listed Hlist)
      as [rest [Hlog Hrest]].
    rewrite Hlog in Hin. destruct Hin as [Heq|Hin].
    + inversion Heq; subst. discriminate.
    + rewrite Forall_forall in Hrest. apply Hrest in Hin.
      destruct Hin as [y [Hy Hab]]. unfold about in Hab. simpl in Hab.
      assert (y = x) by congruence. subst y.
      unfold Users.usersToAdd, Users.usersToDelete in Hy. simpl in Hy.
      destruct Hy as [Hy|Hy]; apply difference_In in Hy; tauto.
Qed.

Lemma update_diff_witness :
  answer UsersDemo.account (iam (IAM.listUsers (USERS_PATH UsersDemo.account))) tt
  = (tt, Resolved (Users [mkUser "bob_keys" "arn:bob"; mkUser "carol" "arn:carol"])) /\
  In "bob_keys" ["alice"; "bob_keys"] /\
  In "bob_keys" ["bob_keys"; "carol"] /\
  forall c r,
    In (c, r) (log_of (Users.update UsersDemo.account
                         (Users.mkInput ["alice"; "bob_keys"]) "prod") tt) ->
    subject c <> Some "bob_keys".
Proof.
  split; [reflexivity|]. split; [simpl; tauto|]. split; [simpl; tauto|].
  exact (proj2 (proj2 (proj2 (proj2
           (update_diff ["alice"; "bob_keys"] ["bob_keys"; "carol"]))))
         unit UsersDemo.account tt tt
         [mkUser "bob_keys" "arn:bob"; mkUser "carol" "arn:carol"] "prod"
         eq_refl eq_refl "bob_keys"
         (or_intror (or_introl eq_refl)) (or_introl eq_refl)).
Defined.

(** The scenario of the spec: desired [alice, bob_keys] against live
    [bob_keys, carol]. *)
Example diff_scenario :
  Users.usersToAdd ["alice"; "bob_keys"] ["bob_keys"; "carol"] = ["alice"] /\
  Users.usersToDelete ["alice"; "bob_keys"] ["bob_keys"; "carol"] = ["carol"].
Proof. split; reflexivity. Qed.

(** ** [createUser] *)

(** Runs the calls of a method one answer at a time. *)
Ltac run_calls E :=
  repeat match goal with
         | |- context [answer E ?c ?w] =>
             let r := fresh "r" in
             let Ha := fresh "Ha" in
             destruct (answer E c w) as [? r] eqn:Ha; destruct r; simpl
         | |- context [randomBytes E ?n ?w] =>
             let Hr := fresh "Hr" in
             destruct (randomBytes E n w) eqn:Hr; simpl
         end.

Ltac in_log :=
  repeat match goal with
         | H : False |- _ => destruct H
         | H : _ \/ _ |- _ => destruct H as [H|H]
         | H : In _ [] |- _ => destruct H
         | H : In _ (_ :: _) |- _ => destruct H as [H|H]
         | H : (_, _) = (_, _) |- _ => inversion H; clear H; subst
         end.

Section CreateUser.

Context {World : Type} (E : Env World).

(** C2. [createUser] picks the credential by the last five characters of
    the name.  A name ending in [_keys] never gets a login profile, and gets
    an access key as soon as the user itself is created; any other name
    never gets an access key, and gets a login profile whose password is the
    base64 of 16 bytes drawn at that moment and which must be reset. *)
Theorem createUser_credentials UserName accountName w :
  let l := log_of (Users.createUser E UserName accountName) w in
  let created w1 a :=
    answer E (iam (IAM.createUser UserName (USERS_PATH E))) w = (w1, Resolved a) in
  (Users.has_keys_suffix UserName = true <-> exists p, UserName = p ++ "_keys") /\
  (Users.has_keys_suffix UserName = true ->
   (forall Password reset u r,
       ~ In (iam (IAM.createLoginProfile Password reset u), r) l) /\
   (forall w1 a, created w1 a ->
       exists r, In (iam (IAM.createAccessKey UserName), r) l)) /\
  (Users.has_keys_suffix UserName = false ->
   (forall u r, ~ In (iam (IAM.createAccessKey u), r) l) /\
   (forall Password reset u r,
       In (iam (IAM.createLoginProfile Password reset u), r) l ->
       reset = true /\ u = UserName) /\
   (forall w1 a, created w1 a ->
       exists r,
         In (iam (IAM.createLoginProfile
                    (JS.base64 (snd (randomBytes E 16 w1))) true UserName), r) l)).
Proof.
  cbv zeta. split; [apply has_keys_suffix_spec|].
  unfold log_of, Users.createUser, Users.generateProgrammaticAccessKeys,
    Users.generateUserLoginProfile, bind, perform, start, random, ret.
  split; intros Hk; rewrite Hk.
  - split.
    + intros Password reset u r. run_calls E; intros H; in_log.
    + intros w1 a Hc. rewrite Hc. simpl. run_calls E; eexists; simpl; eauto.
  - split; [|split].
    + intros u r. run_calls E; intros H; in_log.
    + intros Password reset u r. run_calls E; intros H; in_log; auto.
    + intros w1 a Hc. rewrite Hc. simpl. run_calls E; eexists; simpl; eauto.
Qed.

(** C9. What [createUser] resolves with is the answer of the
    [iam.createUser] call, whichever credential it goes on to create; and it
    does resolve with it when the calls it waits for succeed. *)
Theorem createUser_returns UserName accountName w :
  let create := iam (IAM.createUser UserName (USERS_PATH E)) in
  (forall v,
      outcome_of (Users.createUser E UserName accountName) w = Resolved v ->
      exists w1, answer E create w = (w1, Resolved v)) /\
  (forall v w1 w2 w3 credentials sent,
      Users.has_keys_suffix UserName = true ->
      answer E create w = (w1, Resolved v) ->
      answer E (iam (IAM.createAccessKey UserName)) w1 = (w2, Resolved credentials) ->
      answer E (ses_enqueueSendProgrammaticAccessKeys UserName credentials accountName)
             w2 = (w3, Resolved sent) ->
      outcome_of (Users.createUser E UserName accountName) w = Resolved v) /\
  (forall v w1 w2 bytes w3 profile,
      Users.has_keys_suffix UserName = false ->
      answer E create w = (w1, Resolved v) ->
      randomBytes E 16 w1 = (w2, bytes) ->
      answer E (iam (IAM.createLoginProfile (JS.base64 bytes) true UserName)) w2
      = (w3, Resolved profile) ->
      outcome_of (Users.createUser E UserName accountName) w = Resolved v).
Proof.
  cbv zeta.
  unfold outcome_of, Users.createUser, Users.generateProgrammaticAccessKeys,
    Users.generateUserLoginProfile, bind, perform, start, random, ret.
  split; [|split].
  - intros v. destruct (Users.has_keys_suffix UserName);
      run_calls E; intros H; try discriminate; inversion H; subst; eauto.
  - intros v w1 w2 w3 credentials sent Hk H1 H2 H3.
    rewrite Hk, H1. simpl. rewrite H2. simpl. now rewrite H3.
  - intros v w1 w2 bytes w3 profile Hk H1 H2 H3.
    rewrite Hk, H1. simpl. rewrite H2. simpl. rewrite H3. simpl.
    now destruct (answer E _ w3).
Qed.

End CreateUser.

(** ** Batches: [array.map] of calls that are started together *)

Section Batches.

Context {World : Type}.

Lemma log_of_bind_resolved {A B} (m : @M World A) (k : A -> M B) w a :
  outcome_of m w = Resolved a ->
  log_of (bind m k) w = (log_of m w ++ log_of (k a) (world_after m w))%list /\
  outcome_of (bind m k) w = outcome_of (k a) (world_after m w) /\
  world_after (bind m k) w = world_after (k a) (world_after m w).
Proof.
  unfold log_of, outcome_of, world_after, bind.
  destruct (m w) as [[w1 l1] r]. simpl. intros ->.
  now destruct (k a w1) as [[? ?] ?].
Qed.

Lemma log_of_bind_rejected {A B} (m : @M World A) (k : A -> M B) w reasons :
  outcome_of m w = Rejected reasons ->
  log_of (bind m k) w = log_of m w /\
  outcome_of (bind m k) w = Rejected reasons.
Proof.
  unfold log_of, outcome_of, bind.
  destruct (m w) as [[w1 l1] r]. simpl. now intros ->.
Qed.

Lemma log_of_start {A} (m : @M World A) w :
  log_of (start m) w = log_of m w /\
  outcome_of (start m) w = Resolved (outcome_of m w) /\
  world_after (start m) w = world_after m w.
Proof.
  unfold log_of, outcome_of, world_after, start.
  now destruct (m w) as [[? ?] ?].
Qed.

(** Starting [f x] for every [x] never fails by itself; it yields one
    promise per element, in order, and issues the calls of every [f x]. *)
Lemma mapM_start_run {A B} (f : A -> @M World B) xs : forall w,
  exists runs : list (list event * result B),
    Forall2 (fun x run => exists wx, log_of (f x) wx = fst run /\
                                     outcome_of (f x) wx = snd run) xs runs /\
    log_of (mapM (fun x => start (f x)) xs) w = List.concat (map fst runs) /\
    outcome_of (mapM (fun x => start (f x)) xs) w = Resolved (map snd runs).
Proof.
  induction xs as [|x xs IH]; intros w.
  - exists []. repeat split. constructor.
  - simpl mapM.
    destruct (log_of_start (f x) w) as [Hl [Ho Hw]].
    destruct (log_of_bind_resolved (start (f x))
                (fun y => bind (mapM (fun x => start (f x)) xs)
                               (fun ys => ret (y :: ys))) w _ Ho)
      as [Hl1 [Ho1 _]].
    rewrite Hl1, Ho1, Hl, Hw. clear Hl1 Ho1.
    destruct (IH (world_after (f x) w)) as [runs [HF [Hlr Hor]]].
    destruct (log_of_bind_resolved (mapM (fun x => start (f x)) xs)
                (fun ys => ret (outcome_of (f x) w :: ys))
                (world_after (f x) w) _ Hor) as [Hl2 [Ho2 _]].
    rewrite Hl2, Ho2, Hlr. clear Hl2 Ho2.
    exists ((log_of (f x) w, outcome_of (f x) w) :: runs).
    split; [|split].
    + constructor; [exists w; now split | exact HF].
    + simpl. unfold log_of at 3. simpl. now rewrite app_nil_r.
    + reflexivity.
Qed.

Lemma Promise_all_resolved {A} (ps : list (result A)) vs :
  Promise_all ps = Resolved vs <-> ps = map Resolved vs.
Proof.
  revert vs. induction ps as [|p ps IH]; intros vs; simpl.
  - split; intros H.
    + inversion H. reflexivity.
    + destruct vs; [reflexivity | discriminate].
  - destruct p as [a|e].
    + destruct (Promise_all ps) as [l|es] eqn:Hp.
      * split; intros H.
        -- inversion H; subst. simpl. f_equal. now apply IH.
        -- destruct vs as [|v vs]; [discriminate|]. simpl in H.
           inversion H; subst. f_equal. f_equal.
           assert (Resolved l = Resolved vs) as Heq by now apply IH.
           now inversion Heq.
      * split; intros H; [discriminate|].
        destruct vs as [|v vs]; [discriminate|]. simpl in H.
        inversion H; subst.
        assert (@Rejected (list A) es = Resolved vs) as Heq by now apply IH.
        discriminate.
    + split; intros H.
      * destruct (Promise_all ps); discriminate.
      * destruct vs; discriminate.
Qed.

Lemma Promise_all_rejected {A} (ps : list (result A)) :
  is_rejected (Promise_all ps) = true <-> exists reasons, In (Rejected reasons) ps.
Proof.
  induction ps as [|p ps IH]; simpl.
  - split; [discriminate | intros [? []]].
  - destruct p as [a|e]; destruct (Promise_all ps) as [l|es]; simpl in *.
    + split; [discriminate|]. intros [r [H|H]]; [discriminate|].
      apply IH. now exists r.
    + split; [|reflexivity]. intros _.
      destruct IH as [IH _]. destruct (IH eq_refl) as [r Hr]. exists r. now right.
    + split; [|reflexivity]. intros _. exists e. now left.
    + split; [|reflexivity]. intros _. exists e. now left.
Qed.


Lemma failed_app l1 l2 : failed (l1 ++ l2) <-> failed l1 \/ failed l2.
Proof.
  unfold failed. split.
  - intros [c [e [Hin Ha]]]. apply in_app_or in Hin.
    destruct Hin; [left | right]; eauto.
  - intros [[c [e [Hin Ha]]]|[c [e [Hin Ha]]]]; exists c, e;
      (split; [apply in_or_app; auto | exact Ha]).
Qed.

Lemma failed_nil : ~ failed [].
Proof. intros [c [e [[] _]]]. Qed.

Lemma failed_concat (ls : list (list event)) :
  failed (List.concat ls) -> exists l, In l ls /\ failed l.
Proof.
  induction ls as [|l ls IH]; simpl.
  - intros H. now apply failed_nil in H.
  - intros H. apply failed_app in H. destruct H as [H|H].
    + exists l. split; [now left | exact H].
    + destruct (IH H) as [l' [Hin Hf]]. exists l'. split; [now right | exact Hf].
Qed.

(** A batch whose members propagate failures yields a rejected promise as
    soon as one awaited call of the batch has failed. *)
Lemma batch_failed {A B} (f : A -> @M World B) xs w :
  (forall x, propagates (f x)) ->
  failed (log_of (mapM (fun x => start (f x)) xs) w) ->
  exists ps, outcome_of (mapM (fun x => start (f x)) xs) w = Resolved ps /\
             is_rejected (Promise_all ps) = true.
Proof.
  intros Hf Hfail.
  destruct (mapM_start_run f xs w) as [runs [HF [Hl Ho]]].
  rewrite Hl in Hfail. apply failed_concat in Hfail.
  destruct Hfail as [l [Hin Hfl]].
  apply in_map_iff in Hin. destruct Hin as [run [Hrun Hin]]. subst l.
  exists (map snd runs). split; [exact Ho|].
  apply Promise_all_rejected.
  assert (exists x wx, log_of (f x) wx = fst run /\ outcome_of (f x) wx = snd run)
    as [x [wx [Hlx Hox]]].
  { clear -HF Hin. induction HF as [|y r ys rs Hyr HF IH]; [destruct Hin|].
    destruct Hin as [->|Hin]; [destruct Hyr as [wy ?]; eauto | auto]. }
  specialize (Hf x wx). rewrite Hlx in Hf. specialize (Hf Hfl).
  rewrite Hox in Hf. destruct (snd run) as [?|reasons] eqn:Hs; [discriminate|].
  exists reasons. rewrite <- Hs. now apply in_map.
Qed.

(** The general shape of the methods: a batch is started, and what follows
    rejects if it sees a failure of its own or if the batch is rejected. *)
Lemma propagates_batch {A B C} (f : A -> @M World B) xs
      (k : list (result B) -> @M World C) :
  (forall x, propagates (f x)) ->
  (forall ps w,
      failed (log_of (k ps) w) \/ is_rejected (Promise_all ps) = true ->
      is_rejected (outcome_of (k ps) w) = true) ->
  propagates (bind (mapM (fun x => start (f x)) xs) k).
Proof.
  intros Hf Hk w Hfail.
  destruct (mapM_start_run f xs w) as [runs [_ [_ Ho]]].
  destruct (log_of_bind_resolved _ k w _ Ho) as [Hl [Hout _]].
  rewrite Hl in Hfail. rewrite Hout. apply Hk.
  apply failed_app in Hfail. destruct Hfail as [Hfail|Hfail]; [right | now left].
  destruct (batch_failed f xs w Hf Hfail) as [ps [Hps Hrej]].
  rewrite Ho in Hps. inversion Hps; subst. exact Hrej.
Qed.

Lemma propagates_ret {A} (a : A) : propagates (@ret World A a).
Proof. intros w H. now apply failed_nil in H. Qed.

Lemma propagates_throw {A} e : propagates (@throw World A e).
Proof. intros w H. reflexivity. Qed.

Lemma propagates_await {A} (p : result A) : propagates (@await World A p).
Proof. intros w H. now apply failed_nil in H. Qed.

Lemma propagates_perform (E : Env World) c : propagates (perform E c).
Proof.
  intros w. unfold log_of, outcome_of, perform.
  destruct (answer E c w) as [w1 r]. simpl.
  intros [c' [e [[Heq|[]] _]]]. now inversion Heq.
Qed.


Lemma propagates_bind {A B} (m : @M World A) (k : A -> M B) :
  propagates m -> (forall a, propagates (k a)) -> propagates (bind m k).
Proof.
  intros Hm Hk w Hfail.
  destruct (outcome_of m w) as [a|reasons] eqn:Ho.
  - destruct (log_of_bind_resolved m k w a Ho) as [Hl [Hout _]].
    rewrite Hl in Hfail. rewrite Hout. apply failed_app in Hfail.
    destruct Hfail as [Hfail|Hfail]; [|now apply Hk].
    apply Hm in Hfail. rewrite Ho in Hfail. discriminate.
  - destruct (log_of_bind_rejected m k w reasons Ho) as [_ Hout].
    now rewrite Hout.
Qed.

End Batches.

(** ** [deleteAccessKeys] *)

Section DeleteAccessKeys.

Context {World : Type} (E : Env World).

(** A batch of plain calls: one call per element, in order, each with its
    answer. *)
Lemma mapM_start_perform {A} (f : A -> call) xs w :
  exists answers,
    List.length answers = List.length xs /\
    log_of (mapM (fun x => start (perform E (f x))) xs) w
    = combine (map f xs) answers /\
    outcome_of (mapM (fun x => start (perform E (f x))) xs) w = Resolved answers.
Proof.
  destruct (mapM_start_run (fun x => perform E (f x)) xs w) as [runs [HF [Hl Ho]]].
  exists (map snd runs). rewrite Hl, Ho. clear Hl Ho.
  split; [|split]; [| |reflexivity].
  - rewrite length_map. symmetry. eapply Forall2_length; eassumption.
  - induction HF as [|x run xs runs [wx [Hlx Hox]] HF IH]; [reflexivity|].
    simpl. rewrite <- IH, <- Hlx, <- Hox.
    unfold log_of, outcome_of, perform. now destruct (answer E (f x) wx).
Qed.

(** C10. [deleteAccessKeys] lists the keys of the user first and then
    issues exactly one [deleteAccessKey] per listed key, by its
    [AccessKeyId] and in the order of the listing; its result is
    [Promise.all] of the per-key answers, hence the sequence of the per-key
    results when each deletion succeeds, and the empty sequence, with no
    deletion at all, when the listing is empty. *)
Theorem deleteAccessKeys_one_call_per_key UserName w :
  let listing := iam (IAM.listAccessKeys UserName) in
  let run := Users.deleteAccessKeys E UserName in
  (forall w1 items,
      answer E listing w = (w1, Resolved (AccessKeyMetadata items)) ->
      exists answers,
        List.length answers = List.length items /\
        log_of run w
        = (listing, Resolved (AccessKeyMetadata items))
            :: combine (map (fun item => iam (IAM.deleteAccessKey
                                                (key_AccessKeyId item) UserName))
                            items) answers /\
        outcome_of run w = Promise_all answers /\
        (forall results, answers = map Resolved results ->
                         outcome_of run w = Resolved results)) /\
  (forall w1,
      answer E listing w = (w1, Resolved (AccessKeyMetadata [])) ->
      log_of run w = [(listing, Resolved (AccessKeyMetadata []))] /\
      outcome_of run w = Resolved []).
Proof.
  cbv zeta.
  assert (forall w1 items,
      answer E (iam (IAM.listAccessKeys UserName)) w
      = (w1, Resolved (AccessKeyMetadata items)) ->
      exists answers,
        List.length answers = List.length items /\
        log_of (Users.deleteAccessKeys E UserName) w
        = (iam (IAM.listAccessKeys UserName), Resolved (AccessKeyMetadata items))
            :: combine (map (fun item => iam (IAM.deleteAccessKey
                                                (key_AccessKeyId item) UserName))
                            items) answers /\
        outcome_of (Users.deleteAccessKeys E UserName) w = Promise_all answers)
    as Hmain.
  { intros w1 items H.
    unfold Users.deleteAccessKeys, Users.listUserAccessKeys, log_of, outcome_of.
    rewrite (bind_perform E _ _ w w1 _ H). simpl.
    unfold log_of, outcome_of. simpl the_AccessKeyMetadata. rewrite bind_ret.
    destruct (mapM_start_perform
                (fun item => iam (IAM.deleteAccessKey (key_AccessKeyId item) UserName))
                items w1) as [answers [Hlen [Hl Ho]]].
    exists answers. split; [exact Hlen|].
    destruct (log_of_bind_resolved _ (fun promises => await (Promise_all promises))
                w1 _ Ho) as [Hl2 [Ho2 _]].
    unfold log_of, outcome_of in Hl2, Ho2. rewrite Hl2, Ho2.
    split; [|reflexivity].
    f_equal. fold (log_of (mapM (fun item =>
      start (perform E (iam (IAM.deleteAccessKey (key_AccessKeyId item) UserName))))
      items) w1). rewrite Hl. simpl. apply app_nil_r. }
  split.
  - intros w1 items H. destruct (Hmain w1 items H) as [answers [Hlen [Hl Ho]]].
    exists answers. repeat split; try assumption.
    intros results ->. rewrite Ho. now apply Promise_all_resolved.
  - intros w1 H. destruct (Hmain w1 [] H) as [answers [Hlen [Hl Ho]]].
    destruct answers; [|discriminate]. now split.
Qed.

End DeleteAccessKeys.

(** ** Failures inside the Users methods *)

Section UsersFailures.

Context {World : Type} (E : Env World).

Lemma the_AccessKeyMetadata_propagates data :
  propagates (@the_AccessKeyMetadata World data).
Proof. destruct data; first [apply propagates_ret | apply propagates_throw]. Qed.






Lemma deleteAccessKeys_propagates UserName :
  propagates (Users.deleteAccessKeys E UserName).
Proof.
  unfold Users.deleteAccessKeys, Users.listUserAccessKeys.
  apply propagates_bind; [apply propagates_perform|]. intros accessKeys.
  apply propagates_bind; [apply the_AccessKeyMetadata_propagates|]. intros items.
  apply (propagates_batch
           (fun item => perform E (iam (IAM.deleteAccessKey
                                          (key_AccessKeyId item) UserName)))).
  - intros item. apply propagates_perform.
  - intros ps w [H|H]; [now apply failed_nil in H | exact H].
Qed.


(** The shape of a run of [update] once the listing has answered: one run
    of [createUser] per user to add, one run of [deleteUser] per user to
    delete, and [Promise.all] over the two batches. *)
Lemma update_structure json accountName w w1 listed :
  answer E (iam (IAM.listUsers (USERS_PATH E))) w = (w1, Resolved (Users listed)) ->
  let toCreate := Users.usersToAdd (Users.users json) (map user_UserName listed) in
  let toDelete := Users.usersToDelete (Users.users json) (map user_UserName listed) in
  exists creates deletes : list (list event * result response),
    Forall2 (fun x run => exists wx,
                 log_of (Users.createUser E x accountName) wx = fst run /\
                 outcome_of (Users.createUser E x accountName) wx = snd run)
            toCreate creates /\
    Forall2 (fun x run => exists wx,
                 log_of (Users.deleteUser E x) wx = fst run /\
                 outcome_of (Users.deleteUser E x) wx = snd run)
            toDelete deletes /\
    log_of (Users.update E json accountName) w
    = ((iam (IAM.listUsers (USERS_PATH E)), Resolved (Users listed))
         :: List.concat (map fst creates) ++ List.concat (map fst deletes))%list /\
    outcome_of (Users.update E json accountName) w
    = Promise_all [Promise_all (map snd creates); Promise_all (map snd deletes)].
Proof.
  intros H toCreate toDelete.
  unfold Users.update, log_of, outcome_of.
  rewrite (bind_perform E _ _ w w1 _ H). simpl.
  unfold log_of, outcome_of. simpl the_Users. rewrite bind_ret.
  fold toCreate toDelete.
  destruct (mapM_start_run (fun user => Users.createUser E user accountName)
              toCreate w1) as [creates [HFc [Hlc Hoc]]].
  match goal with |- context [bind ?m ?k] =>
    destruct (log_of_bind_resolved m k w1 _ Hoc) as [Hl1 [Ho1 _]]
  end.
  unfold log_of, outcome_of in Hl1, Ho1. rewrite Hl1, Ho1. clear Hl1 Ho1.
  set (w2 := world_after _ w1).
  destruct (mapM_start_run (fun user => Users.deleteUser E user)
              toDelete w2) as [deletes [HFd [Hld Hod]]].
  match goal with |- context [bind ?m ?k] =>
    destruct (log_of_bind_resolved m k w2 _ Hod) as [Hl2 [Ho2 _]]
  end.
  unfold log_of, outcome_of in Hl2, Ho2. rewrite Hl2, Ho2. clear Hl2 Ho2.
  exists creates, deletes.
  split; [exact HFc|]. split; [exact HFd|]. split; [|reflexivity].
  f_equal. unfold log_of in Hlc, Hld. rewrite Hlc, Hld. simpl.
  now rewrite app_nil_r.
Qed.



End UsersFailures.

(** ** The results of [update] *)

Section UpdateResults.

Context {World : Type} (E : Env World).

Lemma returns_answer_perform c : returns_answer_of c (perform E c).
Proof.
  intros w v. unfold outcome_of, log_of, perform.
  destruct (answer E c w) as [w1 r]. simpl. intros ->. now left.
Qed.

Lemma returns_answer_bind {A} c (m : @M World A) k :
  (forall a, returns_answer_of c (k a)) -> returns_answer_of c (bind m k).
Proof.
  intros Hk w v Hv.
  destruct (outcome_of m w) as [a|reasons] eqn:Ho.
  - destruct (log_of_bind_resolved m k w a Ho) as [Hl [Hout _]].
    rewrite Hl. apply in_or_app. right. apply Hk. now rewrite <- Hout.
  - destruct (log_of_bind_rejected m k w reasons Ho) as [_ Hout].
    rewrite Hout in Hv. discriminate.
Qed.

Lemma deleteUser_returns_answer UserName :
  returns_answer_of (iam (IAM.deleteUser UserName)) (Users.deleteUser E UserName).
Proof.
  unfold Users.deleteUser.
  repeat (apply returns_answer_bind; intro).
  apply returns_answer_perform.
Qed.

Lemma createUser_returns_answer UserName accountName :
  returns_answer_of (iam (IAM.createUser UserName (USERS_PATH E)))
                    (Users.createUser E UserName accountName).
Proof.
  intros w v.
  unfold outcome_of, log_of, Users.createUser, Users.generateProgrammaticAccessKeys,
    Users.generateUserLoginProfile, bind, perform, start, random, ret.
  destruct (Users.has_keys_suffix UserName);
    run_calls E; intros H; try discriminate; inversion H; subst; now left.
Qed.

Lemma Forall2_resolved {A R} (P : A -> list event * result R -> Prop)
      (Q : A -> R -> Prop) xs : forall runs vs,
  Forall2 P xs runs ->
  map snd runs = map Resolved vs ->
  (forall x run v, In run runs -> P x run -> snd run = Resolved v -> Q x v) ->
  Forall2 Q xs vs.
Proof.
  induction xs as [|x xs IH]; intros runs vs HF Hmap HQ; inversion HF; subst.
  - destruct vs; [constructor | discriminate].
  - destruct vs as [|v vs]; [discriminate|]. simpl in Hmap.
    inversion Hmap. constructor.
    + eapply HQ; [now left | eassumption | assumption].
    + eapply IH; [eassumption | assumption |].
      intros x' run v' Hin. apply HQ. now right.
Qed.

Lemma Forall2_outcomes {A R} (f : A -> @M World R) xs :
  forall runs : list (list event * result R),
  Forall2 (fun x run => exists wx, log_of (f x) wx = fst run /\
                                   outcome_of (f x) wx = snd run) xs runs ->
  Forall2 (fun x p => exists wx, outcome_of (f x) wx = p) xs (map snd runs).
Proof.
  intros runs HF. induction HF as [|x run xs runs [wx [_ Ho]] HF IH];
    constructor; [now exists wx | exact IH].
Qed.

Lemma in_run_log (runs : list (list event * result response)) run e :
  In run runs -> In e (fst run) -> In e (List.concat (map fst runs)).
Proof.
  intros Hrun He. apply in_concat. exists (fst run). split; [|exact He].
  now apply in_map.
Qed.

Lemma Promise_all_pair_resolved {A} (p q : result (list A)) v :
  Promise_all [p; q] = Resolved v <->
  exists a b, p = Resolved a /\ q = Resolved b /\ v = [a; b].
Proof.
  split.
  - destruct p as [a|e], q as [b|e']; simpl; intros H; try discriminate.
    inversion H; subst. now exists a, b.
  - intros (a & b & -> & -> & ->). reflexivity.
Qed.

(** C8. [update] first lists the users under the configured path prefix.
    When it resolves, it resolves with the pair of sequences
    [[createResults, deleteResults]]: the answers of the [iam.createUser]
    calls in the order of the users to add and the answers of the
    [iam.deleteUser] calls in the order of the users to delete; and it does
    resolve so when every [createUser] and [deleteUser] it started
    resolves. *)
Theorem update_results json accountName w :
  let run := Users.update E json accountName in
  let listing := iam (IAM.listUsers (USERS_PATH E)) in
  (exists r rest, log_of run w = (listing, r) :: rest) /\
  (forall w1 listed,
      answer E listing w = (w1, Resolved (Users listed)) ->
      let toCreate := Users.usersToAdd (Users.users json) (map user_UserName listed) in
      let toDelete := Users.usersToDelete (Users.users json) (map user_UserName listed) in
      (forall v,
          outcome_of run w = Resolved v ->
          exists createResults deleteResults,
            v = [createResults; deleteResults] /\
            Forall2 (fun x res =>
                       In (iam (IAM.createUser x (USERS_PATH E)), Resolved res)
                          (log_of run w))
                    toCreate createResults /\
            Forall2 (fun x res =>
                       In (iam (IAM.deleteUser x), Resolved res) (log_of run w))
                    toDelete deleteResults) /\
      (exists creates deletes,
          Forall2 (fun x p => exists wx,
                       outcome_of (Users.createUser E x accountName) wx = p)
                  toCreate creates /\
          Forall2 (fun x p => exists wx,
                       outcome_of (Users.deleteUser E x) wx = p)
                  toDelete deletes /\
          forall createResults deleteResults,
            creates = map Resolved createResults ->
            deletes = map Resolved deleteResults ->
            outcome_of run w = Resolved [createResults; deleteResults])).
Proof.
  cbv zeta. split.
  - unfold log_of, Users.update.
    destruct (answer E (iam (IAM.listUsers (USERS_PATH E))) w)
      as [w1 [data|reasons]] eqn:H.
    + rewrite (bind_perform E _ _ w w1 _ H). simpl. eauto.
    + rewrite (bind_perform_rejected E _ _ w w1 _ H). simpl. eauto.
  - intros w1 listed H.
    destruct (update_structure E json accountName w w1 listed H)
      as [creates [deletes [HFc [HFd [Hl Ho]]]]].
    split.
    + intros v Hv. rewrite Ho in Hv.
      apply Promise_all_pair_resolved in Hv.
      destruct Hv as [cs [ds [Hc [Hd ->]]]].
      apply Promise_all_resolved in Hc, Hd.
      exists cs, ds. split; [reflexivity|]. rewrite Hl. split.
      * eapply Forall2_resolved; [exact HFc | exact Hc |].
        intros x run v Hin [wx [Hlx Hox]] Hs. right. apply in_or_app. left.
        apply (in_run_log creates run _ Hin). rewrite <- Hlx.
        apply createUser_returns_answer. congruence.
      * eapply Forall2_resolved; [exact HFd | exact Hd |].
        intros x run v Hin [wx [Hlx Hox]] Hs. right. apply in_or_app. right.
        apply (in_run_log deletes run _ Hin). rewrite <- Hlx.
        apply deleteUser_returns_answer. congruence.
    + exists (map snd creates), (map snd deletes).
      split; [now apply Forall2_outcomes|]. split; [now apply Forall2_outcomes|].
      intros cs ds Hc Hd. rewrite Ho. apply Promise_all_pair_resolved.
      exists cs, ds. repeat split; now apply Promise_all_resolved.
Qed.


End UpdateResults.

(** ** The Policies service *)

Section PoliciesFacts.

Context {World : Type} (E : Env World).

(** C4, as the code has it. [createPolicy(name, doc)] issues one creation
    request, whose [PolicyName] is [name], whose [PolicyDocument] is [doc]
    as given, without quoting, and whose [Path] is the configured path
    prefix; it resolves with the answer to that request. *)
Theorem createPolicy_request PolicyName PolicyDocument w :
  exists r,
    log_of (Policies.createPolicy E PolicyName PolicyDocument) w
    = [(iam (IAM.createPolicy PolicyName PolicyDocument (USERS_PATH E)), r)] /\
    outcome_of (Policies.createPolicy E PolicyName PolicyDocument) w = r.
Proof.
  unfold log_of, outcome_of, Policies.createPolicy, perform.
  destruct (answer E _ w) as [w1 r]. now exists r.
Qed.

Lemma detachFromAllEntities_run PolicyArn w w1 groups :
  answer E (iam (IAM.listEntitiesForPolicy PolicyArn)) w
  = (w1, Resolved (PolicyGroups groups)) ->
  exists answers,
    List.length answers = List.length groups /\
    log_of (Policies.detachFromAllEntities E PolicyArn) w
    = (iam (IAM.listEntitiesForPolicy PolicyArn), Resolved (PolicyGroups groups))
        :: combine (map (fun group => iam (IAM.detachGroupPolicy
                                             (group_GroupName group) PolicyArn))
                        groups) answers /\
    outcome_of (Policies.detachFromAllEntities E PolicyArn) w = Promise_all answers.
Proof.
  intros H. unfold Policies.detachFromAllEntities, log_of, outcome_of.
  rewrite (bind_perform E _ _ w w1 _ H). simpl.
  unfold log_of, outcome_of. simpl the_PolicyGroups. rewrite bind_ret.
  destruct (mapM_start_perform E
              (fun group => iam (IAM.detachGroupPolicy (group_GroupName group) PolicyArn))
              groups w1) as [answers [Hlen [Hl Ho]]].
  exists answers. split; [exact Hlen|].
  destruct (log_of_bind_resolved _ (fun promises => await (Promise_all promises))
              w1 _ Ho) as [Hl2 [Ho2 _]].
  unfold log_of, outcome_of in Hl2, Ho2. rewrite Hl2, Ho2.
  split; [|reflexivity].
  f_equal. unfold log_of in Hl. rewrite Hl. simpl. apply app_nil_r.
Qed.

(** C6. Once the groups of the policy are listed, [removePolicy] issues one
    detach call per listed group.  If every detach succeeds, [deletePolicy]
    is issued after them and its answer is the result; if some detach fails,
    the result is a rejection with the reasons of the failed detaches and
    [deletePolicy] is not issued at all. *)
Theorem removePolicy_detaches_first PolicyArn w w1 groups :
  answer E (iam (IAM.listEntitiesForPolicy PolicyArn)) w
  = (w1, Resolved (PolicyGroups groups)) ->
  let run := Policies.removePolicy E PolicyArn in
  exists answers,
    List.length answers = List.length groups /\
    let detaches :=
      combine (map (fun group => iam (IAM.detachGroupPolicy
                                        (group_GroupName group) PolicyArn))
                   groups) answers in
    let listing :=
      (iam (IAM.listEntitiesForPolicy PolicyArn), Resolved (PolicyGroups groups)) in
    (forall results,
        answers = map Resolved results ->
        exists r,
          log_of run w
          = (listing :: detaches ++ [(iam (IAM.deletePolicy PolicyArn), r)])%list /\
          outcome_of run w = r) /\
    (forall reasons,
        In (Rejected reasons) answers ->
        log_of run w = listing :: detaches /\
        (forall arn r, ~ In (iam (IAM.deletePolicy arn), r) (log_of run w)) /\
        outcome_of run w = match Promise_all answers with
                           | Rejected all => Rejected all
                           | Resolved _ => Rejected reasons
                           end /\
        is_rejected (outcome_of run w) = true).
Proof.
  intros H. cbv zeta.
  destruct (detachFromAllEntities_run PolicyArn w w1 groups H)
    as [answers [Hlen [Hl Ho]]].
  exists answers. split; [exact Hlen|]. split.
  - intros results Hres.
    assert (outcome_of (Policies.detachFromAllEntities E PolicyArn) w
            = Resolved results) as Ho'.
    { rewrite Ho. now apply Promise_all_resolved. }
    unfold Policies.removePolicy.
    destruct (log_of_bind_resolved _
                (fun _ => perform E (iam (IAM.deletePolicy PolicyArn))) w _ Ho')
      as [Hl2 [Ho2 _]].
    rewrite Hl2, Ho2, Hl. clear Hl2 Ho2.
    unfold log_of, outcome_of, perform.
    destruct (answer E (iam (IAM.deletePolicy PolicyArn)) _) as [w2 r].
    exists r. split; reflexivity.
  - intros reasons Hin.
    assert (is_rejected (Promise_all answers) = true) as Hrej.
    { apply Promise_all_rejected. now exists reasons. }
    destruct (Promise_all answers) as [vs|all] eqn:Hp; [discriminate|].
    unfold Policies.removePolicy.
    destruct (log_of_bind_rejected _
                (fun _ => perform E (iam (IAM.deletePolicy PolicyArn))) w _ Ho)
      as [Hl2 Ho2].
    rewrite Hl2, Ho2, Hl. repeat split.
    intros arn r [Heq|Hd]; [discriminate|].
    apply in_combine_l in Hd. apply in_map_iff in Hd.
    destruct Hd as [group [Heq _]]. discriminate.
Qed.

Lemma first_call_perform c w :
  exists r rest, log_of (perform E c) w = (c, r) :: rest.
Proof.
  unfold log_of, perform. destruct (answer E c w) as [w1 r]. simpl. eauto.
Qed.

Lemma first_call_bind {A B} (m : @M World A) (k : A -> M B) c w :
  (exists r rest, log_of m w = (c, r) :: rest) ->
  exists r rest, log_of (bind m k) w = (c, r) :: rest.
Proof.
  intros [r [rest H]].
  destruct (outcome_of m w) as [a|reasons] eqn:Ho.
  - destruct (log_of_bind_resolved m k w a Ho) as [Hl _].
    rewrite Hl, H. simpl. eauto.
  - destruct (log_of_bind_rejected m k w reasons Ho) as [Hl _].
    rewrite Hl, H. eauto.
Qed.

Lemma removePolicy_lists_first PolicyArn w :
  exists r rest,
    log_of (Policies.removePolicy E PolicyArn) w
    = (iam (IAM.listEntitiesForPolicy PolicyArn), r) :: rest.
Proof.
  unfold Policies.removePolicy, Policies.detachFromAllEntities.
  do 2 apply first_call_bind. apply first_call_perform.
Qed.

Lemma removePolicy_returns_answer PolicyArn :
  returns_answer_of (iam (IAM.deletePolicy PolicyArn))
                    (Policies.removePolicy E PolicyArn).
Proof.
  unfold Policies.removePolicy.
  apply returns_answer_bind. intros _. apply returns_answer_perform.
Qed.

End PoliciesFacts.

Section PoliciesUpdate.

Context {World : Type} (E : Env World).

Lemma policies_update_structure json w w1 live :
  answer E (iam IAM.listPolicies) w = (w1, Resolved (Policies live)) ->
  exists (created : list (result response))
         (removes : list (list event * result response)),
    List.length created = List.length (Policies.policies json) /\
    Forall2 (fun policy run => exists wx,
                 log_of (Policies.removePolicy E (policy_Arn policy)) wx = fst run /\
                 outcome_of (Policies.removePolicy E (policy_Arn policy)) wx = snd run)
            live removes /\
    log_of (Policies.update E json) w
    = ((iam IAM.listPolicies, Resolved (Policies live))
         :: combine (map (creation E) (Policies.policies json)) created
         ++ List.concat (map fst removes))%list /\
    outcome_of (Policies.update E json) w
    = match Promise_all created, Promise_all (map snd removes) with
      | Resolved cs, Resolved ds => Resolved (Policies.mkReport cs ds)
      | Resolved _, Rejected reasons => Rejected reasons
      | Rejected reasons, _ => Rejected reasons
      end.
Proof.
  intros H. unfold Policies.update, log_of, outcome_of.
  rewrite (bind_perform E _ _ w w1 _ H). simpl.
  unfold log_of, outcome_of. simpl the_Policies. rewrite bind_ret.
  unfold Policies.createPolicy.
  destruct (mapM_start_perform E (creation E) (Policies.policies json) w1)
    as [created [Hlen [Hlc Hoc]]].
  unfold creation in Hlc, Hoc.
  match goal with |- context [bind ?m ?k] =>
    destruct (log_of_bind_resolved m k w1 _ Hoc) as [Hl1 [Ho1 _]]
  end.
  unfold log_of, outcome_of in Hl1, Ho1. rewrite Hl1, Ho1. clear Hl1 Ho1.
  set (w2 := world_after _ w1).
  destruct (mapM_start_run (fun policy => Policies.removePolicy E (policy_Arn policy))
              live w2) as [removes [HF [Hlr Hor]]].
  match goal with |- context [bind ?m ?k] =>
    destruct (log_of_bind_resolved m k w2 _ Hor) as [Hl2 [Ho2 _]]
  end.
  unfold log_of, outcome_of in Hl2, Ho2. rewrite Hl2, Ho2. clear Hl2 Ho2.
  exists created, removes.
  split; [exact Hlen|]. split; [exact HF|].
  unfold log_of in Hlc, Hlr. rewrite Hlc, Hlr.
  unfold bind, await, ret.
  destruct (Promise_all created), (Promise_all (map snd removes)); simpl;
    rewrite ?app_nil_r; split; reflexivity.
Qed.

Lemma in_combine_answers {A} (f : A -> call) xs :
  forall (answers : list (result response)) x,
  List.length answers = List.length xs -> In x xs ->
  exists r, In (f x, r) (combine (map f xs) answers).
Proof.
  induction xs as [|y xs IH]; intros answers x Hlen Hin; [destruct Hin|].
  destruct answers as [|r answers]; [discriminate|]. simpl in *.
  destruct Hin as [->|Hin]; [exists r; now left|].
  destruct (IH answers x) as [r' Hr']; [lia | exact Hin | exists r'; now right].
Qed.

Lemma Forall2_combine_resolved {A} (f : A -> call) xs :
  forall vs : list response,
  List.length vs = List.length xs ->
  Forall2 (fun x v => In (f x, Resolved v) (combine (map f xs) (map Resolved vs)))
          xs vs.
Proof.
  induction xs as [|x xs IH]; intros [|v vs] Hlen; try discriminate;
    constructor; simpl.
  - now left.
  - eapply Forall2_impl; [|apply IH; simpl in Hlen; lia].
    intros a b Hab. now right.
Qed.

(** C5. [Policies.update] compares nothing: once the live policies are
    listed, a creation request is issued for every policy of the input, with
    its document JSON-serialised, and the removal of every live policy is
    started; when [update] resolves, [createResult] holds the answers of the
    creation requests in input order and [deleteResult] the answers of the
    [deletePolicy] calls in listing order.  On the test doubles, the input
    [{policies: [{name: 1, document: doc}]}] yields the report of the
    '#update' test. *)
Theorem policies_update_without_diff :
  (forall json w w1 live,
      answer E (iam IAM.listPolicies) w = (w1, Resolved (Policies live)) ->
      let run := Policies.update E json in
      (forall policy, In policy (Policies.policies json) ->
                      exists r, In (creation E policy, r) (log_of run w)) /\
      (forall policy, In policy live ->
                      exists r, In (iam (IAM.listEntitiesForPolicy (policy_Arn policy)), r)
                                   (log_of run w)) /\
      (forall report,
          outcome_of run w = Resolved report ->
          Forall2 (fun policy res =>
                     In (creation E policy, Resolved res) (log_of run w))
                  (Policies.policies json) (Policies.createResult report) /\
          Forall2 (fun policy res =>
                     In (iam (IAM.deletePolicy (policy_Arn policy)), Resolved res)
                        (log_of run w))
                  live (Policies.deleteResult report))) /\
  outcome_of (Policies.update (PoliciesTest.mock (Some ""))
                (Policies.mkInput [Policies.mkEntry "1" (JS.JString "doc")])) tt
  = Resolved
      (Policies.mkReport
         [Data (JS.JObject [("PolicyName", JS.JString "1");
                            ("PolicyDocument",
                             JS.JString (String JS.dquote ("doc" ++ String JS.dquote "")));
                            ("Path", JS.JString "")])]
         [Data (JS.JObject [("PolicyArn", JS.JString "123")]);
          Data (JS.JObject [("PolicyArn", JS.JString "1234")])]).
Proof.
  split; [|reflexivity].
  intros json w w1 live H. cbv zeta.
  destruct (policies_update_structure json w w1 live H)
    as [created [removes [Hlen [HF [Hl Ho]]]]].
  rewrite Hl, Ho. split; [|split].
  - intros policy Hin.
    destruct (in_combine_answers (creation E) _ created policy Hlen Hin) as [r Hr].
    exists r. right. apply in_or_app. now left.
  - intros policy Hin.
    assert (exists run, In run removes /\
              exists wx, log_of (Policies.removePolicy E (policy_Arn policy)) wx
                         = fst run) as [run [Hrun [wx Hlx]]].
    { clear -HF Hin. induction HF as [|y r ys rs [wy [Hy _]] HF IH]; [destruct Hin|].
      destruct Hin as [->|Hin].
      - exists r. split; [now left | eauto].
      - destruct (IH Hin) as [run [Hrun Hex]]. exists run. split; [now right | exact Hex]. }
    destruct (removePolicy_lists_first E (policy_Arn policy) wx) as [r [rest Hfirst]].
    exists r. right. apply in_or_app. right.
    apply (in_run_log removes run _ Hrun). rewrite <- Hlx, Hfirst. now left.
  - intros report Hrep.
    destruct (Promise_all created) as [cs|?] eqn:Hc; [|discriminate].
    destruct (Promise_all (map snd removes)) as [ds|?] eqn:Hd; [|discriminate].
    inversion Hrep; subst report. simpl.
    apply Promise_all_resolved in Hc, Hd. subst created. split.
    + eapply Forall2_impl;
        [|apply (Forall2_combine_resolved (creation E)); now rewrite length_map in Hlen].
      intros policy res Hin. right. apply in_or_app. now left.
    + eapply Forall2_resolved; [exact HF | exact Hd |].
      intros policy run v Hin [wx [Hlx Hox]] Hs. right. apply in_or_app. right.
      apply (in_run_log removes run _ Hin). rewrite <- Hlx.
      apply removePolicy_returns_answer. congruence.
Qed.

End PoliciesUpdate.

(** The claim that [createPolicy] quotes a plain-string document does not
    hold: on the test doubles, with the inputs of the '#createPolicy' test,
    the request carries [doc], not its JSON quotation. *)
Lemma createPolicy_quotes_counterexample :
  ~ (exists r,
        log_of (Policies.createPolicy (PoliciesTest.mock (Some "/path"))
                                      "policyName" "doc") tt
        = [(iam (IAM.createPolicy "policyName"
                                  (JS.JSON_stringify (JS.JString "doc"))
                                  (Some "/path")), r)]).
Proof. intros [r H]. vm_compute in H. discriminate. Qed.

(** The '#createPolicy' test. *)
Example test_createPolicy :
  outcome_of (Policies.createPolicy (PoliciesTest.mock (Some "/path"))
                                    "policyName" "doc") tt
  = Resolved (Data (JS.JObject [("PolicyName", JS.JString "policyName");
                                ("PolicyDocument", JS.JString "doc");
                                ("Path", JS.JString "/path")])).
Proof. reflexivity. Qed.

(** The '#detachFromAllEntities' test. *)
Example test_detachFromAllEntities :
  outcome_of (Policies.detachFromAllEntities (PoliciesTest.mock (Some "")) "ARN") tt
  = Resolved (map (fun group =>
                     Data (JS.JObject [("GroupName", JS.JString (group_GroupName group));
                                       ("PolicyArn", JS.JString "ARN")]))
                  PoliciesTest.groupsWithPolicy).
Proof. reflexivity. Qed.

(** The '#removePolicy' test. *)
Example test_removePolicy :
  outcome_of (Policies.removePolicy (PoliciesTest.mock (Some "")) "ARN") tt
  = Resolved (Data (JS.JObject [("PolicyArn", JS.JString "ARN")])).
Proof. reflexivity. Qed.

(** ** [deleteUser]: what has happened when the user is deleted *)

Module DeleteUserFacts.

Import DeleteUserRun.

Lemma settled_In h p r : settled h p = Some r -> In (Settled p r) h.
Proof.
  induction h as [|e h IH]; simpl; [discriminate|].
  destruct e as [q c|q r'].
  - intros H. right. now apply IH.
  - destruct (Nat.eqb_spec p q) as [->|Hne].
    + intros H. inversion H. now left.
    + intros H. right. now apply IH.
Qed.

Lemma all_resolved_In h ps :
  all_resolved h ps = true ->
  forall p, In p ps -> exists a, In (Settled p (Resolved a)) h.
Proof.
  unfold all_resolved. rewrite forallb_forall. intros H p Hp.
  specialize (H p Hp).
  destruct (settled h p) as [[a|e]|] eqn:Hs; try discriminate.
  exists a. now apply settled_In.
Qed.

Lemma issue_all_spec cs : forall h n h' n' ps,
  issue_all cs h n = (h', n', ps) ->
  exists new,
    h' = (new ++ h)%list /\
    (forall e, In e new -> exists p c, e = Issued p c /\ In c cs) /\
    (forall c, In c cs -> exists p, In p ps /\ In (Issued p c) h').
Proof.
  induction cs as [|c cs IH]; intros h n h' n' ps; simpl.
  - intros H. inversion H; subst. exists []. repeat split; intros ? [].
  - destruct (issue_all cs (Issued n c :: h) (S n)) as [[h1 n1] ps1] eqn:Hi.
    intros H. inversion H; subst. clear H.
    destruct (IH _ _ _ _ _ Hi) as [new [Hh [Hnew Hall]]].
    exists (new ++ [Issued n c])%list. split; [|split].
    + rewrite Hh. now rewrite <- app_assoc.
    + intros e He. apply in_app_or in He. destruct He as [He|[<-|[]]].
      * destruct (Hnew e He) as [p [c' [-> Hc']]]. exists p, c'. split; [reflexivity | now right].
      * exists n, c. split; [reflexivity | now left].
    + intros c' [<-|Hc'].
      * exists n. split; [now left|]. rewrite Hh. apply in_or_app. right. now left.
      * destruct (Hall c' Hc') as [p [Hp Hin]]. exists p. split; [now right | exact Hin].
Qed.

Section Invariant.

Variable UserName : string.

Lemma completed_mono h h' c : incl h h' -> completed h c -> completed h' c.
Proof. intros Hi [p [a [H1 H2]]]. exists p, a. split; now apply Hi. Qed.

Lemma holds_removals_mono h h' gps :
  incl h h' -> holds_removals UserName h gps -> holds_removals UserName h' gps.
Proof.
  intros Hi [p [groups [H1 [H2 H3]]]]. exists p, groups.
  split; [now apply Hi|]. split; [now apply Hi|].
  intros group Hg. destruct (H3 group Hg) as [q [Hq Hin]].
  exists q. split; [exact Hq | now apply Hi].
Qed.

Lemma holds_deletions_mono h h' kps :
  incl h h' -> holds_deletions UserName h kps -> holds_deletions UserName h' kps.
Proof.
  intros Hi [p [items [H1 [H2 H3]]]]. exists p, items.
  split; [now apply Hi|]. split; [now apply Hi|].
  intros item Hg. destruct (H3 item Hg) as [q [Hq Hin]].
  exists q. split; [exact Hq | now apply Hi].
Qed.

Lemma credentials_removed_mono h h' :
  incl h h' -> credentials_removed UserName h -> credentials_removed UserName h'.
Proof.
  intros Hi. unfold credentials_removed.
  destruct (Users.has_keys_suffix UserName).
  - intros [p [items [H1 [H2 H3]]]]. exists p, items.
    split; [now apply Hi|]. split; [now apply Hi|].
    intros item Hitem. eapply completed_mono; [exact Hi | now apply H3].
  - now apply completed_mono.
Qed.

Lemma no_final_settled h p r :
  no_final UserName h -> no_final UserName (Settled p r :: h).
Proof. intros H q [Heq|Hin]; [discriminate | now apply (H q)]. Qed.

Lemma no_final_issued h p c :
  c <> iam (IAM.deleteUser UserName) ->
  no_final UserName h -> no_final UserName (Issued p c :: h).
Proof.
  intros Hc H q [Heq|Hin]; [|now apply (H q)]. inversion Heq. congruence.
Qed.

Lemma no_final_issue_all cs h n h' n' ps :
  (forall c, In c cs -> c <> iam (IAM.deleteUser UserName)) ->
  issue_all cs h n = (h', n', ps) ->
  no_final UserName h -> no_final UserName h'.
Proof.
  intros Hcs Hi Hh q Hin.
  destruct (issue_all_spec cs _ _ _ _ _ Hi) as [new [-> [Hnew _]]].
  apply in_app_or in Hin. destruct Hin as [Hin|Hin]; [|now apply (Hh q)].
  destruct (Hnew _ Hin) as [p [c [Heq Hc]]]. inversion Heq; subst.
  now apply (Hcs _ Hc).
Qed.

Lemma issue_all_incl cs h n h' n' ps :
  issue_all cs h n = (h', n', ps) -> incl h h'.
Proof.
  intros Hi. destruct (issue_all_spec cs _ _ _ _ _ Hi) as [new [-> _]].
  now apply incl_appr.
Qed.

Lemma invariant_begin : invariant UserName (begin UserName).
Proof.
  unfold invariant, begin. simpl. split; [|now left].
  intros p [Heq|[]]. discriminate.
Qed.

Lemma invariant_settle s p r :
  invariant UserName s ->
  invariant UserName (mkState (Settled p r :: past s) (next s) (at_ s)).
Proof.
  unfold invariant. simpl.
  assert (incl (past s) (Settled p r :: past s)) as Hi by now apply incl_tl.
  destruct (at_ s) as [q|gps q|gps kps|gps q|gps|q|reasons].
  - intros [H1 H2]. split; [now apply no_final_settled | now right].
  - intros [H1 [H2 [H3 H4]]].
    split; [now apply no_final_settled|].
    split; [now apply (holds_removals_mono (past s))|].
    split; [exact H3 | now right].
  - intros [H1 [H2 [H3 H4]]].
    split; [now apply no_final_settled|].
    split; [now apply (holds_removals_mono (past s))|].
    split; [exact H3 | now apply (holds_deletions_mono (past s))].
  - intros [H1 [H2 [H3 H4]]].
    split; [now apply no_final_settled|].
    split; [now apply (holds_removals_mono (past s))|].
    split; [exact H3 | now right].
  - intros [H1 [H2 H3]].
    split; [now apply no_final_settled|].
    split; [now apply (holds_removals_mono (past s))|].
    now apply (credentials_removed_mono (past s)).
  - intros [after [before [Hh [H1 [H2 [H3 H4]]]]]].
    exists (Settled p r :: after), before. rewrite Hh.
    split; [reflexivity|]. split; [now apply no_final_settled|].
    split; [exact H2|]. split; [exact H3 | exact H4].
  - now apply no_final_settled.
Qed.

Lemma removal_not_final (groups : list Group) c :
  In c (map (fun group => groups_removeUserFromGroup UserName (group_GroupName group))
            groups) ->
  c <> iam (IAM.deleteUser UserName).
Proof. intros Hin. apply in_map_iff in Hin. destruct Hin as [g [<- _]]. discriminate. Qed.

Lemma deletion_not_final (items : list AccessKey) c :
  In c (map (fun item => iam (IAM.deleteAccessKey (key_AccessKeyId item) UserName))
            items) ->
  c <> iam (IAM.deleteUser UserName).
Proof. intros Hin. apply in_map_iff in Hin. destruct Hin as [g [<- _]]. discriminate. Qed.

Lemma invariant_advance s :
  invariant UserName s -> invariant UserName (advance UserName s).
Proof.
  destruct s as [h n pt]. unfold invariant, advance. simpl.
  destruct pt as [p|gps p|gps kps|gps p|gps|p|reasons]; simpl.
  - (* the groups are listed *)
    intros [H1 H2].
    destruct (settled h p) as [[data|reasons]|] eqn:Hs; simpl;
      [|exact H1|now split].
    destruct data as [body|l|groups|l|l|l]; simpl; try exact H1.
    destruct (issue_all _ h n) as [[h1 n1] gps] eqn:Hi.
    assert (no_final UserName h1) as Hn1.
    { eapply no_final_issue_all; [apply removal_not_final | exact Hi | exact H1]. }
    assert (incl h h1) as Hincl by (eapply issue_all_incl; exact Hi).
    assert (forall c, holds_removals UserName (Issued n1 c :: h1) gps) as Hheld.
    { intros c. exists p, groups.
      split; [right; now apply Hincl|].
      split; [right; apply Hincl; now apply settled_In|].
      intros group Hg.
      destruct (issue_all_spec _ _ _ _ _ _ Hi) as [new [_ [_ Hall]]].
      destruct (Hall (groups_removeUserFromGroup UserName (group_GroupName group)))
        as [q [Hq Hin]].
      { apply in_map_iff. now exists group. }
      exists q. split; [exact Hq | now right]. }
    destruct (Users.has_keys_suffix UserName) eqn:Hk; simpl.
    + split; [apply no_final_issued; [discriminate | exact Hn1]|].
      split; [apply Hheld|]. split; [reflexivity | now left].
    + split; [apply no_final_issued; [discriminate | exact Hn1]|].
      split; [apply Hheld|]. split; [reflexivity | now left].
  - (* the keys are listed *)
    intros [H1 [H2 [H3 H4]]].
    destruct (settled h p) as [[data|reasons]|] eqn:Hs; simpl;
      [|exact H1|now repeat split].
    destruct data as [body|l|l|items|l|l]; simpl; try exact H1.
    destruct (issue_all _ h n) as [[h1 n1] kps] eqn:Hi. simpl.
    assert (incl h h1) as Hincl by (eapply issue_all_incl; exact Hi).
    split; [eapply no_final_issue_all; [apply deletion_not_final | exact Hi | exact H1]|].
    split; [now apply (holds_removals_mono h)|]. split; [exact H3|].
    exists p, items. split; [now apply Hincl|].
    split; [apply Hincl; now apply settled_In|].
    intros item Hitem.
    destruct (issue_all_spec _ _ _ _ _ _ Hi) as [new [_ [_ Hall]]].
    apply (Hall (iam (IAM.deleteAccessKey (key_AccessKeyId item) UserName))).
    apply in_map_iff. now exists item.
  - (* the keys are deleted *)
    intros [H1 [H2 [H3 H4]]].
    destruct (first_rejection h kps) as [reasons|]; simpl; [exact H1|].
    destruct (all_resolved h kps) eqn:Ha; simpl; [|now repeat split].
    split; [exact H1|]. split; [exact H2|].
    unfold credentials_removed. rewrite H3.
    destruct H4 as [p [items [Hp [Hs Hitems]]]]. exists p, items.
    split; [exact Hp|]. split; [exact Hs|].
    intros item Hitem. destruct (Hitems item Hitem) as [q [Hq Hin]].
    destruct (all_resolved_In h kps Ha q Hq) as [a Hset].
    now exists q, a.
  - (* the login profile is deleted *)
    intros [H1 [H2 [H3 H4]]].
    destruct (settled h p) as [[data|reasons]|] eqn:Hs; simpl;
      [|exact H1|now repeat split].
    split; [exact H1|]. split; [exact H2|].
    unfold credentials_removed. rewrite H3.
    exists p, data. split; [exact H4 | now apply settled_In].
  - (* the group removals are done *)
    intros [H1 [H2 H3]].
    destruct (first_rejection h gps) as [reasons|]; simpl; [exact H1|].
    destruct (all_resolved h gps) eqn:Ha; simpl; [|now repeat split].
    exists [], h. split; [reflexivity|]. split; [intros q []|].
    split; [exact H1|]. split; [|exact H3].
    destruct H2 as [p [groups [Hp [Hs Hgroups]]]]. exists p, groups.
    split; [exact Hp|]. split; [exact Hs|].
    intros group Hg. destruct (Hgroups group Hg) as [q [Hq Hin]].
    destruct (all_resolved_In h gps Ha q Hq) as [a Hset].
    now exists q, a.
  - tauto.
  - tauto.
Qed.

Lemma invariant_react s :
  invariant UserName s -> invariant UserName (react UserName s).
Proof. intros H. unfold react. now do 3 apply invariant_advance. Qed.

Lemma invariant_run schedule : forall s s',
  invariant UserName s -> run UserName schedule s = Some s' ->
  invariant UserName s'.
Proof.
  induction schedule as [|[p r] schedule IH]; intros s s' Hinv; simpl.
  - intros H. inversion H. now subst.
  - destruct (pending (past s) p); [|discriminate].
    apply IH. apply invariant_react. now apply invariant_settle.
Qed.

(** The call that deletes the user occurs at most once in a history. *)
Lemma final_unique (after after' before before' : history) p p' :
  no_final UserName after' -> no_final UserName before' ->
  (after ++ Issued p (iam (IAM.deleteUser UserName)) :: before
   = after' ++ Issued p' (iam (IAM.deleteUser UserName)) :: before')%list ->
  before = before'.
Proof.
  revert after'. induction after as [|e after IH]; intros [|e' after'] Ha Hb; simpl.
  - intros H. now inversion H.
  - intros H. inversion H; subst. exfalso. apply (Ha p). now left.
  - intros H. inversion H; subst. exfalso. apply (Hb p).
    apply in_or_app. right. now left.
  - intros H. inversion H; subst. apply (IH after'); [|exact Hb|assumption].
    intros q Hq. apply (Ha q). now right.
Qed.

End Invariant.

(** *** The method never rests while it could move on *)

Section Quiescence.

Variable UserName : string.

Lemma issue_all_numbered cs : forall h n h' n' ps,
  (forall e, In e h -> promise_of e < n) ->
  issue_all cs h n = (h', n', ps) ->
  n <= n' /\ (forall e, In e h' -> promise_of e < n').
Proof.
  induction cs as [|c cs IH]; intros h n h' n' ps Hh; simpl.
  - intros H. inversion H; subst. split; [lia | exact Hh].
  - destruct (issue_all cs (Issued n c :: h) (S n)) as [[h1 n1] ps1] eqn:Hi.
    intros H. inversion H; subst. clear H.
    assert (forall e, In e (Issued n c :: h) -> promise_of e < S n) as Hh'.
    { intros e [<-|He]; simpl; [lia|]. specialize (Hh e He). lia. }
    destruct (IH _ _ _ _ _ Hh' Hi) as [Hle Hall].
    split; [lia | exact Hall].
Qed.

Lemma settled_fresh h n p :
  (forall e, In e h -> promise_of e < n) -> n <= p -> settled h p = None.
Proof.
  induction h as [|e h IH]; intros Hh Hp; simpl; [reflexivity|].
  destruct e as [q c|q r].
  - apply IH; [|exact Hp]. intros e He. apply Hh. now right.
  - destruct (Nat.eqb_spec p q) as [->|Hne].
    + specialize (Hh (Settled q r) (or_introl eq_refl)). simpl in Hh. lia.
    + apply IH; [|exact Hp]. intros e He. apply Hh. now right.
Qed.

Lemma issued_In h p : issued h p = true -> exists c, In (Issued p c) h.
Proof.
  unfold issued. rewrite existsb_exists. intros [[q c|q r] [Hin Heq]];
    [|discriminate].
  apply Nat.eqb_eq in Heq. subst. now exists c.
Qed.

Lemma well_numbered_begin : well_numbered (begin UserName).
Proof. intros e [<-|[]]. simpl. lia. Qed.

Lemma well_numbered_advance s : well_numbered s -> well_numbered (advance UserName s).
Proof.
  destruct s as [h n pt]. unfold well_numbered, DeleteUserRun.advance. simpl.
  intros Hh.
  destruct pt as [p|gps p|gps kps|gps p|gps|p|reasons]; simpl.
  - destruct (settled h p) as [[data|reasons]|]; simpl; try exact Hh.
    destruct data; simpl; try exact Hh.
    destruct (issue_all _ h n) as [[h1 n1] gps] eqn:Hi.
    destruct (issue_all_numbered _ _ _ _ _ _ Hh Hi) as [Hle Hall].
    destruct (Users.has_keys_suffix UserName); simpl;
      intros e [<-|He]; simpl; try lia; specialize (Hall e He); lia.
  - destruct (settled h p) as [[data|reasons]|]; simpl; try exact Hh.
    destruct data; simpl; try exact Hh.
    destruct (issue_all _ h n) as [[h1 n1] kps] eqn:Hi.
    destruct (issue_all_numbered _ _ _ _ _ _ Hh Hi) as [Hle Hall].
    simpl. exact Hall.
  - destruct (first_rejection h kps); simpl; [exact Hh|].
    destruct (all_resolved h kps); simpl; exact Hh.
  - destruct (settled h p) as [[data|reasons]|]; simpl; exact Hh.
  - destruct (first_rejection h gps); simpl; [exact Hh|].
    destruct (all_resolved h gps); simpl; [|exact Hh].
    intros e [<-|He]; simpl; [lia|]. specialize (Hh e He). lia.
  - exact Hh.
  - exact Hh.
Qed.

Lemma well_numbered_run schedule : forall s s',
  well_numbered s -> run UserName schedule s = Some s' -> well_numbered s'.
Proof.
  induction schedule as [|[p r] schedule IH]; intros s s' Hs; simpl.
  - intros H. inversion H. now subst.
  - unfold pending. destruct (issued (past s) p) eqn:Hi; [|discriminate].
    destruct (settled (past s) p); [discriminate|]. simpl.
    apply IH. unfold react. do 3 apply well_numbered_advance.
    intros e [<-|He]; simpl; [|now apply Hs].
    destruct (issued_In _ _ Hi) as [c Hc]. exact (Hs _ Hc).
Qed.

(** From each [await], how far the method can go without waiting. *)
Ltac one_move s1 E :=
  match goal with
  | |- context [advance ?u (mkState ?h ?n ?pt)] =>
      remember (advance u (mkState h n pt)) as s1 eqn:E;
      unfold advance in E; simpl in E
  end.

Lemma rest_after_removals s gps :
  at_ s = AwaitGroupRemovals gps ->
  advance UserName (advance UserName s) = advance UserName s.
Proof.
  destruct s as [h n pt]. simpl. intros ->. one_move s1 E.
  destruct (first_rejection h gps) eqn:Hf; [now subst s1|].
  destruct (all_resolved h gps) eqn:Ha; [now subst s1|].
  subst s1. unfold advance. simpl. now rewrite Hf, Ha.
Qed.

Lemma rest_after_login_profile s gps p :
  at_ s = AwaitDeleteLoginProfile gps p ->
  advance UserName (advance UserName (advance UserName s))
  = advance UserName (advance UserName s).
Proof.
  destruct s as [h n pt]. simpl. intros ->. one_move s1 E.
  destruct (settled h p) as [[data|reasons]|] eqn:Hs.
  - subst s1. now apply (rest_after_removals _ gps).
  - now subst s1.
  - subst s1.
    assert (advance UserName (mkState h n (AwaitDeleteLoginProfile gps p))
            = mkState h n (AwaitDeleteLoginProfile gps p)) as Hstay
      by (unfold advance; simpl; now rewrite Hs).
    now rewrite !Hstay.
Qed.

Lemma rest_after_deletions s gps kps :
  at_ s = AwaitDeleteAccessKeys gps kps ->
  advance UserName (advance UserName (advance UserName s))
  = advance UserName (advance UserName s).
Proof.
  destruct s as [h n pt]. simpl. intros ->. one_move s1 E.
  destruct (first_rejection h kps) eqn:Hf; [now subst s1|].
  destruct (all_resolved h kps) eqn:Ha.
  - subst s1. now apply (rest_after_removals _ gps).
  - subst s1.
    assert (advance UserName (mkState h n (AwaitDeleteAccessKeys gps kps))
            = mkState h n (AwaitDeleteAccessKeys gps kps)) as Hstay
      by (unfold advance; simpl; now rewrite Hf, Ha).
    now rewrite !Hstay.
Qed.

Lemma rest_after_key_listing s gps p :
  at_ s = AwaitListAccessKeys gps p ->
  advance UserName (advance UserName (advance UserName (advance UserName s)))
  = advance UserName (advance UserName (advance UserName s)).
Proof.
  destruct s as [h n pt]. simpl. intros ->. one_move s1 E.
  destruct (settled h p) as [[data|reasons]|] eqn:Hs.
  - destruct data; try now subst s1.
    destruct (issue_all _ h n) as [[h1 n1] kps] eqn:Hi.
    subst s1. now apply (rest_after_deletions _ gps kps).
  - now subst s1.
  - subst s1.
    assert (advance UserName (mkState h n (AwaitListAccessKeys gps p))
            = mkState h n (AwaitListAccessKeys gps p)) as Hstay
      by (unfold advance; simpl; now rewrite Hs).
    now rewrite !Hstay.
Qed.

Lemma rest_after_group_listing s p :
  well_numbered s -> at_ s = AwaitListGroups p ->
  advance UserName (advance UserName s) = advance UserName s.
Proof.
  destruct s as [h n pt]. unfold well_numbered. simpl. intros Hh ->.
  one_move s1 E.
  destruct (settled h p) as [[data|reasons]|] eqn:Hs.
  - destruct data; try now subst s1.
    destruct (issue_all _ h n) as [[h1 n1] gps] eqn:Hi.
    destruct (issue_all_numbered _ _ _ _ _ _ Hh Hi) as [Hle Hall].
    destruct (Users.has_keys_suffix UserName); subst s1;
      unfold advance; simpl;
      now rewrite (settled_fresh h1 n1 n1 Hall (le_n n1)).
  - now subst s1.
  - subst s1. unfold advance. simpl. now rewrite Hs.
Qed.

(** [react] goes as far as the method can go. *)
Lemma react_rests s :
  well_numbered s -> advance UserName (react UserName s) = react UserName s.
Proof.
  intros Hs. unfold react.
  destruct (at_ s) as [p|gps p|gps kps|gps p|gps|p|reasons] eqn:Hat.
  - rewrite (rest_after_group_listing s p Hs Hat).
    rewrite (rest_after_group_listing s p Hs Hat).
    now rewrite (rest_after_group_listing s p Hs Hat).
  - now apply (rest_after_key_listing s gps p).
  - rewrite (rest_after_deletions s gps kps Hat).
    now apply (rest_after_deletions s gps kps).
  - rewrite (rest_after_login_profile s gps p Hat).
    now apply (rest_after_login_profile s gps p).
  - rewrite (rest_after_removals s gps Hat).
    rewrite (rest_after_removals s gps Hat).
    now rewrite (rest_after_removals s gps Hat).
  - destruct s as [h n pt]. simpl in Hat. subst pt. reflexivity.
  - destruct s as [h n pt]. simpl in Hat. subst pt. reflexivity.
Qed.

(** In every state a run reaches, the method is waiting for a promise that
    has not settled, or it has finished. *)
Lemma run_rests schedule : forall s s',
  well_numbered s -> advance UserName s = s ->
  run UserName schedule s = Some s' -> advance UserName s' = s'.
Proof.
  induction schedule as [|[p r] schedule IH]; intros s s' Hs Hrest; simpl.
  - intros H. inversion H. now subst.
  - unfold pending. destruct (issued (past s) p) eqn:Hi; [|discriminate].
    destruct (settled (past s) p); [discriminate|]. simpl.
    assert (well_numbered (mkState (Settled p r :: past s) (next s) (at_ s))) as Hw.
    { intros e [<-|He]; simpl; [|now apply Hs].
      destruct (issued_In _ _ Hi) as [c Hc]. exact (Hs _ Hc). }
    apply IH.
    + unfold react. now do 3 apply well_numbered_advance.
    + now apply react_rests.
Qed.

Corollary deleteUser_rests schedule s :
  run UserName schedule (begin UserName) = Some s -> advance UserName s = s.
Proof.
  apply run_rests; [apply well_numbered_begin | reflexivity].
Qed.

End Quiescence.

(** *** The method finishes once nothing is pending *)

Section Progress.

Variable UserName : string.

Lemma issued_cons h e p : issued h p = true -> issued (e :: h) p = true.
Proof. unfold issued. simpl. intros ->. apply orb_true_r. Qed.

Lemma issued_incl h h' p : incl h h' -> issued h p = true -> issued h' p = true.
Proof.
  unfold issued. rewrite !existsb_exists. intros Hi [e [He Hp]].
  exists e. split; [now apply Hi | exact Hp].
Qed.

Lemma issue_all_issued cs : forall h n h' n' ps,
  issue_all cs h n = (h', n', ps) -> forall p, In p ps -> issued h' p = true.
Proof.
  induction cs as [|c cs IH]; intros h n h' n' ps; simpl.
  - intros H. inversion H; subst. intros p [].
  - destruct (issue_all cs (Issued n c :: h) (S n)) as [[h1 n1] ps1] eqn:Hi.
    intros H. inversion H; subst. clear H. intros p [<-|Hp].
    + apply (issued_incl (Issued n c :: h)).
      * eapply issue_all_incl. exact Hi.
      * unfold issued. simpl. now rewrite Nat.eqb_refl.
    + eapply IH; eassumption.
Qed.

Lemma holds_issued_begin : holds_issued (begin UserName).
Proof. intros p [<-|[]]. reflexivity. Qed.

Lemma holds_issued_advance s : holds_issued s -> holds_issued (advance UserName s).
Proof.
  destruct s as [h n pt]. unfold holds_issued, advance. simpl.
  destruct pt as [p|gps p|gps kps|gps p|gps|p|reasons]; simpl; intros Hh.
  - destruct (settled h p) as [[data|reasons]|]; simpl; try exact Hh;
      try (intros q []).
    destruct data; simpl; try (intros q []).
    destruct (issue_all _ h n) as [[h1 n1] gps] eqn:Hi.
    destruct (Users.has_keys_suffix UserName); simpl; intros q [<-|Hq];
      try (now rewrite Nat.eqb_refl);
      rewrite (issue_all_issued _ _ _ _ _ _ Hi q Hq); apply orb_true_r.
  - destruct (settled h p) as [[data|reasons]|]; simpl; try exact Hh;
      try (intros q []).
    destruct data; simpl; try (intros q []).
    destruct (issue_all _ h n) as [[h1 n1] kps] eqn:Hi. simpl.
    intros q Hq. apply in_app_or in Hq. destruct Hq as [Hq|Hq].
    + eapply issue_all_issued; eassumption.
    + eapply issued_incl; [eapply issue_all_incl; exact Hi|].
      apply Hh. now right.
  - destruct (first_rejection h kps); simpl; [intros q []|].
    destruct (all_resolved h kps); simpl; [|exact Hh].
    intros q Hq. apply Hh. apply in_or_app. now right.
  - destruct (settled h p) as [[data|reasons]|]; simpl; try exact Hh;
      try (intros q []).
    intros q Hq. apply Hh. now right.
  - destruct (first_rejection h gps); simpl; [intros q []|].
    destruct (all_resolved h gps); simpl; [|exact Hh].
    intros q [<-|[]]. unfold issued. simpl. now rewrite Nat.eqb_refl.
  - exact Hh.
  - exact Hh.
Qed.

Lemma holds_issued_run schedule : forall s s',
  holds_issued s -> run UserName schedule s = Some s' -> holds_issued s'.
Proof.
  induction schedule as [|[p r] schedule IH]; intros s s' Hs; simpl.
  - intros H. inversion H. now subst.
  - destruct (pending (past s) p); [|discriminate].
    apply IH. unfold react. do 3 apply holds_issued_advance.
    intros q Hq. apply issued_cons. now apply Hs.
Qed.

Lemma rejection_found h ps : forall p reasons,
  settled h p = Some (Rejected reasons) -> In p ps ->
  first_rejection h ps <> None.
Proof.
  induction ps as [|q ps IH]; intros p reasons Hs Hp; [destruct Hp|].
  simpl. destruct Hp as [->|Hp].
  - rewrite Hs. discriminate.
  - destruct (settled h q) as [[a|e]|]; try discriminate; now apply (IH p reasons).
Qed.

Lemma all_settled_resolved h ps :
  (forall p, In p ps -> exists r, settled h p = Some r) ->
  first_rejection h ps = None -> all_resolved h ps = true.
Proof.
  intros Hset Hf. unfold all_resolved. apply forallb_forall. intros p Hp.
  destruct (Hset p Hp) as [[a|reasons] Hr]; rewrite Hr; [reflexivity|].
  exfalso. apply (rejection_found h ps p reasons); [exact Hr | exact Hp | exact Hf].
Qed.

Lemma settled_when_not_pending h p :
  issued h p = true -> pending h p = false -> exists r, settled h p = Some r.
Proof.
  unfold pending. intros ->. simpl.
  destruct (settled h p) as [r|]; [now exists r | discriminate].
Qed.

(** Once every call that was issued has settled, [deleteUser] has thrown or
    has returned the settled promise of [iam.deleteUser]. *)
Lemma deleteUser_finishes schedule s :
  run UserName schedule (begin UserName) = Some s ->
  (forall p, pending (past s) p = false) ->
  exists r, outcome s = Some r.
Proof.
  intros Hrun Hnone.
  pose proof (deleteUser_rests UserName schedule s Hrun) as Hrest.
  pose proof (holds_issued_run schedule _ _ holds_issued_begin Hrun) as Hheld.
  assert (forall p, In p (promises_held (at_ s)) ->
                    exists r, settled (past s) p = Some r) as Hset.
  { intros p Hp. apply settled_when_not_pending; [now apply Hheld | apply Hnone]. }
  clear Hrun Hnone Hheld.
  destruct s as [h n pt]. unfold outcome. simpl in *.
  assert (forall s', advance UserName (mkState h n pt) = s' -> at_ s' = pt) as Hat.
  { intros s' <-. now rewrite Hrest. }
  destruct pt as [p|gps p|gps kps|gps p|gps|p|reasons]; simpl in *.
  - exfalso. destruct (Hset p (or_introl eq_refl)) as [r Hr].
    specialize (Hat _ eq_refl). unfold advance in Hat. simpl in Hat.
    rewrite Hr in Hat. destruct r as [data|reasons]; [|discriminate].
    destruct data; try discriminate.
    destruct (issue_all _ h n) as [[h1 n1] gps].
    destruct (Users.has_keys_suffix UserName); discriminate.
  - exfalso. destruct (Hset p (or_introl eq_refl)) as [r Hr].
    specialize (Hat _ eq_refl). unfold advance in Hat. simpl in Hat.
    rewrite Hr in Hat. destruct r as [data|reasons]; [|discriminate].
    destruct data; try discriminate.
    destruct (issue_all _ h n) as [[h1 n1] kps']. discriminate.
  - exfalso. specialize (Hat _ eq_refl). unfold advance in Hat. simpl in Hat.
    destruct (first_rejection h kps) eqn:Hf; [discriminate|].
    rewrite (all_settled_resolved h kps) in Hat; [discriminate| |exact Hf].
    intros q Hq. apply Hset. apply in_or_app. now left.
  - exfalso. destruct (Hset p (or_introl eq_refl)) as [r Hr].
    specialize (Hat _ eq_refl). unfold advance in Hat. simpl in Hat.
    rewrite Hr in Hat. destruct r; discriminate.
  - exfalso. specialize (Hat _ eq_refl). unfold advance in Hat. simpl in Hat.
    destruct (first_rejection h gps) eqn:Hf; [discriminate|].
    rewrite (all_settled_resolved h gps) in Hat; [discriminate|exact Hset|exact Hf].
  - apply Hset. now left.
  - now exists (Rejected reasons).
Qed.

End Progress.

End DeleteUserFacts.

(** C3. Whatever the order in which the world settles the pending calls,
    at the moment [iam.deleteUser] is issued the groups of the user have
    been listed and the removal from each of them has completed, and the
    credentials have been removed: every listed access key of a [_keys]
    user, the login profile of any other.  Between the group removals and
    the removal of the credentials there is no order: for [carol], in the
    group [devs], the removal from the group may settle before the deletion
    of the login profile or after it, and the user is deleted in both
    cases. *)
Theorem deleteUser_deletes_last :
  (forall UserName schedule s,
      DeleteUserRun.run UserName schedule (DeleteUserRun.begin UserName) = Some s ->
      forall after p before,
        DeleteUserRun.past s
        = (after ++ DeleteUserRun.Issued p (iam (IAM.deleteUser UserName))
                 :: before)%list ->
        DeleteUserRun.groups_removed UserName before /\
        DeleteUserRun.credentials_removed UserName before) /\
  (exists s,
      DeleteUserRun.run "carol" DeleteUserRun.removal_first
                        (DeleteUserRun.begin "carol") = Some s /\
      DeleteUserRun.carol_is_deleted s /\
      DeleteUserRun.earlier (DeleteUserRun.past s)
        (DeleteUserRun.Settled 1 (Resolved (Data JS.JNull)))
        (DeleteUserRun.Settled 2 (Resolved (Data JS.JNull)))) /\
  (exists s,
      DeleteUserRun.run "carol" DeleteUserRun.credentials_first
                        (DeleteUserRun.begin "carol") = Some s /\
      DeleteUserRun.carol_is_deleted s /\
      DeleteUserRun.earlier (DeleteUserRun.past s)
        (DeleteUserRun.Settled 2 (Resolved (Data JS.JNull)))
        (DeleteUserRun.Settled 1 (Resolved (Data JS.JNull)))).
Proof.
  split; [|split].
  - intros UserName schedule s Hrun after p before Hpast.
    pose proof (DeleteUserFacts.invariant_run UserName schedule _ _
                  (DeleteUserFacts.invariant_begin UserName) Hrun) as Hinv.
    unfold DeleteUserRun.invariant in Hinv.
    assert (In (DeleteUserRun.Issued p (iam (IAM.deleteUser UserName)))
               (DeleteUserRun.past s)) as Hin.
    { rewrite Hpast. apply in_or_app. right. now left. }
    destruct (DeleteUserRun.at_ s) as [q|gps q|gps kps|gps q|gps|q|reasons];
      try (exfalso; apply (proj1 Hinv p); exact Hin).
    + destruct Hinv as [after' [before' [Hh [Ha [Hb [Hg Hc]]]]]].
      rewrite Hpast in Hh.
      rewrite (DeleteUserFacts.final_unique UserName _ _ _ _ _ _ Ha Hb Hh).
      now split.
    + exfalso. apply (Hinv p). exact Hin.
  - exists (DeleteUserRun.mkState
              (DeleteUserRun.Issued 3 (iam (IAM.deleteUser "carol"))
               :: DeleteUserRun.Settled 2 (Resolved (Data JS.JNull))
               :: DeleteUserRun.Settled 1 (Resolved (Data JS.JNull))
               :: DeleteUserRun.carol_calls_in_flight)
              4 (DeleteUserRun.Returned 3)).
    split; [vm_compute; reflexivity|].
    split; [unfold DeleteUserRun.carol_is_deleted; simpl; tauto|].
    exists [DeleteUserRun.Issued 3 (iam (IAM.deleteUser "carol"))], [].
    eexists. reflexivity.
  - exists (DeleteUserRun.mkState
              (DeleteUserRun.Issued 3 (iam (IAM.deleteUser "carol"))
               :: DeleteUserRun.Settled 1 (Resolved (Data JS.JNull))
               :: DeleteUserRun.Settled 2 (Resolved (Data JS.JNull))
               :: DeleteUserRun.carol_calls_in_flight)
              4 (DeleteUserRun.Returned 3)).
    split; [vm_compute; reflexivity|].
    split; [unfold DeleteUserRun.carol_is_deleted; simpl; tauto|].
    exists [DeleteUserRun.Issued 3 (iam (IAM.deleteUser "carol"))], [].
    eexists. reflexivity.
Qed.

Lemma deleteUser_deletes_last_witness :
  DeleteUserRun.run "bob_keys" DeleteUserRun.keys_schedule
                    (DeleteUserRun.begin "bob_keys")
  = Some (DeleteUserRun.mkState
            (DeleteUserRun.Issued 5 (iam (IAM.deleteUser "bob_keys"))
             :: DeleteUserRun.calls_settled_before_bob_keys_is_deleted)
            6 (DeleteUserRun.Returned 5)) /\
  DeleteUserRun.groups_removed
    "bob_keys" DeleteUserRun.calls_settled_before_bob_keys_is_deleted /\
  DeleteUserRun.credentials_removed
    "bob_keys" DeleteUserRun.calls_settled_before_bob_keys_is_deleted.
Proof.
  split; [vm_compute; reflexivity|].
  apply (proj1 deleteUser_deletes_last "bob_keys" DeleteUserRun.keys_schedule
           (DeleteUserRun.mkState
              (DeleteUserRun.Issued 5 (iam (IAM.deleteUser "bob_keys"))
               :: DeleteUserRun.calls_settled_before_bob_keys_is_deleted)
              6 (DeleteUserRun.Returned 5))
           ltac:(vm_compute; reflexivity) [] 5
           DeleteUserRun.calls_settled_before_bob_keys_is_deleted).
  reflexivity.
Defined.

(** The two views of [deleteUser] agree on the demo account: the same calls
    in the same order of issue, and the same result. *)
Example deleteUser_views_agree :
  (exists s,
      DeleteUserRun.run "bob_keys"
        (DeleteUserRun.keys_schedule ++ [(5, Resolved (Data JS.JNull))])
        (DeleteUserRun.begin "bob_keys") = Some s /\
      DeleteUserRun.calls_issued (DeleteUserRun.past s)
      = map fst (log_of (Users.deleteUser UsersDemo.account "bob_keys") tt) /\
      DeleteUserRun.outcome s
      = Some (outcome_of (Users.deleteUser UsersDemo.account "bob_keys") tt)) /\
  (exists s,
      DeleteUserRun.run "carol"
        (DeleteUserRun.credentials_first ++ [(3, Resolved (Data JS.JNull))])
        (DeleteUserRun.begin "carol") = Some s /\
      DeleteUserRun.calls_issued (DeleteUserRun.past s)
      = map fst (log_of (Users.deleteUser UsersDemo.account "carol") tt) /\
      DeleteUserRun.outcome s
      = Some (outcome_of (Users.deleteUser UsersDemo.account "carol") tt)).
Proof. split; eexists; (split; [vm_compute; reflexivity|]); split; reflexivity. Qed.


(** Both group removals of [carol] fail, the second one first, before her
    login profile is deleted: [Promise.all] at line 135 then finds the first
    removal of the array rejected. *)
Example deleteUser_reports_the_first_removal_of_the_array :
  option_map DeleteUserRun.at_
    (DeleteUserRun.run "carol"
       [(0, Resolved (Groups [mkGroup "devs"; mkGroup "ops"]));
        (2, Rejected ["Throttling"]);
        (1, Rejected ["NoSuchEntity"]);
        (3, Resolved (Data JS.JNull))]
       (DeleteUserRun.begin "carol"))
  = Some (DeleteUserRun.Threw ["NoSuchEntity"]).
Proof. reflexivity. Qed.

(** A failed group removal is noticed only after the credentials are gone,
    and the user is then not deleted. *)
Example deleteUser_stops_on_failed_removal :
  option_map DeleteUserRun.at_
    (DeleteUserRun.run "carol"
       [(0, Resolved (Groups [mkGroup "devs"]));
        (1, Rejected ["NoSuchEntity"]);
        (2, Resolved (Data JS.JNull))]
       (DeleteUserRun.begin "carol"))
  = Some (DeleteUserRun.Threw ["NoSuchEntity"]).
Proof. reflexivity. Qed.

(** ** The theorems at work on the demo account and on the test doubles *)

Lemma createUser_credentials_witness :
  Users.has_keys_suffix "svc_keys" = true /\
  answer UsersDemo.account
         (iam (IAM.createUser "svc_keys" (USERS_PATH UsersDemo.account))) tt
  = (tt, Resolved (Data (JS.JString "svc_keys"))) /\
  exists r,
    In (iam (IAM.createAccessKey "svc_keys"), r)
       (log_of (Users.createUser UsersDemo.account "svc_keys" "prod") tt).
Proof.
  split; [reflexivity|]. split; [reflexivity|].
  exact (proj2 (proj1 (proj2 (createUser_credentials
                                UsersDemo.account "svc_keys" "prod" tt))
                      eq_refl)
               tt (Data (JS.JString "svc_keys")) eq_refl).
Defined.

Lemma createUser_returns_witness :
  outcome_of (Users.createUser UsersDemo.account "alice" "prod") tt
  = Resolved (Data (JS.JString "alice")) /\
  exists w1,
    answer UsersDemo.account
           (iam (IAM.createUser "alice" (USERS_PATH UsersDemo.account))) tt
    = (w1, Resolved (Data (JS.JString "alice"))).
Proof.
  split; [reflexivity|].
  exact (proj1 (createUser_returns UsersDemo.account "alice" "prod" tt)
               (Data (JS.JString "alice")) eq_refl).
Defined.

Lemma deleteAccessKeys_one_call_per_key_witness :
  answer UsersDemo.account (iam (IAM.listAccessKeys "bob_keys")) tt
  = (tt, Resolved (AccessKeyMetadata [mkAccessKey "AKIA1"; mkAccessKey "AKIA2"])) /\
  exists answers,
    List.length answers = 2 /\
    log_of (Users.deleteAccessKeys UsersDemo.account "bob_keys") tt
    = (iam (IAM.listAccessKeys "bob_keys"),
       Resolved (AccessKeyMetadata [mkAccessKey "AKIA1"; mkAccessKey "AKIA2"]))
        :: combine [iam (IAM.deleteAccessKey "AKIA1" "bob_keys");
                    iam (IAM.deleteAccessKey "AKIA2" "bob_keys")] answers /\
    outcome_of (Users.deleteAccessKeys UsersDemo.account "bob_keys") tt
    = Promise_all answers /\
    (forall results,
        answers = map Resolved results ->
        outcome_of (Users.deleteAccessKeys UsersDemo.account "bob_keys") tt
        = Resolved results).
Proof.
  split; [reflexivity|].
  exact (proj1 (deleteAccessKeys_one_call_per_key UsersDemo.account "bob_keys" tt)
               tt [mkAccessKey "AKIA1"; mkAccessKey "AKIA2"] eq_refl).
Defined.

Lemma update_results_witness :
  outcome_of (Users.update UsersDemo.account
                (Users.mkInput ["alice"; "bob_keys"]) "prod") tt
  = Resolved [[Data (JS.JString "alice")]; [Data JS.JNull]] /\
  exists createResults deleteResults,
    [[Data (JS.JString "alice")]; [Data JS.JNull]] = [createResults; deleteResults] /\
    Forall2 (fun x res =>
               In (iam (IAM.createUser x (USERS_PATH UsersDemo.account)), Resolved res)
                  (log_of (Users.update UsersDemo.account
                             (Users.mkInput ["alice"; "bob_keys"]) "prod") tt))
            ["alice"] createResults /\
    Forall2 (fun x res =>
               In (iam (IAM.deleteUser x), Resolved res)
                  (log_of (Users.update UsersDemo.account
                             (Users.mkInput ["alice"; "bob_keys"]) "prod") tt))
            ["carol"] deleteResults.
Proof.
  split; [reflexivity|].
  exact (proj1 (proj2 (update_results UsersDemo.account
                         (Users.mkInput ["alice"; "bob_keys"]) "prod" tt)
                      tt [mkUser "bob_keys" "arn:bob"; mkUser "carol" "arn:carol"]
                      eq_refl)
               [[Data (JS.JString "alice")]; [Data JS.JNull]] eq_refl).
Defined.


Lemma removePolicy_detaches_first_witness :
  exists answers,
    List.length answers = 2 /\
    (forall results,
        answers = map Resolved results ->
        exists r,
          log_of (Policies.removePolicy (PoliciesTest.mock (Some "")) "ARN") tt
          = ((iam (IAM.listEntitiesForPolicy "ARN"),
              Resolved (PolicyGroups PoliciesTest.groupsWithPolicy))
               :: combine [iam (IAM.detachGroupPolicy "g_first" "ARN");
                           iam (IAM.detachGroupPolicy "g_second" "ARN")] answers
               ++ [(iam (IAM.deletePolicy "ARN"), r)])%list /\
          outcome_of (Policies.removePolicy (PoliciesTest.mock (Some "")) "ARN") tt = r) /\
    (forall reasons,
        In (Rejected reasons) answers ->
        log_of (Policies.removePolicy (PoliciesTest.mock (Some "")) "ARN") tt
        = (iam (IAM.listEntitiesForPolicy "ARN"),
           Resolved (PolicyGroups PoliciesTest.groupsWithPolicy))
            :: combine [iam (IAM.detachGroupPolicy "g_first" "ARN");
                        iam (IAM.detachGroupPolicy "g_second" "ARN")] answers /\
        (forall arn r,
            ~ In (iam (IAM.deletePolicy arn), r)
                 (log_of (Policies.removePolicy (PoliciesTest.mock (Some "")) "ARN") tt)) /\
        outcome_of (Policies.removePolicy (PoliciesTest.mock (Some "")) "ARN") tt
        = match Promise_all answers with
          | Rejected all => Rejected all
          | Resolved _ => Rejected reasons
          end /\
        is_rejected (outcome_of (Policies.removePolicy
                                   (PoliciesTest.mock (Some "")) "ARN") tt) = true).
Proof.
  exact (removePolicy_detaches_first (PoliciesTest.mock (Some "")) "ARN" tt tt
           PoliciesTest.groupsWithPolicy eq_refl).
Defined.

Lemma policies_update_without_diff_witness :
  exists r,
    In (iam (IAM.listEntitiesForPolicy "1234"), r)
       (log_of (Policies.update (PoliciesTest.mock (Some ""))
                  (Policies.mkInput [Policies.mkEntry "first" (JS.JString "doc")]))
               tt).
Proof.
  exact (proj1 (proj2 (proj1 (policies_update_without_diff (PoliciesTest.mock (Some "")))
                         (Policies.mkInput [Policies.mkEntry "first" (JS.JString "doc")])
                         tt tt [mkPolicy "first" "123"; mkPolicy "second" "1234"]
                         eq_refl))
               (mkPolicy "second" "1234") (or_intror (or_introl eq_refl))).
Defined.

(** The last five characters decide, nothing else about the name. *)
Example keys_suffix_examples :
  Users.has_keys_suffix "svc_keys" = true /\
  Users.has_keys_suffix "_keys" = true /\
  Users.has_keys_suffix "deploy_bot_keys" = true /\
  Users.has_keys_suffix "monkeys" = false /\
  Users.has_keys_suffix "keys" = false /\
  Users.has_keys_suffix "svc_keys_old" = false /\
  Users.has_keys_suffix "svc_KEYS" = false /\
  Users.has_keys_suffix "alice" = false.
Proof. repeat split. Qed.

Example createUser_svc_keys :
  log_of (Users.createUser UsersDemo.account "svc_keys" "prod") tt
  = [(iam (IAM.createUser "svc_keys" (Some "/team/")),
      Resolved (Data (JS.JString "svc_keys")));
     (iam (IAM.createAccessKey "svc_keys"), Resolved (Data JS.JNull));
     (ses_enqueueSendProgrammaticAccessKeys "svc_keys" (Data JS.JNull) "prod",
      Resolved (Data JS.JNull))].
Proof. reflexivity. Qed.

Example createUser_alice :
  log_of (Users.createUser UsersDemo.account "alice" "prod") tt
  = [(iam (IAM.createUser "alice" (Some "/team/")),
      Resolved (Data (JS.JString "alice")));
     (iam (IAM.createLoginProfile "AAAAAAAAAAAAAAAAAAAAAA==" true "alice"),
      Resolved (Data JS.JNull));
     (ses_enqueueSendUserCredentialsEmail "alice" "AAAAAAAAAAAAAAAAAAAAAA==" "prod",
      Resolved (Data JS.JNull))].
Proof. reflexivity. Qed.

(** The promise of the password e-mail is dropped (line 84): when the
    notifier fails, [createUser] resolves all the same. *)
Example createUser_does_not_wait_for_the_mail :
  outcome_of (Users.createUser UsersDemo.account_without_mail "alice" "prod") tt
  = Resolved (Data (JS.JString "alice")).
Proof. reflexivity. Qed.

(** A policy that is both in the input and live is created and removed all
    the same. *)
Example policies_update_same_name :
  map fst (log_of (Policies.update (PoliciesTest.mock (Some ""))
                     (Policies.mkInput [Policies.mkEntry "first" (JS.JString "doc")]))
                  tt)
  = [iam IAM.listPolicies;
     iam (IAM.createPolicy "first" (JS.quote "doc") (Some ""));
     iam (IAM.listEntitiesForPolicy "123");
     iam (IAM.detachGroupPolicy "g_first" "123");
     iam (IAM.detachGroupPolicy "g_second" "123");
     iam (IAM.deletePolicy "123");
     iam (IAM.listEntitiesForPolicy "1234");
     iam (IAM.detachGroupPolicy "g_first" "1234");
     iam (IAM.detachGroupPolicy "g_second" "1234");
     iam (IAM.deletePolicy "1234")].
Proof. reflexivity. Qed.

(** * Further properties of [src/users.js] *)

(** ** [createUser] and its notifications *)

Section CreateUserMore.

Context {World : Type} (E : Env World).

(** X1. [createUser] notifies at most once, and exactly once when it
    resolves.  What it hands to the notifier is what it has just created:
    the access keys are the answer of [createAccessKey], the password is the
    one of the login profile that was created, and the notification is about
    the same user and account. *)
Theorem createUser_notifies_what_it_created UserName accountName w :
  let l := log_of (Users.createUser E UserName accountName) w in
  (forall u credentials account r,
      In (ses_enqueueSendProgrammaticAccessKeys u credentials account, r) l ->
      u = UserName /\ account = accountName /\
      In (iam (IAM.createAccessKey UserName), Resolved credentials) l) /\
  (forall u password account r,
      In (ses_enqueueSendUserCredentialsEmail u password account, r) l ->
      u = UserName /\ account = accountName /\
      exists profile,
        In (iam (IAM.createLoginProfile password true UserName), Resolved profile) l) /\
  List.length (filter is_notification (calls_of l)) <= 1 /\
  (forall v,
      outcome_of (Users.createUser E UserName accountName) w = Resolved v ->
      List.length (filter is_notification (calls_of l)) = 1).
Proof.
  cbv zeta.
  unfold outcome_of, log_of, calls_of, Users.createUser,
    Users.generateProgrammaticAccessKeys, Users.generateUserLoginProfile,
    bind, perform, start, random, ret.
  split; [|split; [|split]].
  - intros u credentials account r.
    destruct (Users.has_keys_suffix UserName); run_calls E; intros H; in_log;
      repeat split; simpl; auto.
  - intros u password account r.
    destruct (Users.has_keys_suffix UserName); run_calls E; intros H; in_log;
      repeat split; eexists; simpl; eauto.
  - destruct (Users.has_keys_suffix UserName); run_calls E; lia.
  - intros v.
    destruct (Users.has_keys_suffix UserName); run_calls E; intros H;
      try discriminate; reflexivity.
Qed.

(** X2. When [iam.createUser] fails, [createUser] issues nothing else and
    rejects with the reasons of that failure.  When the credential call
    fails, the user stays created: no notification is sent, the rejection is
    that of the credential call, and [createUser] never issues a call that
    deletes anything. *)
Theorem createUser_stops_at_first_failure UserName accountName w :
  let run := Users.createUser E UserName accountName in
  let create := iam (IAM.createUser UserName (USERS_PATH E)) in
  (forall w1 reasons,
      answer E create w = (w1, Rejected reasons) ->
      log_of run w = [(create, Rejected reasons)] /\
      outcome_of run w = Rejected reasons) /\
  (forall c reasons,
      In (c, Rejected reasons) (log_of run w) ->
      (c = iam (IAM.createAccessKey UserName) \/
       exists Password, c = iam (IAM.createLoginProfile Password true UserName)) ->
      outcome_of run w = Rejected reasons /\
      filter is_notification (calls_of (log_of run w)) = []) /\
  (forall c r,
      In (c, r) (log_of run w) ->
      match c with
      | iam (IAM.deleteUser _) | iam (IAM.deleteLoginProfile _)
      | iam (IAM.deleteAccessKey _ _) | groups_removeUserFromGroup _ _ => False
      | _ => True
      end).
Proof.
  cbv zeta.
  unfold outcome_of, log_of, calls_of, Users.createUser,
    Users.generateProgrammaticAccessKeys, Users.generateUserLoginProfile,
    bind, perform, start, random, ret.
  split; [|split].
  - intros w1 reasons H. rewrite H. simpl. now split.
  - intros c reasons Hin Hc. destruct Hc as [->|[pw ->]];
      destruct (Users.has_keys_suffix UserName); revert Hin; run_calls E;
      intros Hin; in_log; split; reflexivity.
  - intros c r.
    destruct (Users.has_keys_suffix UserName); run_calls E; intros H; in_log;
      exact I.
Qed.

End CreateUserMore.

(** ** The suffix test *)

Lemma drop_append_more p : forall k s,
  drop (String.length p + k) (p ++ s) = drop k s.
Proof. induction p as [|c p IH]; intros k s; simpl; [reflexivity | apply IH]. Qed.

(** X3. Only the last five characters of a name decide between access keys
    and a login profile: two names with the same ending of five characters
    or more are treated alike, and a name of fewer than five characters is
    never a key user. *)
Theorem has_keys_suffix_reads_the_end :
  (forall p q ending,
      5 <= String.length ending ->
      Users.has_keys_suffix (p ++ ending) = Users.has_keys_suffix (q ++ ending)) /\
  (forall UserName,
      String.length UserName < 5 -> Users.has_keys_suffix UserName = false).
Proof.
  split.
  - intros p q ending Hlen. unfold Users.has_keys_suffix.
    rewrite !(substr_neg_drop 5) by lia. rewrite !length_append.
    replace (String.length p + String.length ending - 5)
      with (String.length p + (String.length ending - 5)) by lia.
    replace (String.length q + String.length ending - 5)
      with (String.length q + (String.length ending - 5)) by lia.
    now rewrite !drop_append_more.
  - intros UserName Hlen.
    destruct (Users.has_keys_suffix UserName) eqn:Hk; [|reflexivity].
    apply has_keys_suffix_spec in Hk. destruct Hk as [p ->].
    rewrite length_append in Hlen. simpl in Hlen. lia.
Qed.

(** ** The generated password *)

Lemma list_ind3 {A} (P : list A -> Prop) :
  P [] -> (forall a, P [a]) -> (forall a b, P [a; b]) ->
  (forall a b c l, P l -> P (a :: b :: c :: l)) ->
  forall l, P l.
Proof.
  intros H0 H1 H2 H3. fix IH 1.
  intros [|a [|b [|c l]]]; [exact H0 | apply H1 | apply H2 | apply H3, IH].
Qed.

Ltac split_at x k :=
  let q := fresh "q" in
  let r := fresh "r" in
  let Hq := fresh "Hq" in
  let Hr := fresh "Hr" in
  pose proof (N.div_mod x k ltac:(discriminate)) as Hq;
  pose proof (N.mod_lt x k ltac:(discriminate)) as Hr;
  revert Hq Hr; generalize (x / k)%N (x mod k)%N; intros q r Hq Hr.

Lemma to_N_inj a b : Byte.to_N a = Byte.to_N b -> a = b.
Proof.
  intros H. pose proof (Byte.of_to_N a) as Ha. rewrite H, Byte.of_to_N in Ha.
  now inversion Ha.
Qed.

Lemma base64_alphabet_NoDup : NoDup base64_alphabet.
Proof.
  unfold base64_alphabet. simpl.
  repeat (constructor; [simpl; intuition discriminate|]). constructor.
Qed.

Lemma base64_digit_letter n : (n < 64)%N -> In (JS.base64_digit n) base64_alphabet.
Proof.
  intros Hn. unfold JS.base64_digit. apply nth_In.
  change (N.to_nat n < 64)%nat. lia.
Qed.

Lemma base64_digit_inj n m :
  (n < 64)%N -> (m < 64)%N -> JS.base64_digit n = JS.base64_digit m -> n = m.
Proof.
  intros Hn Hm H. unfold JS.base64_digit in H.
  apply N2Nat.inj.
  apply (proj1 (NoDup_nth base64_alphabet "="%char) base64_alphabet_NoDup);
    [change (N.to_nat n < 64)%nat; lia | change (N.to_nat m < 64)%nat; lia
    | exact H].
Qed.

Lemma base64_digit_not_pad n : (n < 64)%N -> JS.base64_digit n <> "="%char.
Proof.
  intros Hn Heq. pose proof (base64_digit_letter n Hn) as Hin.
  rewrite Heq in Hin. unfold base64_alphabet in Hin. simpl in Hin.
  intuition discriminate.
Qed.

(** The four digits of three bytes, and those of the last one or two. *)
Lemma digit_bounds a b c :
  (Byte.to_N a / 4 < 64 /\
   (Byte.to_N a mod 4) * 16 + Byte.to_N b / 16 < 64 /\
   (Byte.to_N b mod 16) * 4 + Byte.to_N c / 64 < 64 /\
   Byte.to_N c mod 64 < 64 /\
   (Byte.to_N a mod 4) * 16 < 64 /\
   (Byte.to_N b mod 16) * 4 < 64)%N.
Proof.
  pose proof (Byte.to_N_bounded a). pose proof (Byte.to_N_bounded b).
  pose proof (Byte.to_N_bounded c).
  split_at (Byte.to_N a) 4%N. split_at (Byte.to_N b) 16%N.
  split_at (Byte.to_N c) 64%N. split_at (Byte.to_N a) 4%N.
  lia.
Qed.

Lemma base64_length : forall bytes,
  String.length (JS.base64 bytes) = 4 * ((List.length bytes + 2) / 3).
Proof.
  induction bytes as [|a|a b|a b c l IH] using list_ind3; try reflexivity.
  change (String.length (JS.base64 (a :: b :: c :: l)))
    with (4 + String.length (JS.base64 l)).
  rewrite IH. simpl List.length.
  replace (S (S (S (List.length l))) + 2) with (1 * 3 + (List.length l + 2)) by lia.
  rewrite Nat.div_add_l by discriminate. lia.
Qed.

Lemma base64_one_left_over : forall bytes,
  List.length bytes mod 3 = 1 ->
  exists body,
    JS.base64 bytes = body ++ "==" /\
    all_chars (fun c => In c base64_alphabet) body.
Proof.
  induction bytes as [|a|a b|a b c l IH] using list_ind3; intros Hlen;
    try discriminate.
  - destruct (digit_bounds a a a) as [H0 [_ [_ [_ [H1 _]]]]].
    eexists (String _ (String _ "")). split; [reflexivity|].
    simpl. repeat split; now apply base64_digit_letter.
  - assert (List.length l mod 3 = 1) as Hl.
    { simpl List.length in Hlen.
      replace (S (S (S (List.length l)))) with (List.length l + 1 * 3) in Hlen by lia.
      now rewrite Nat.Div0.mod_add in Hlen. }
    destruct (IH Hl) as [body [Hb Hall]].
    destruct (digit_bounds a b c) as [H0 [H1 [H2 [H3 _]]]].
    exists (String (JS.base64_digit (Byte.to_N a / 4))
           (String (JS.base64_digit ((Byte.to_N a mod 4) * 16 + Byte.to_N b / 16))
           (String (JS.base64_digit ((Byte.to_N b mod 16) * 4 + Byte.to_N c / 64))
           (String (JS.base64_digit (Byte.to_N c mod 64)) body)))).
    split.
    + change (JS.base64 (a :: b :: c :: l))
        with (String (JS.base64_digit (Byte.to_N a / 4))
             (String (JS.base64_digit ((Byte.to_N a mod 4) * 16 + Byte.to_N b / 16))
             (String (JS.base64_digit ((Byte.to_N b mod 16) * 4 + Byte.to_N c / 64))
             (String (JS.base64_digit (Byte.to_N c mod 64)) (JS.base64 l))))).
      rewrite Hb. reflexivity.
    + simpl. repeat split; try (now apply base64_digit_letter). exact Hall.
Qed.

(** X4. The login profile is requested with the password that
    [generateUserLoginProfile] returns.  When [crypto.randomBytes(16)] gives
    its 16 bytes, that password has 24 characters: 22 letters, digits, [+]
    or [/] followed by [==]. *)
Theorem generated_password_shape {World} (E : Env World) UserName w w1 bytes :
  randomBytes E 16 w = (w1, bytes) ->
  List.length bytes = 16 ->
  exists Password r body,
    log_of (Users.generateUserLoginProfile E UserName) w
    = [(iam (IAM.createLoginProfile Password true UserName), r)] /\
    (forall v,
        outcome_of (Users.generateUserLoginProfile E UserName) w = Resolved v ->
        v = Password) /\
    String.length Password = 24 /\
    Password = body ++ "==" /\
    String.length body = 22 /\
    all_chars (fun c => In c base64_alphabet) body.
Proof.
  intros Hr Hlen.
  destruct (base64_one_left_over bytes) as [body [Hb Hall]];
    [now rewrite Hlen|].
  assert (String.length (JS.base64 bytes) = 24) as H24
    by (rewrite base64_length, Hlen; reflexivity).
  unfold log_of, outcome_of, Users.generateUserLoginProfile, bind, random,
    perform, ret.
  rewrite Hr. simpl.
  destruct (answer E _ w1) as [w2 r] eqn:Ha.
  exists (JS.base64 bytes), r, body.
  split; [destruct r; reflexivity|].
  split; [destruct r; simpl; intros v Hv; [now inversion Hv | discriminate]|].
  split; [exact H24|]. split; [exact Hb|]. split; [|exact Hall].
  rewrite Hb, length_append in H24. simpl in H24. lia.
Qed.

Lemma generated_password_shape_witness :
  exists Password r body,
    log_of (Users.generateUserLoginProfile UsersDemo.account "alice") tt
    = [(iam (IAM.createLoginProfile Password true "alice"), r)] /\
    (forall v,
        outcome_of (Users.generateUserLoginProfile UsersDemo.account "alice") tt
        = Resolved v -> v = Password) /\
    String.length Password = 24 /\
    Password = body ++ "==" /\
    String.length body = 22 /\
    all_chars (fun c => In c base64_alphabet) body.
Proof.
  exact (generated_password_shape UsersDemo.account "alice" tt tt
           (repeat Byte.x00 16) eq_refl eq_refl).
Defined.

Ltac bound64 :=
  match goal with
  | |- (Byte.to_N ?a / 4 < 64)%N =>
      exact (proj1 (digit_bounds a a a))
  | |- (Byte.to_N ?a mod 4 * 16 + Byte.to_N ?b / 16 < 64)%N =>
      exact (proj1 (proj2 (digit_bounds a b b)))
  | |- (Byte.to_N ?b mod 16 * 4 + Byte.to_N ?c / 64 < 64)%N =>
      exact (proj1 (proj2 (proj2 (digit_bounds b b c))))
  | |- (Byte.to_N ?c mod 64 < 64)%N =>
      exact (proj1 (proj2 (proj2 (proj2 (digit_bounds c c c)))))
  | |- (Byte.to_N ?a mod 4 * 16 < 64)%N =>
      exact (proj1 (proj2 (proj2 (proj2 (proj2 (digit_bounds a a a))))))
  | |- (Byte.to_N ?b mod 16 * 4 < 64)%N =>
      exact (proj2 (proj2 (proj2 (proj2 (proj2 (digit_bounds b b b))))))
  end.

(** Splits an equation between two texts into equations between their
    characters. *)
Ltac characters :=
  repeat match goal with
         | H : String _ _ = String _ _ |- _ =>
             let Hc := fresh "Hc" in injection H as Hc H
         end.

Ltac pad_is_no_digit :=
  match goal with
  | H : "="%char = JS.base64_digit _ |- _ =>
      symmetry in H; apply base64_digit_not_pad in H; [contradiction | bound64]
  | H : JS.base64_digit _ = "="%char |- _ =>
      apply base64_digit_not_pad in H; [contradiction | bound64]
  end.

Ltac same_digits :=
  repeat match goal with
         | H : JS.base64_digit _ = JS.base64_digit _ |- _ =>
             apply base64_digit_inj in H; [|bound64|bound64]
         end.

Ltac revert_digits :=
  repeat match goal with
         | H : @eq N _ _ |- _ => revert H
         end.

(** X5. The password keeps all of the random bytes: two different
    sequences of bytes never give the same base64 text. *)
Theorem base64_injective : forall bytes bytes',
  JS.base64 bytes = JS.base64 bytes' -> bytes = bytes'.
Proof.
  induction bytes as [|a|a b|a b c l IH] using list_ind3;
    intros [|a' [|b' [|c' l']]] H; try reflexivity; try discriminate;
    simpl in H; characters; try pad_is_no_digit; same_digits.
  - (* one byte against one byte *)
    f_equal. apply to_N_inj.
    revert_digits. split_at (Byte.to_N a) 4%N. split_at (Byte.to_N a') 4%N.
    intros. lia.
  - (* two bytes against two bytes *)
    pose proof (Byte.to_N_bounded b). pose proof (Byte.to_N_bounded b').
    assert (Byte.to_N a = Byte.to_N a' /\ Byte.to_N b = Byte.to_N b') as [Ea Eb].
    { revert_digits.
      split_at (Byte.to_N a) 4%N. split_at (Byte.to_N a') 4%N.
      split_at (Byte.to_N b) 16%N. split_at (Byte.to_N b') 16%N.
      intros. lia. }
    apply to_N_inj in Ea, Eb. now subst.
  - (* three bytes and more *)
    pose proof (Byte.to_N_bounded a). pose proof (Byte.to_N_bounded a').
    pose proof (Byte.to_N_bounded b). pose proof (Byte.to_N_bounded b').
    pose proof (Byte.to_N_bounded c). pose proof (Byte.to_N_bounded c').
    assert (Byte.to_N a = Byte.to_N a' /\ Byte.to_N b = Byte.to_N b' /\
            Byte.to_N c = Byte.to_N c') as [Ea [Eb Ec]].
    { revert_digits.
      split_at (Byte.to_N a) 4%N. split_at (Byte.to_N a') 4%N.
      split_at (Byte.to_N b) 16%N. split_at (Byte.to_N b') 16%N.
      split_at (Byte.to_N c) 64%N. split_at (Byte.to_N c') 64%N.
      intros. lia. }
    apply to_N_inj in Ea, Eb, Ec. subst. f_equal. f_equal. f_equal.
    now apply IH.
Qed.

(** ** [deleteUser], call by call *)

Section DeleteUserMore.

Context {World : Type} (E : Env World).

Lemma removeCredentials_propagates UserName :
  propagates (removeCredentials E UserName).
Proof.
  unfold removeCredentials, Users.deleteLoginProfile.
  destruct (Users.has_keys_suffix UserName).
  - apply propagates_bind; [apply deleteAccessKeys_propagates|].
    intros _. apply propagates_ret.
  - apply propagates_bind; [apply propagates_perform|].
    intros _. apply propagates_ret.
Qed.

(** The credential step issues IAM calls only, none of which lists groups
    or deletes the user. *)
Lemma removeCredentials_calls UserName :
  emits (fun e => match fst e with
                  | iam (IAM.listAccessKeys u) | iam (IAM.deleteLoginProfile u) =>
                      u = UserName
                  | iam (IAM.deleteAccessKey _ u) => u = UserName
                  | _ => False
                  end)
        (removeCredentials E UserName).
Proof.
  unfold removeCredentials, Users.deleteLoginProfile, Users.deleteAccessKeys,
    Users.listUserAccessKeys.
  destruct (Users.has_keys_suffix UserName).
  - emits_step; [|emits_step].
    emits_step; [emits_step|].
    emits_step; [apply the_AccessKeyMetadata_emits|].
    emits_step; [|emits_step].
    apply emits_mapM. intros item _. repeat emits_step.
  - repeat emits_step.
Qed.

(** How a run of [deleteUser] is laid out once the groups are listed. *)
Lemma deleteUser_layout UserName w w1 groups :
  answer E (iam (IAM.listGroupsForUser UserName)) w = (w1, Resolved (Groups groups)) ->
  exists (removals : list (result response)) w2 tail,
    List.length removals = List.length groups /\
    log_of (Users.deleteUser E UserName) w
    = ((iam (IAM.listGroupsForUser UserName), Resolved (Groups groups))
         :: combine (map (fun group => groups_removeUserFromGroup
                                         UserName (group_GroupName group))
                         groups) removals
         ++ log_of (removeCredentials E UserName) w2 ++ tail)%list /\
    match outcome_of (removeCredentials E UserName) w2, Promise_all removals with
    | Rejected reasons, _ =>
        tail = [] /\ outcome_of (Users.deleteUser E UserName) w = Rejected reasons
    | Resolved _, Rejected reasons =>
        tail = [] /\ outcome_of (Users.deleteUser E UserName) w = Rejected reasons
    | Resolved _, Resolved _ =>
        exists r, tail = [(iam (IAM.deleteUser UserName), r)] /\
                  outcome_of (Users.deleteUser E UserName) w = r
    end.
Proof.
  intros H.
  pose (final := perform E (iam (IAM.deleteUser UserName))).
  pose (after_credentials := fun ps : list (result response) =>
          bind (await (Promise_all ps)) (fun _ => final)).
  pose (after_batch := fun ps : list (result response) =>
          bind (removeCredentials E UserName) (fun _ => after_credentials ps)).
  pose (batch := mapM (fun group =>
                         start (perform E (groups_removeUserFromGroup
                                             UserName (group_GroupName group))))
                      groups).
  assert (log_of (Users.deleteUser E UserName) w
          = (iam (IAM.listGroupsForUser UserName), Resolved (Groups groups))
              :: log_of (bind batch after_batch) w1 /\
          outcome_of (Users.deleteUser E UserName) w
          = outcome_of (bind batch after_batch) w1) as [Hl1 Ho1].
  { unfold log_of, outcome_of, Users.deleteUser.
    rewrite (bind_perform E _ _ w w1 _ H). simpl the_Groups.
    unfold log_of, outcome_of. rewrite bind_ret. split; reflexivity. }
  destruct (mapM_start_perform E
              (fun group => groups_removeUserFromGroup UserName (group_GroupName group))
              groups w1) as [removals [Hlen [Hlb Hob]]].
  fold batch in Hlb, Hob.
  destruct (log_of_bind_resolved batch after_batch w1 _ Hob) as [Hl2 [Ho2 _]].
  set (w2 := world_after batch w1) in *.
  exists removals, w2.
  destruct (outcome_of (removeCredentials E UserName) w2) as [[]|reasons] eqn:Hc.
  - destruct (log_of_bind_resolved (removeCredentials E UserName)
                (fun _ => after_credentials removals) w2 tt Hc) as [Hl3 [Ho3 _]].
    fold (after_batch removals) in Hl3, Ho3.
    set (w3 := world_after (removeCredentials E UserName) w2) in *.
    destruct (Promise_all removals) as [vs|reasons] eqn:Hp.
    + destruct (answer E (iam (IAM.deleteUser UserName)) w3) as [w4 r] eqn:Ha.
      assert (log_of (after_credentials removals) w3
              = [(iam (IAM.deleteUser UserName), r)] /\
              outcome_of (after_credentials removals) w3 = r) as [Hl4 Ho4].
      { unfold log_of, outcome_of, after_credentials, final, bind, await, perform.
        rewrite Hp, Ha. now split. }
      exists [(iam (IAM.deleteUser UserName), r)].
      split; [exact Hlen|].
      split; [now rewrite Hl1, Hl2, Hlb, Hl3, Hl4|].
      exists r. split; [reflexivity|]. now rewrite Ho1, Ho2, Ho3, Ho4.
    + assert (log_of (after_credentials removals) w3 = [] /\
              outcome_of (after_credentials removals) w3 = Rejected reasons)
        as [Hl4 Ho4].
      { unfold log_of, outcome_of, after_credentials, bind, await.
        rewrite Hp. now split. }
      exists []. split; [exact Hlen|].
      split; [now rewrite Hl1, Hl2, Hlb, Hl3, Hl4|].
      split; [reflexivity|]. now rewrite Ho1, Ho2, Ho3, Ho4.
  - destruct (log_of_bind_rejected (removeCredentials E UserName)
                (fun _ => after_credentials removals) w2 _ Hc) as [Hl3 Ho3].
    fold (after_batch removals) in Hl3, Ho3.
    exists []. split; [exact Hlen|].
    split; [now rewrite Hl1, Hl2, Hlb, Hl3, app_nil_r|].
    destruct (Promise_all removals); (split; [reflexivity|]);
      now rewrite Ho1, Ho2, Ho3.
Qed.

Ltac gate_closed E H :=
  unfold log_of, outcome_of;
  first [ rewrite (bind_perform E _ _ _ _ _ H)
        | rewrite (bind_perform_rejected E _ _ _ _ _ H) ];
  simpl; unfold log_of, outcome_of, bind, throw; simpl; split; reflexivity.

Lemma nothing_without_the_listing_parts :
  (forall UserName w w1 r,
      answer E (iam (IAM.listAccessKeys UserName)) w = (w1, r) ->
      (forall items, r <> Resolved (AccessKeyMetadata items)) ->
      log_of (Users.deleteAccessKeys E UserName) w
      = [(iam (IAM.listAccessKeys UserName), r)] /\
      outcome_of (Users.deleteAccessKeys E UserName) w
      = match r with
        | Rejected reasons => Rejected reasons
        | Resolved _ => Rejected [type_error]
        end) /\
  (forall UserName w w1 r,
      answer E (iam (IAM.listGroupsForUser UserName)) w = (w1, r) ->
      (forall groups, r <> Resolved (Groups groups)) ->
      log_of (Users.deleteUser E UserName) w
      = [(iam (IAM.listGroupsForUser UserName), r)] /\
      outcome_of (Users.deleteUser E UserName) w
      = match r with
        | Rejected reasons => Rejected reasons
        | Resolved _ => Rejected [type_error]
        end) /\
  (forall json accountName w w1 r,
      answer E (iam (IAM.listUsers (USERS_PATH E))) w = (w1, r) ->
      (forall listed, r <> Resolved (Users listed)) ->
      log_of (Users.update E json accountName) w
      = [(iam (IAM.listUsers (USERS_PATH E)), r)] /\
      outcome_of (Users.update E json accountName) w
      = match r with
        | Rejected reasons => Rejected reasons
        | Resolved _ => Rejected [type_error]
        end).
Proof.
  split; [|split].
  - intros UserName w w1 r H Hshape.
    unfold Users.deleteAccessKeys, Users.listUserAccessKeys.
    destruct r as [data|reasons]; [destruct data|];
      try (exfalso; eapply Hshape; reflexivity); gate_closed E H.
  - intros UserName w w1 r H Hshape. unfold Users.deleteUser.
    destruct r as [data|reasons]; [destruct data|];
      try (exfalso; eapply Hshape; reflexivity); gate_closed E H.
  - intros json accountName w w1 r H Hshape. unfold Users.update.
    destruct r as [data|reasons]; [destruct data|];
      try (exfalso; eapply Hshape; reflexivity); gate_closed E H.
Qed.

(** X6. The methods that begin with a listing do nothing without it: when
    the listing fails, or answers without the list they read, they issue no
    further call and reject, with the reasons of the listing or with a
    [TypeError].  In particular [update] starts no creation and no deletion
    and [deleteUser] leaves the user as it is. *)
Theorem nothing_without_the_listing :
  (forall UserName w w1 r,
      answer E (iam (IAM.listAccessKeys UserName)) w = (w1, r) ->
      (forall items, r <> Resolved (AccessKeyMetadata items)) ->
      log_of (Users.deleteAccessKeys E UserName) w
      = [(iam (IAM.listAccessKeys UserName), r)] /\
      outcome_of (Users.deleteAccessKeys E UserName) w
      = match r with
        | Rejected reasons => Rejected reasons
        | Resolved _ => Rejected [type_error]
        end) /\
  (forall UserName w w1 r,
      answer E (iam (IAM.listGroupsForUser UserName)) w = (w1, r) ->
      (forall groups, r <> Resolved (Groups groups)) ->
      log_of (Users.deleteUser E UserName) w
      = [(iam (IAM.listGroupsForUser UserName), r)] /\
      outcome_of (Users.deleteUser E UserName) w
      = match r with
        | Rejected reasons => Rejected reasons
        | Resolved _ => Rejected [type_error]
        end) /\
  (forall json accountName w w1 r,
      answer E (iam (IAM.listUsers (USERS_PATH E))) w = (w1, r) ->
      (forall listed, r <> Resolved (Users listed)) ->
      log_of (Users.update E json accountName) w
      = [(iam (IAM.listUsers (USERS_PATH E)), r)] /\
      outcome_of (Users.update E json accountName) w
      = match r with
        | Rejected reasons => Rejected reasons
        | Resolved _ => Rejected [type_error]
        end).
Proof. exact nothing_without_the_listing_parts. Qed.

Lemma not_in_removals UserName (groups : list Group)
      (removals : list (result response)) c r :
  In (c, r) (combine (map (fun group => groups_removeUserFromGroup
                                          UserName (group_GroupName group))
                          groups) removals) ->
  (exists group, In group groups /\
                 c = groups_removeUserFromGroup UserName (group_GroupName group)) /\
  In r removals.
Proof.
  intros Hin. split.
  - apply in_combine_l in Hin. apply in_map_iff in Hin.
    destruct Hin as [group [Heq Hg]]. now exists group.
  - now apply in_combine_r in Hin.
Qed.

(** X7. [deleteUser] deletes the user only after everything else has
    succeeded: when the call [iam.deleteUser] is in the log, no other call
    of the run was answered with an error, and the answer of that call is
    the result of [deleteUser]. *)
Theorem deleteUser_deletes_only_after_success UserName w r :
  In (iam (IAM.deleteUser UserName), r) (log_of (Users.deleteUser E UserName) w) ->
  (forall c reasons,
      In (c, Rejected reasons) (log_of (Users.deleteUser E UserName) w) ->
      c = iam (IAM.deleteUser UserName)) /\
  outcome_of (Users.deleteUser E UserName) w = r.
Proof.
  intros Hin.
  destruct (answer E (iam (IAM.listGroupsForUser UserName)) w) as [w1 listing] eqn:H.
  assert ((exists groups, listing = Resolved (Groups groups)) \/
          (forall groups, listing <> Resolved (Groups groups))) as [[groups ->]|Hno].
  { destruct listing as [data|reasons]; [destruct data|];
      try (right; intros; discriminate). left. eauto. }
  - destruct (deleteUser_layout UserName w w1 groups H)
      as [removals [w2 [tail [Hlen [Hl Hcase]]]]].
    pose proof (removeCredentials_calls UserName w2) as Hcalls.
    rewrite Forall_forall in Hcalls.
    rewrite Hl in Hin |- *.
    assert (In (iam (IAM.deleteUser UserName), r) tail) as Htail.
    { destruct Hin as [Heq|Hin]; [discriminate|].
      apply in_app_or in Hin. destruct Hin as [Hin|Hin].
      { apply not_in_removals in Hin. destruct Hin as [[g [_ Hg]] _]. discriminate. }
      apply in_app_or in Hin. destruct Hin as [Hin|Hin]; [|exact Hin].
      apply Hcalls in Hin. destruct Hin. }
    destruct (outcome_of (removeCredentials E UserName) w2) as [[]|reasons] eqn:Hc;
      [|destruct Hcase as [-> _]; destruct Htail].
    destruct (Promise_all removals) as [vs|reasons] eqn:Hp;
      [|destruct Hcase as [-> _]; destruct Htail].
    destruct Hcase as [r' [-> Hout]].
    destruct Htail as [Heq|[]].
    assert (r' = r) as Hsame by (now inversion Heq). clear Heq.
    split; [|now rewrite Hout].
    intros c reasons [Heq'|Hc'].
    + discriminate.
    + apply in_app_or in Hc'. destruct Hc' as [Hc'|Hc'].
      * exfalso. apply not_in_removals in Hc'. destruct Hc' as [_ Hrem].
        apply Promise_all_resolved in Hp. rewrite Hp in Hrem.
        apply in_map_iff in Hrem. destruct Hrem as [v [Hv _]]. discriminate.
      * apply in_app_or in Hc'. destruct Hc' as [Hc'|[Hc'|[]]].
        -- exfalso.
           assert (is_rejected (outcome_of (removeCredentials E UserName) w2) = true)
             as Hrej.
           { apply removeCredentials_propagates. exists c, reasons.
             split; [exact Hc'|]. apply Hcalls in Hc'. simpl in Hc'.
             destruct c as [[]| | |]; simpl; try reflexivity; destruct Hc'. }
           rewrite Hc in Hrej. discriminate.
        -- now inversion Hc'.
  - exfalso.
    destruct (proj1 (proj2 nothing_without_the_listing_parts) UserName w w1 listing H Hno)
      as [Hl _].
    rewrite Hl in Hin. destruct Hin as [Heq|[]]. discriminate.
Qed.

Lemma log_of_then_ret {A B} (m : @M World A) (b : B) w :
  log_of (bind m (fun _ => ret b)) w = log_of m w /\
  (forall reasons, outcome_of m w = Rejected reasons ->
                   outcome_of (bind m (fun _ => ret b)) w = Rejected reasons).
Proof.
  unfold log_of, outcome_of, bind, ret.
  destruct (m w) as [[w1 l] [a|e]]; simpl.
  - split; [apply app_nil_r | discriminate].
  - split; [reflexivity | intros reasons Hr; now inversion Hr].
Qed.

(** The credential step begins with [deleteLoginProfile] or with
    [listAccessKeys]; nothing follows the first, only key deletions follow
    the second, and a failure of that first call is the failure of the
    step. *)
Lemma removeCredentials_first UserName w :
  exists r rest,
    log_of (removeCredentials E UserName) w
    = ((if Users.has_keys_suffix UserName
        then iam (IAM.listAccessKeys UserName)
        else iam (IAM.deleteLoginProfile UserName)), r) :: rest /\
    Forall (fun e => exists k, fst e = iam (IAM.deleteAccessKey k UserName)) rest /\
    (forall reasons, r = Rejected reasons ->
                     outcome_of (removeCredentials E UserName) w = Rejected reasons).
Proof.
  unfold removeCredentials. destruct (Users.has_keys_suffix UserName).
  - destruct (log_of_then_ret (Users.deleteAccessKeys E UserName) tt w) as [Hl Ho].
    rewrite Hl. clear Hl.
    unfold Users.deleteAccessKeys, Users.listUserAccessKeys in *.
    destruct (answer E (iam (IAM.listAccessKeys UserName)) w)
      as [w1 [data|reasons]] eqn:Ha.
    + exists (Resolved data). eexists. split; [|split].
      * unfold log_of at 1. rewrite (bind_perform E _ _ w w1 _ Ha). reflexivity.
      * match goal with |- Forall ?P (log_of ?m w1) =>
          generalize w1; change (emits P m) end.
        emits_step; [apply the_AccessKeyMetadata_emits|].
        emits_step; [|emits_step].
        apply emits_mapM. intros item _. emits_step.
        apply emits_perform. intros r. now exists (key_AccessKeyId item).
      * discriminate.
    + exists (Rejected reasons), []. split; [|split].
      * unfold log_of. now rewrite (bind_perform_rejected E _ _ w w1 _ Ha).
      * constructor.
      * intros e He. inversion He; subst e. apply Ho.
        unfold outcome_of. now rewrite (bind_perform_rejected E _ _ w w1 _ Ha).
  - unfold Users.deleteLoginProfile, log_of, outcome_of, bind, perform, ret.
    destruct (answer E (iam (IAM.deleteLoginProfile UserName)) w) as [w1 [a|e]];
      simpl; eexists _, []; (split; [reflexivity|]); (split; [constructor|]);
      intros reasons Hr; now inversion Hr.
Qed.

(** X8. Once the groups are listed, [deleteUser] asks for the removal from
    every one of them and goes on to the credentials whatever the groups
    answer.  When the first credential call ([deleteLoginProfile], or
    [listAccessKeys] for a [_keys] user) fails, [deleteUser] rejects with the
    reasons of that call, also when a group removal has failed, and
    [iam.deleteUser] is not issued. *)
Theorem deleteUser_reports_the_credential_failure UserName w w1 groups :
  answer E (iam (IAM.listGroupsForUser UserName)) w = (w1, Resolved (Groups groups)) ->
  let log := log_of (Users.deleteUser E UserName) w in
  let first := if Users.has_keys_suffix UserName
               then iam (IAM.listAccessKeys UserName)
               else iam (IAM.deleteLoginProfile UserName) in
  (forall group, In group groups ->
     exists r, In (groups_removeUserFromGroup UserName (group_GroupName group), r) log) /\
  (exists r, In (first, r) log) /\
  (forall reasons,
      In (first, Rejected reasons) log ->
      outcome_of (Users.deleteUser E UserName) w = Rejected reasons /\
      forall r, ~ In (iam (IAM.deleteUser UserName), r) log).
Proof.
  intros H. cbv zeta.
  destruct (deleteUser_layout UserName w w1 groups H)
    as [removals [w2 [tail [Hlen [Hl Hcase]]]]].
  destruct (removeCredentials_first UserName w2) as [r1 [rest [Hcl [Hrest Hfail]]]].
  rewrite Forall_forall in Hrest.
  rewrite Hl, Hcl. split; [|split].
  - intros group Hg.
    destruct (in_combine_answers
                (fun group => groups_removeUserFromGroup UserName (group_GroupName group))
                groups removals group Hlen Hg) as [r Hr].
    exists r. right. apply in_or_app. now left.
  - exists r1. right. apply in_or_app. right. now left.
  - intros reasons Hin.
    assert (r1 = Rejected reasons) as Hr1.
    { destruct Hin as [Heq|Hin].
      { destruct (Users.has_keys_suffix UserName); discriminate. }
      apply in_app_or in Hin. destruct Hin as [Hin|Hin].
      { apply not_in_removals in Hin. destruct Hin as [[g [_ Hg]] _].
        destruct (Users.has_keys_suffix UserName); discriminate. }
      destruct Hin as [Heq|Hin]; [now inversion Heq|].
      apply in_app_or in Hin. destruct Hin as [Hin|Hin].
      { apply Hrest in Hin. destruct Hin as [k Hk]. simpl in Hk.
        destruct (Users.has_keys_suffix UserName); discriminate. }
      exfalso.
      destruct (outcome_of (removeCredentials E UserName) w2) as [[]|e];
        [destruct (Promise_all removals)|].
      - destruct Hcase as [r' [-> _]]. destruct Hin as [Heq|[]].
        destruct (Users.has_keys_suffix UserName); discriminate.
      - destruct Hcase as [-> _]. destruct Hin.
      - destruct Hcase as [-> _]. destruct Hin. }
    rewrite (Hfail reasons Hr1) in Hcase. destruct Hcase as [-> Hout].
    split; [exact Hout|]. clear Hin. intros r [Heq|Hin]; [discriminate|].
    apply in_app_or in Hin. destruct Hin as [Hin|Hin].
    { apply not_in_removals in Hin. destruct Hin as [[g [_ Hg]] _]. discriminate. }
    rewrite app_nil_r in Hin. destruct Hin as [Heq|Hin].
    { destruct (Users.has_keys_suffix UserName); discriminate. }
    apply Hrest in Hin. destruct Hin as [k Hk]. simpl in Hk. discriminate.
Qed.

End DeleteUserMore.

Lemma deleteUser_deletes_only_after_success_witness :
  In (iam (IAM.deleteUser "carol"), Resolved (Data JS.JNull))
     (log_of (Users.deleteUser UsersDemo.account "carol") tt) /\
  (forall c reasons,
      In (c, Rejected reasons) (log_of (Users.deleteUser UsersDemo.account "carol") tt) ->
      c = iam (IAM.deleteUser "carol")) /\
  outcome_of (Users.deleteUser UsersDemo.account "carol") tt
  = Resolved (Data JS.JNull).
Proof.
  assert (In (iam (IAM.deleteUser "carol"), Resolved (Data JS.JNull))
             (log_of (Users.deleteUser UsersDemo.account "carol") tt)) as Hin.
  { vm_compute. tauto. }
  split; [exact Hin|].
  exact (deleteUser_deletes_only_after_success UsersDemo.account "carol" tt _ Hin).
Defined.

Lemma deleteUser_reports_the_credential_failure_witness :
  In (groups_removeUserFromGroup "carol" "devs", Rejected ["Throttling"])
     (log_of (Users.deleteUser UsersDemoFailing.account "carol") tt) /\
  In (iam (IAM.deleteLoginProfile "carol"), Rejected ["NoSuchEntity"])
     (log_of (Users.deleteUser UsersDemoFailing.account "carol") tt) /\
  outcome_of (Users.deleteUser UsersDemoFailing.account "carol") tt
  = Rejected ["NoSuchEntity"] /\
  forall r, ~ In (iam (IAM.deleteUser "carol"), r)
                 (log_of (Users.deleteUser UsersDemoFailing.account "carol") tt).
Proof.
  assert (In (iam (IAM.deleteLoginProfile "carol"), @Rejected response ["NoSuchEntity"])
             (log_of (Users.deleteUser UsersDemoFailing.account "carol") tt)) as Hin.
  { vm_compute. tauto. }
  split; [vm_compute; tauto|]. split; [exact Hin|].
  exact (proj2 (proj2 (deleteUser_reports_the_credential_failure
                         UsersDemoFailing.account "carol" tt tt
                         [mkGroup "devs"] eq_refl))
               ["NoSuchEntity"] Hin).
Defined.

(** ** Creation and deletion agree on the kind of credential *)

Lemma deleteUser_credential_kind {World} (E : Env World) UserName :
  emits (fun e => match fst e with
                  | iam (IAM.deleteLoginProfile _) =>
                      Users.has_keys_suffix UserName = false
                  | iam (IAM.listAccessKeys _) | iam (IAM.deleteAccessKey _ _) =>
                      Users.has_keys_suffix UserName = true
                  | _ => True
                  end)
        (Users.deleteUser E UserName).
Proof.
  unfold Users.deleteUser, Users.deleteLoginProfile, Users.deleteAccessKeys,
    Users.listUserAccessKeys.
  destruct (Users.has_keys_suffix UserName).
  - emits_step; [apply emits_perform; intro; exact I|].
    emits_step; [apply the_Groups_emits|].
    emits_step; [apply emits_mapM; intros group _; emits_step;
                 apply emits_perform; intro; exact I|].
    emits_step.
    + emits_step; [|emits_step].
      emits_step; [apply emits_perform; intro; reflexivity|].
      emits_step; [apply the_AccessKeyMetadata_emits|].
      emits_step; [|emits_step].
      apply emits_mapM. intros item _. emits_step.
      apply emits_perform. intro. reflexivity.
    + emits_step; [emits_step|]. apply emits_perform. intro. exact I.
  - emits_step; [apply emits_perform; intro; exact I|].
    emits_step; [apply the_Groups_emits|].
    emits_step; [apply emits_mapM; intros group _; emits_step;
                 apply emits_perform; intro; exact I|].
    emits_step.
    + emits_step; [|emits_step]. apply emits_perform. intro. reflexivity.
    + emits_step; [emits_step|]. apply emits_perform. intro. exact I.
Qed.

(** X9. [createUser] and [deleteUser] decide alike.  For a user that
    [createUser] gives access keys, [deleteUser] never asks to delete a login
    profile; for a user that [createUser] gives a login profile, [deleteUser]
    never lists or deletes access keys.  This holds whatever the two runs
    are answered. *)
Theorem deleteUser_removes_the_kind_createUser_made
        {World World'} (E : Env World) (E' : Env World')
        UserName accountName w w' :
  let made := log_of (Users.createUser E UserName accountName) w in
  let removed := log_of (Users.deleteUser E' UserName) w' in
  ((exists r, In (iam (IAM.createAccessKey UserName), r) made) ->
   forall u r, ~ In (iam (IAM.deleteLoginProfile u), r) removed) /\
  ((exists Password reset r,
       In (iam (IAM.createLoginProfile Password reset UserName), r) made) ->
   forall u k r,
     ~ In (iam (IAM.listAccessKeys u), r) removed /\
     ~ In (iam (IAM.deleteAccessKey k u), r) removed).
Proof.
  cbv zeta.
  pose proof (deleteUser_credential_kind E' UserName w') as Hkind.
  rewrite Forall_forall in Hkind.
  split.
  - intros [r0 Hmade] u r Hin.
    apply Hkind in Hin. simpl in Hin. revert Hmade.
    unfold log_of, Users.createUser, Users.generateProgrammaticAccessKeys,
      Users.generateUserLoginProfile, bind, perform, start, random, ret.
    rewrite Hin. run_calls E; intros Hmade; in_log.
  - intros [Password [reset [r0 Hmade]]] u k r.
    assert (Users.has_keys_suffix UserName = false) as Hk.
    { destruct (Users.has_keys_suffix UserName) eqn:Hk; [|reflexivity].
      exfalso. revert Hmade.
      unfold log_of, Users.createUser, Users.generateProgrammaticAccessKeys,
        Users.generateUserLoginProfile, bind, perform, start, random, ret.
      rewrite Hk. run_calls E; intros Hmade; in_log. }
    split; intros Hin; apply Hkind in Hin; simpl in Hin; congruence.
Qed.

(** ** The tasks [update] starts *)

Section UpdateTasks.

Context {World : Type} (E : Env World).

Lemma calls_of_app l1 l2 : calls_of (l1 ++ l2) = (calls_of l1 ++ calls_of l2)%list.
Proof. apply map_app. Qed.

Lemma filter_none (f : call -> bool) l :
  Forall (fun e => f (fst e) = false) l -> filter f (calls_of l) = [].
Proof.
  induction 1 as [|e l He _ IH]; [reflexivity|].
  simpl. rewrite He. exact IH.
Qed.

Lemma createUser_begins UserName accountName w :
  filter begins_createUser (calls_of (log_of (Users.createUser E UserName accountName) w))
  = [iam (IAM.createUser UserName (USERS_PATH E))] /\
  filter begins_deleteUser (calls_of (log_of (Users.createUser E UserName accountName) w))
  = [].
Proof.
  unfold log_of, calls_of, Users.createUser, Users.generateProgrammaticAccessKeys,
    Users.generateUserLoginProfile, bind, perform, start, random, ret.
  destruct (Users.has_keys_suffix UserName); run_calls E; split; reflexivity.
Qed.

Lemma deleteUser_begins UserName w :
  filter begins_deleteUser (calls_of (log_of (Users.deleteUser E UserName) w))
  = [iam (IAM.listGroupsForUser UserName)] /\
  filter begins_createUser (calls_of (log_of (Users.deleteUser E UserName) w))
  = [].
Proof.
  assert (forall data,
             emits (fun e => begins_deleteUser (fst e) = false /\
                             begins_createUser (fst e) = false)
                   (groups <- the_Groups data ;;
                    groupRemovalPromises <-
                      mapM (fun group =>
                              start (perform E (groups_removeUserFromGroup
                                                  UserName (group_GroupName group))))
                           groups ;;
                    _ <- removeCredentials E UserName ;;
                    _ <- await (Promise_all groupRemovalPromises) ;;
                    perform E (iam (IAM.deleteUser UserName)))) as Hrest.
  { intros data.
    emits_step; [apply the_Groups_emits|].
    emits_step; [apply emits_mapM; intros group _; emits_step;
                 apply emits_perform; intro; now split|].
    emits_step.
    - eapply emits_weaken; [|apply removeCredentials_calls].
      intros [c r]. simpl. destruct c as [[]| | |]; intros Hc; try destruct Hc;
        now split.
    - emits_step; [emits_step|]. apply emits_perform. intro. now split. }
  unfold log_of, Users.deleteUser.
  destruct (answer E (iam (IAM.listGroupsForUser UserName)) w)
    as [w1 [data|reasons]] eqn:H.
  - rewrite (bind_perform E _ _ w w1 _ H). simpl fst. simpl snd.
    change (calls_of ((iam (IAM.listGroupsForUser UserName), Resolved data) :: ?l))
      with (iam (IAM.listGroupsForUser UserName) :: calls_of l).
    specialize (Hrest data w1). simpl filter.
    rewrite !filter_none.
    + now split.
    + eapply Forall_impl; [|exact Hrest]. now intros e [_ He].
    + eapply Forall_impl; [|exact Hrest]. now intros e [He _].
  - rewrite (bind_perform_rejected E _ _ w w1 _ H). now split.
Qed.

Lemma tasks_begin {A} (f : A -> @M World response) (first : A -> call)
      (g other : call -> bool) xs :
  (forall x w, filter g (calls_of (log_of (f x) w)) = [first x] /\
               filter other (calls_of (log_of (f x) w)) = []) ->
  forall runs : list (list event * result response),
    Forall2 (fun x run => exists wx, log_of (f x) wx = fst run /\
                                     outcome_of (f x) wx = snd run) xs runs ->
    filter g (calls_of (List.concat (map fst runs))) = map first xs /\
    filter other (calls_of (List.concat (map fst runs))) = [].
Proof.
  intros Hf runs HF. induction HF as [|x run xs runs [wx [Hl _]] HF [IH1 IH2]].
  - now split.
  - simpl. rewrite calls_of_app, !filter_app, IH1, IH2, <- Hl.
    destruct (Hf x wx) as [-> ->]. now split.
Qed.

(** The calls that begin a task of [update], in the order of the log. *)
Lemma update_tasks json accountName w w1 listed :
  answer E (iam (IAM.listUsers (USERS_PATH E))) w = (w1, Resolved (Users listed)) ->
  let calls := calls_of (log_of (Users.update E json accountName) w) in
  filter begins_createUser calls
  = map (fun user => iam (IAM.createUser user (USERS_PATH E)))
        (Users.usersToAdd (Users.users json) (map user_UserName listed)) /\
  filter begins_deleteUser calls
  = map (fun user => iam (IAM.listGroupsForUser user))
        (Users.usersToDelete (Users.users json) (map user_UserName listed)).
Proof.
  intros H. cbv zeta.
  destruct (update_structure E json accountName w w1 listed H)
    as [creates [deletes [HFc [HFd [Hl _]]]]].
  rewrite Hl.
  change (calls_of ((iam (IAM.listUsers (USERS_PATH E)), Resolved (Users listed)) :: ?l))
    with (iam (IAM.listUsers (USERS_PATH E)) :: calls_of l).
  simpl filter. rewrite calls_of_app, !filter_app.
  destruct (tasks_begin (fun x => Users.createUser E x accountName)
              (fun x => iam (IAM.createUser x (USERS_PATH E)))
              begins_createUser begins_deleteUser _
              (fun x w => createUser_begins x accountName w) creates HFc)
    as [-> ->].
  destruct (tasks_begin (fun x => Users.deleteUser E x)
              (fun x => iam (IAM.listGroupsForUser x))
              begins_deleteUser begins_createUser _
              (fun x w => deleteUser_begins x w) deletes HFd)
    as [-> ->].
  now rewrite app_nil_r.
Qed.

(** X10. Once the users are listed, [update] starts exactly one
    [createUser] for each name to add and exactly one [deleteUser] for each
    name to delete, in the order of the two differences; so a name that is
    written twice in the input and is not live is created twice. *)
Theorem update_starts_one_task_per_name json accountName w w1 listed :
  answer E (iam (IAM.listUsers (USERS_PATH E))) w = (w1, Resolved (Users listed)) ->
  let calls := calls_of (log_of (Users.update E json accountName) w) in
  let live := map user_UserName listed in
  filter begins_createUser calls
  = map (fun user => iam (IAM.createUser user (USERS_PATH E)))
        (JS.difference (Users.users json) live) /\
  filter begins_deleteUser calls
  = map (fun user => iam (IAM.listGroupsForUser user))
        (JS.difference live (Users.users json)) /\
  (forall before between after x,
      Users.users json = (before ++ x :: between ++ x :: after)%list ->
      ~ In x live ->
      exists l1 l2 l3,
        filter begins_createUser calls
        = (l1 ++ iam (IAM.createUser x (USERS_PATH E))
              :: l2 ++ iam (IAM.createUser x (USERS_PATH E)) :: l3)%list).
Proof.
  intros H. cbv zeta.
  destruct (update_tasks json accountName w w1 listed H) as [Hc Hd].
  split; [exact Hc|]. split; [exact Hd|].
  intros before between after x Hjson Hx.
  rewrite Hc. unfold Users.usersToAdd, JS.difference. rewrite Hjson.
  assert (negb (JS.includes (map user_UserName listed) x) = true) as Hnew.
  { apply negb_true_iff. destruct (JS.includes _ x) eqn:Hi; [|reflexivity].
    apply includes_In in Hi. contradiction. }
  rewrite filter_app. simpl. rewrite Hnew. rewrite filter_app. simpl.
  rewrite Hnew. rewrite !map_app. simpl. rewrite !map_app. simpl.
  eexists _, _, _. reflexivity.
Qed.

Lemma difference_nothing D L :
  (forall x, In x D -> In x L) -> JS.difference D L = [].
Proof.
  intros H. unfold JS.difference.
  induction D as [|x D IH]; [reflexivity|]. simpl.
  assert (JS.includes L x = true) as -> by (apply includes_In, H; now left).
  simpl. apply IH. intros y Hy. apply H. now right.
Qed.

Lemma difference_empty_right D : JS.difference D [] = D.
Proof.
  unfold JS.difference. induction D as [|x D IH]; [reflexivity|].
  simpl. f_equal. exact IH.
Qed.

(** The run of [update] when there is nothing to add and nothing to
    delete. *)
Lemma update_at_rest json accountName w w1 listed :
  answer E (iam (IAM.listUsers (USERS_PATH E))) w = (w1, Resolved (Users listed)) ->
  (forall x, In x (Users.users json) <-> In x (map user_UserName listed)) ->
  Users.update E json accountName w
  = (w1, [(iam (IAM.listUsers (USERS_PATH E)), Resolved (Users listed))],
     Resolved [[]; []]).
Proof.
  intros H Hsame. unfold Users.update.
  unfold bind at 1. rewrite (perform_run E _ w w1 _ H).
  simpl the_Users. rewrite bind_ret.
  unfold Users.usersToAdd, Users.usersToDelete.
  rewrite (difference_nothing (Users.users json)) by (intros x; apply Hsame).
  rewrite (difference_nothing (map user_UserName listed)) by (intros x; apply Hsame).
  reflexivity.
Qed.

(** X11. When the live names are the desired names, whatever their order
    and repetitions, [update] issues the listing and nothing else, leaves the
    world as the listing left it and resolves with two empty sequences. *)
Theorem update_does_nothing_when_converged json accountName w w1 listed :
  answer E (iam (IAM.listUsers (USERS_PATH E))) w = (w1, Resolved (Users listed)) ->
  (forall x, In x (Users.users json) <-> In x (map user_UserName listed)) ->
  log_of (Users.update E json accountName) w
  = [(iam (IAM.listUsers (USERS_PATH E)), Resolved (Users listed))] /\
  outcome_of (Users.update E json accountName) w = Resolved [[]; []] /\
  world_after (Users.update E json accountName) w = w1.
Proof.
  intros H Hsame. unfold log_of, outcome_of, world_after.
  rewrite (update_at_rest json accountName w w1 listed H Hsame). now repeat split.
Qed.

(** X12. The two ends of the diff.  With an empty list of desired users,
    [update] creates nobody and starts the deletion of every live user; with
    no live user, it starts the creation of every desired name, repetitions
    included, and deletes nobody. *)
Theorem update_at_the_ends_of_the_diff json accountName w w1 listed :
  answer E (iam (IAM.listUsers (USERS_PATH E))) w = (w1, Resolved (Users listed)) ->
  let calls := calls_of (log_of (Users.update E json accountName) w) in
  (Users.users json = [] ->
   filter begins_createUser calls = [] /\
   filter begins_deleteUser calls
   = map (fun u => iam (IAM.listGroupsForUser (user_UserName u))) listed) /\
  (listed = [] ->
   filter begins_createUser calls
   = map (fun user => iam (IAM.createUser user (USERS_PATH E))) (Users.users json) /\
   filter begins_deleteUser calls = []).
Proof.
  intros H. cbv zeta.
  destruct (update_tasks json accountName w w1 listed H) as [Hc Hd].
  rewrite Hc, Hd. unfold Users.usersToAdd, Users.usersToDelete. split.
  - intros ->. rewrite difference_empty_right, map_map. now split.
  - intros ->. simpl map at 2 4. rewrite difference_empty_right. now split.
Qed.

End UpdateTasks.

(** ** [update] against a directory of names

    [Directory.service] answers as a set of user names: creating a name that
    exists and deleting one that does not are errors.  The tasks run in the
    order [update] starts them. *)

Section Threading.

Context {World A B : Type} (f : A -> @M World B).

Lemma mapM_start_world xs : forall w,
  world_after (mapM (fun x => start (f x)) xs) w
  = fold_left (fun w x => world_after (f x) w) xs w.
Proof.
  induction xs as [|x xs IH]; intros w; [reflexivity|].
  simpl mapM.
  destruct (log_of_start (f x) w) as [_ [Ho Hw]].
  destruct (log_of_bind_resolved (start (f x))
              (fun y => bind (mapM (fun x => start (f x)) xs)
                             (fun ys => ret (y :: ys))) w _ Ho)
    as [_ [_ Hw1]].
  rewrite Hw1, Hw. clear Hw1.
  destruct (mapM_start_run f xs (world_after (f x) w)) as [runs [_ [_ Hor]]].
  destruct (log_of_bind_resolved (mapM (fun x => start (f x)) xs)
              (fun ys => ret (outcome_of (f x) w :: ys))
              (world_after (f x) w) _ Hor) as [_ [_ Hw2]].
  rewrite Hw2. simpl. apply IH.
Qed.

(** When every task finds the world as it needs it, every task resolves. *)
Lemma mapM_start_all_resolved (I : World -> list A -> Prop) :
  (forall x xs w, I w (x :: xs) ->
                  (exists v, outcome_of (f x) w = Resolved v) /\
                  I (world_after (f x) w) xs) ->
  forall xs w, I w xs ->
  exists vs, outcome_of (mapM (fun x => start (f x)) xs) w = Resolved (map Resolved vs) /\
             List.length vs = List.length xs.
Proof.
  intros Hstep. induction xs as [|x xs IH]; intros w HI.
  - exists []. now split.
  - simpl mapM.
    destruct (Hstep x xs w HI) as [[v Hv] HI'].
    destruct (log_of_start (f x) w) as [_ [Ho Hw]].
    destruct (log_of_bind_resolved (start (f x))
                (fun y => bind (mapM (fun x => start (f x)) xs)
                               (fun ys => ret (y :: ys))) w _ Ho)
      as [_ [Ho1 _]].
    rewrite Ho1, Hw. clear Ho1.
    destruct (IH _ HI') as [vs [Hvs Hlen]].
    destruct (log_of_bind_resolved (mapM (fun x => start (f x)) xs)
                (fun ys => ret (outcome_of (f x) w :: ys))
                (world_after (f x) w) _ Hvs) as [_ [Ho2 _]].
    rewrite Ho2. exists (v :: vs). split; [|simpl; now rewrite Hlen].
    unfold outcome_of at 1. simpl. now rewrite Hv.
Qed.

End Threading.

Section DirectoryFacts.

Variable path : option string.

Lemma without_In u names x :
  In x (Directory.without u names) <-> In x names /\ x <> u.
Proof.
  unfold Directory.without. rewrite filter_In, negb_true_iff, String.eqb_neq.
  tauto.
Qed.

Lemma without_absent u names :
  JS.includes names u = false -> Directory.without u names = names.
Proof.
  intros H. unfold Directory.without.
  induction names as [|y names IH]; [reflexivity|].
  unfold JS.includes in H. simpl in H. apply orb_false_iff in H as [Hy H].
  simpl. rewrite String.eqb_sym, Hy. simpl. f_equal. apply IH. exact H.
Qed.

Lemma includes_not_In values x : JS.includes values x = false <-> ~ In x values.
Proof.
  rewrite <- includes_In. destruct (JS.includes values x); intuition congruence.
Qed.

(** [createUser] adds the name when it is new, and fails otherwise without
    touching the directory. *)
Lemma directory_createUser UserName accountName names :
  world_after (Users.createUser (Directory.service path) UserName accountName) names
  = (if JS.includes names UserName then names else (names ++ [UserName])%list) /\
  (JS.includes names UserName = false ->
   outcome_of (Users.createUser (Directory.service path) UserName accountName) names
   = Resolved (Data (JS.JString UserName))) /\
  (JS.includes names UserName = true ->
   outcome_of (Users.createUser (Directory.service path) UserName accountName) names
   = Rejected ["EntityAlreadyExists"]).
Proof.
  unfold world_after, outcome_of, Users.createUser,
    Users.generateProgrammaticAccessKeys, Users.generateUserLoginProfile,
    bind, perform, start, random, ret.
  simpl. destruct (JS.includes names UserName); simpl.
  - repeat split; congruence.
  - destruct (Users.has_keys_suffix UserName); simpl; repeat split; congruence.
Qed.

(** [deleteUser] removes the name when it is there, and fails otherwise
    without touching the directory. *)
Lemma directory_deleteUser UserName names :
  world_after (Users.deleteUser (Directory.service path) UserName) names
  = Directory.without UserName names /\
  (JS.includes names UserName = true ->
   outcome_of (Users.deleteUser (Directory.service path) UserName) names
   = Resolved (Data JS.JNull)) /\
  (JS.includes names UserName = false ->
   outcome_of (Users.deleteUser (Directory.service path) UserName) names
   = Rejected ["NoSuchEntity"]).
Proof.
  unfold world_after, outcome_of, Users.deleteUser, Users.deleteAccessKeys,
    Users.listUserAccessKeys, Users.deleteLoginProfile,
    bind, perform, start, await, ret.
  simpl.
  destruct (Users.has_keys_suffix UserName); simpl;
    destruct (JS.includes names UserName) eqn:Hin; simpl;
    (repeat split; try congruence);
    symmetry; now apply without_absent.
Qed.

Lemma fold_created accountName xs : forall names x,
  In x (fold_left (fun w u =>
                     world_after (Users.createUser (Directory.service path)
                                                   u accountName) w)
                  xs names)
  <-> In x names \/ In x xs.
Proof.
  induction xs as [|u xs IH]; intros names x; simpl; [tauto|].
  rewrite IH. destruct (directory_createUser u accountName names) as [-> _].
  destruct (JS.includes names u) eqn:Hu.
  - apply includes_In in Hu. intuition (subst; auto).
  - rewrite in_app_iff. simpl. intuition (subst; auto).
Qed.

Lemma fold_deleted xs : forall names x,
  In x (fold_left (fun w u =>
                     world_after (Users.deleteUser (Directory.service path) u) w)
                  xs names)
  <-> In x names /\ ~ In x xs.
Proof.
  induction xs as [|u xs IH]; intros names x; simpl; [tauto|].
  rewrite IH. destruct (directory_deleteUser u names) as [-> _].
  rewrite without_In. intuition (subst; auto).
Qed.

Lemma listed_names (names : list string) :
  map user_UserName (map (fun x => mkUser x x) names) = names.
Proof. rewrite map_map. simpl. apply map_id. Qed.

Lemma NoDup_difference array values :
  NoDup array -> NoDup (JS.difference array values).
Proof. apply NoDup_filter. Qed.

(** The run of [update] on a directory, step by step. *)
Lemma directory_update desired accountName names :
  let service := Directory.service path in
  let update := Users.update service (Users.mkInput desired) accountName in
  let creating := mapM (fun user => start (Users.createUser service user accountName))
                       (JS.difference desired names) in
  let deleting := mapM (fun user => start (Users.deleteUser service user))
                       (JS.difference names desired) in
  world_after update names = world_after deleting (world_after creating names) /\
  exists created deleted,
    outcome_of creating names = Resolved created /\
    outcome_of deleting (world_after creating names) = Resolved deleted /\
    outcome_of update names = Promise_all [Promise_all created; Promise_all deleted].
Proof.
  intros service update creating deleting.
  assert (outcome_of (perform service (iam (IAM.listUsers (USERS_PATH service)))) names
          = Resolved (Users (map (fun x => mkUser x x) names))) as Hlisting
      by reflexivity.
  destruct (mapM_start_run (fun user => Users.createUser service user accountName)
              (JS.difference desired names) names) as [creates [_ [_ Hoc]]].
  destruct (mapM_start_run (fun user => Users.deleteUser service user)
              (JS.difference names desired) (world_after creating names))
    as [deletes [_ [_ Hod]]].
  fold creating in Hoc. fold deleting in Hod.
  assert (forall k : list (result response) -> M (list (list response)),
             world_after (bind deleting k) (world_after creating names)
             = world_after (k (map snd deletes))
                 (world_after deleting (world_after creating names)) /\
             outcome_of (bind deleting k) (world_after creating names)
             = outcome_of (k (map snd deletes))
                 (world_after deleting (world_after creating names))) as Hdeleting.
  { intros k. destruct (log_of_bind_resolved deleting k _ _ Hod) as [_ [Ho Hw]].
    now split. }
  assert (forall k : list (result response) -> M (list (list response)),
             world_after (bind creating k) names
             = world_after (k (map snd creates)) (world_after creating names) /\
             outcome_of (bind creating k) names
             = outcome_of (k (map snd creates)) (world_after creating names))
    as Hcreating.
  { intros k. destruct (log_of_bind_resolved creating k _ _ Hoc) as [_ [Ho Hw]].
    now split. }
  assert (world_after update names
          = world_after
              (bind creating
                    (fun createUserPromises =>
                       bind deleting
                            (fun deleteUserPromises =>
                               await (Promise_all [Promise_all createUserPromises;
                                                   Promise_all deleteUserPromises]))))
              names /\
          outcome_of update names
          = outcome_of
              (bind creating
                    (fun createUserPromises =>
                       bind deleting
                            (fun deleteUserPromises =>
                               await (Promise_all [Promise_all createUserPromises;
                                                   Promise_all deleteUserPromises]))))
              names) as [Hw0 Ho0].
  { unfold update, Users.update.
    match goal with |- context [bind (perform service ?c) ?k] =>
      destruct (log_of_bind_resolved (perform service c) k names _ Hlisting)
        as [_ [Ho Hw]]
    end.
    rewrite Ho, Hw. cbv beta. simpl the_Users.
    unfold world_after, outcome_of. rewrite !bind_ret.
    simpl Users.users. rewrite listed_names. split; reflexivity. }
  rewrite Hw0, Ho0.
  destruct (Hcreating (fun createUserPromises =>
                         bind deleting
                              (fun deleteUserPromises =>
                                 await (Promise_all [Promise_all createUserPromises;
                                                     Promise_all deleteUserPromises]))))
    as [Hw1 Ho1].
  rewrite Hw1, Ho1. cbv beta.
  destruct (Hdeleting (fun deleteUserPromises =>
                         await (Promise_all [Promise_all (map snd creates);
                                             Promise_all deleteUserPromises])))
    as [Hw2 Ho2].
  rewrite Hw2, Ho2.
  split; [reflexivity|].
  exists (map snd creates), (map snd deletes). now repeat split.
Qed.

Lemma directory_converges desired accountName names x :
  In x (world_after (Users.update (Directory.service path)
                                  (Users.mkInput desired) accountName) names)
  <-> In x desired.
Proof.
  destruct (directory_update desired accountName names) as [-> _].
  rewrite !mapM_start_world, fold_deleted, fold_created, !difference_In.
  destruct (JS.includes desired x) eqn:Hd;
    [apply includes_In in Hd | apply includes_not_In in Hd];
    (destruct (JS.includes names x) eqn:Hn;
     [apply includes_In in Hn | apply includes_not_In in Hn]); tauto.
Qed.

(** X13. Against a directory of names, [update] leaves exactly the desired
    names, whatever was there and whatever repetitions the input has; when
    neither the input nor the directory repeats a name it resolves with one
    result per created and per deleted user; and run again on what it left,
    it issues the listing and nothing else. *)
Theorem update_converges_on_a_directory desired accountName names :
  let service := Directory.service path in
  let update := Users.update service (Users.mkInput desired) accountName in
  let left := world_after update names in
  (forall x, In x left <-> In x desired) /\
  (NoDup desired -> NoDup names ->
   exists created deleted,
     outcome_of update names = Resolved [created; deleted] /\
     List.length created = List.length (JS.difference desired names) /\
     List.length deleted = List.length (JS.difference names desired)) /\
  calls_of (log_of update left) = [iam (IAM.listUsers path)] /\
  world_after update left = left.
Proof.
  intros service update left.
  split; [intros x; apply directory_converges|]. split.
  - intros Hdesired Hnames.
    destruct (directory_update desired accountName names)
      as [_ [created [deleted [Hc [Hd Hu]]]]].
    fold service update in Hu. fold service in Hc, Hd.
    destruct (mapM_start_all_resolved
                (fun user => Users.createUser service user accountName)
                (fun w xs => NoDup xs /\ forall x, In x xs -> ~ In x w))
      with (xs := JS.difference desired names) (w := names)
      as [cs [Hcs Hclen]].
    { intros x xs w [Hnd Hnew].
      destruct (directory_createUser x accountName w) as [Hw [Hok _]].
      fold service in Hw, Hok.
      assert (JS.includes w x = false) as Hx
          by (apply includes_not_In, Hnew; now left).
      split; [eexists; now apply Hok|].
      rewrite Hw, Hx. inversion Hnd as [|? ? Hfresh Hnd']; subst.
      split; [exact Hnd'|]. intros y Hy. rewrite in_app_iff. simpl.
      intros [Hin|[->|[]]]; [|contradiction].
      apply (Hnew y); [now right | exact Hin]. }
    { split; [now apply NoDup_difference|].
      intros x Hx. now apply difference_In in Hx. }
    destruct (mapM_start_all_resolved
                (fun user => Users.deleteUser service user)
                (fun w xs => NoDup xs /\ forall x, In x xs -> In x w))
      with (xs := JS.difference names desired)
           (w := world_after
                   (mapM (fun user => start (Users.createUser service user accountName))
                         (JS.difference desired names)) names)
      as [ds [Hds Hdlen]].
    { intros x xs w [Hnd Hlive].
      destruct (directory_deleteUser x w) as [Hw [Hok _]].
      fold service in Hw, Hok.
      assert (JS.includes w x = true) as Hx
          by (apply includes_In, Hlive; now left).
      split; [eexists; now apply Hok|].
      rewrite Hw. inversion Hnd as [|? ? Hfresh Hnd']; subst.
      split; [exact Hnd'|]. intros y Hy. apply without_In.
      split; [apply Hlive; now right|]. intros ->. contradiction. }
    { split; [now apply NoDup_difference|].
      intros x Hx. rewrite mapM_start_world. apply fold_created.
      left. now apply difference_In in Hx. }
    rewrite Hcs in Hc. rewrite Hds in Hd.
    injection Hc as <-. injection Hd as <-.
    exists cs, ds. split; [|now split].
    rewrite Hu.
    rewrite (proj2 (Promise_all_resolved (map Resolved cs) cs) eq_refl).
    rewrite (proj2 (Promise_all_resolved (map Resolved ds) ds) eq_refl).
    reflexivity.
  - assert (answer service (iam (IAM.listUsers (USERS_PATH service))) left
            = (left, Resolved (Users (map (fun x => mkUser x x) left)))) as H
        by reflexivity.
    assert (forall x, In x (Users.users (Users.mkInput desired)) <->
                      In x (map user_UserName (map (fun x => mkUser x x) left)))
      as Hsame.
    { intros x. rewrite listed_names. simpl. symmetry.
      apply directory_converges. }
    pose proof (update_at_rest service (Users.mkInput desired) accountName
                  left left _ H Hsame) as Hrun.
    fold update in Hrun. unfold log_of, world_after at 1. rewrite Hrun.
    now split.
Qed.

End DirectoryFacts.

Lemma Promise_all_member {A} (ps : list (result A)) member :
  In (Rejected member) ps ->
  exists reasons, Promise_all ps = Rejected reasons /\ incl member reasons.
Proof.
  induction ps as [|p ps IH]; intros Hin; [destruct Hin|].
  simpl. destruct Hin as [->|Hin].
  - destruct (Promise_all ps) as [l|es].
    + exists member. split; [reflexivity | apply incl_refl].
    + exists (member ++ es)%list. split; [reflexivity | now apply incl_appl, incl_refl].
  - destruct (IH Hin) as [reasons [-> Hincl]].
    destruct p as [a|e].
    + now exists reasons.
    + exists (e ++ reasons)%list. split; [reflexivity | now apply incl_appr].
Qed.

Section Batches.

Context {World A B : Type} (f : A -> @M World B).

Lemma mapM_start_cons x xs w :
  exists ps,
    outcome_of (mapM (fun x => start (f x)) xs) (world_after (f x) w) = Resolved ps /\
    outcome_of (mapM (fun x => start (f x)) (x :: xs)) w
    = Resolved (outcome_of (f x) w :: ps).
Proof.
  destruct (mapM_start_run f xs (world_after (f x) w)) as [runs [_ [_ Hor]]].
  exists (map snd runs). split; [exact Hor|].
  simpl mapM.
  destruct (log_of_start (f x) w) as [_ [Ho Hw]].
  destruct (log_of_bind_resolved (start (f x))
              (fun y => bind (mapM (fun x => start (f x)) xs)
                             (fun ys => ret (y :: ys))) w _ Ho)
    as [_ [Ho1 _]].
  rewrite Ho1, Hw. clear Ho1.
  destruct (log_of_bind_resolved (mapM (fun x => start (f x)) xs)
              (fun ys => ret (outcome_of (f x) w :: ys))
              (world_after (f x) w) _ Hor) as [_ [Ho2 _]].
  rewrite Ho2. reflexivity.
Qed.

(** The promise of the task started for an element is what the task yields
    in the world the earlier tasks left. *)
Lemma mapM_start_member before x after : forall w,
  exists ps,
    outcome_of (mapM (fun x => start (f x)) (before ++ x :: after)) w = Resolved ps /\
    In (outcome_of (f x)
                   (fold_left (fun w x => world_after (f x) w) before w)) ps.
Proof.
  induction before as [|y before IH]; intros w.
  - destruct (mapM_start_cons x after w) as [ps [_ Ho]].
    eexists. split; [exact Ho|]. now left.
  - destruct (mapM_start_cons y (before ++ x :: after) w) as [ps [Hps Ho]].
    destruct (IH (world_after (f y) w)) as [ps' [Hps' Hin]].
    rewrite Hps in Hps'. injection Hps' as <-.
    eexists. split; [exact Ho|]. now right.
Qed.

End Batches.

(** X14. Against a directory of names, an input that writes a new name
    twice makes [update] fail: the name is created once, the second creation
    is refused, and the promise of [update] is rejected with that refusal
    among its reasons. *)
Theorem update_rejects_a_new_name_written_twice
        path before between after x accountName names :
  ~ In x names ->
  let update := Users.update (Directory.service path)
                             (Users.mkInput (before ++ x :: between ++ x :: after))
                             accountName in
  In x (world_after update names) /\
  exists reasons,
    outcome_of update names = Rejected reasons /\
    In "EntityAlreadyExists" reasons.
Proof.
  intros Hnew update.
  split; [apply directory_converges, in_or_app; right; now left|].
  destruct (directory_update path (before ++ x :: between ++ x :: after)
              accountName names) as [_ [created [deleted [Hc [_ Hu]]]]].
  fold update in Hu. rewrite Hu. clear Hu.
  assert (negb (JS.includes names x) = true) as Hx
      by (apply negb_true_iff; now apply includes_not_In).
  assert (JS.difference (before ++ x :: between ++ x :: after) names
          = ((JS.difference before names ++ x :: JS.difference between names)
               ++ x :: JS.difference after names)%list) as Hdiff.
  { unfold JS.difference. rewrite filter_app. simpl. rewrite Hx.
    rewrite filter_app. simpl. rewrite Hx. now rewrite <- app_assoc. }
  rewrite Hdiff in Hc.
  destruct (mapM_start_member
              (fun user => Users.createUser (Directory.service path) user accountName)
              (JS.difference before names ++ x :: JS.difference between names)
              x (JS.difference after names) names) as [ps [Hps Hin]].
  rewrite Hc in Hps. injection Hps as <-.
  destruct (directory_createUser path x accountName
              (fold_left
                 (fun w u => world_after
                               (Users.createUser (Directory.service path) u accountName) w)
                 (JS.difference before names ++ x :: JS.difference between names)
                 names)) as [_ [_ Hrefused]].
  rewrite Hrefused in Hin.
  2:{ apply includes_In, fold_created. right. apply in_or_app. right. now left. }
  destruct (Promise_all_member created _ Hin) as [rs [Hrs Hincl]].
  destruct (Promise_all_member [Promise_all created; Promise_all deleted] rs)
    as [reasons [Hall Hincl']].
  { left. now symmetry. }
  exists reasons. split; [exact Hall|].
  apply Hincl', Hincl. now left.
Qed.

Lemma update_rejects_a_new_name_written_twice_witness :
  ~ In "dave" ["carol"] /\
  In "dave" (world_after (Users.update (Directory.service None)
                                       (Users.mkInput ["dave"; "bob"; "dave"]) "prod")
                         ["carol"]) /\
  exists reasons,
    outcome_of (Users.update (Directory.service None)
                             (Users.mkInput ["dave"; "bob"; "dave"]) "prod")
               ["carol"] = Rejected reasons /\
    In "EntityAlreadyExists" reasons.
Proof.
  assert (~ In "dave" ["carol"]) as H by (simpl; intuition discriminate).
  split; [exact H|].
  exact (update_rejects_a_new_name_written_twice
           None [] ["bob"] [] "dave" "prod" ["carol"] H).
Defined.

Lemma update_starts_one_task_per_name_witness :
  answer UsersDemo.account (iam (IAM.listUsers (USERS_PATH UsersDemo.account))) tt
  = (tt, Resolved (Users [mkUser "bob_keys" "arn:bob"; mkUser "carol" "arn:carol"])) /\
  filter begins_createUser
         (calls_of (log_of (Users.update UsersDemo.account
                              (Users.mkInput ["dave"; "bob_keys"; "dave"]) "prod") tt))
  = [iam (IAM.createUser "dave" (Some "/team/"));
     iam (IAM.createUser "dave" (Some "/team/"))] /\
  filter begins_deleteUser
         (calls_of (log_of (Users.update UsersDemo.account
                              (Users.mkInput ["dave"; "bob_keys"; "dave"]) "prod") tt))
  = [iam (IAM.listGroupsForUser "carol")].
Proof.
  split; [reflexivity|].
  pose proof (update_starts_one_task_per_name
                UsersDemo.account (Users.mkInput ["dave"; "bob_keys"; "dave"]) "prod"
                tt tt [mkUser "bob_keys" "arn:bob"; mkUser "carol" "arn:carol"]
                eq_refl) as [Hc [Hd _]].
  split; [exact Hc | exact Hd].
Defined.

Lemma update_does_nothing_when_converged_witness :
  answer UsersDemo.account (iam (IAM.listUsers (USERS_PATH UsersDemo.account))) tt
  = (tt, Resolved (Users [mkUser "bob_keys" "arn:bob"; mkUser "carol" "arn:carol"])) /\
  (forall x, In x ["carol"; "bob_keys"; "carol"] <-> In x ["bob_keys"; "carol"]) /\
  outcome_of (Users.update UsersDemo.account
                (Users.mkInput ["carol"; "bob_keys"; "carol"]) "prod") tt
  = Resolved [[]; []].
Proof.
  assert (forall x, In x ["carol"; "bob_keys"; "carol"] <-> In x ["bob_keys"; "carol"])
    as Hsame by (intros x; simpl; tauto).
  split; [reflexivity|]. split; [exact Hsame|].
  exact (proj1 (proj2 (update_does_nothing_when_converged
                         UsersDemo.account
                         (Users.mkInput ["carol"; "bob_keys"; "carol"]) "prod"
                         tt tt [mkUser "bob_keys" "arn:bob"; mkUser "carol" "arn:carol"]
                         eq_refl Hsame))).
Defined.

Lemma update_at_the_ends_of_the_diff_witness :
  answer UsersDemo.account (iam (IAM.listUsers (USERS_PATH UsersDemo.account))) tt
  = (tt, Resolved (Users [mkUser "bob_keys" "arn:bob"; mkUser "carol" "arn:carol"])) /\
  filter begins_deleteUser
         (calls_of (log_of (Users.update UsersDemo.account (Users.mkInput []) "prod") tt))
  = [iam (IAM.listGroupsForUser "bob_keys"); iam (IAM.listGroupsForUser "carol")].
Proof.
  split; [reflexivity|].
  exact (proj2 (proj1 (update_at_the_ends_of_the_diff
                         UsersDemo.account (Users.mkInput []) "prod"
                         tt tt [mkUser "bob_keys" "arn:bob"; mkUser "carol" "arn:carol"]
                         eq_refl) eq_refl)).
Defined.

(** ** [deleteUser] with its calls in flight, continued *)

(** X15. Whatever the order in which the world settles the calls, once no
    call is pending the promise of [deleteUser] has settled.  It resolves
    with the answer to [iam.deleteUser]; it is rejected either by an earlier
    failure, and then [iam.deleteUser] was never issued, or by
    [iam.deleteUser] itself. *)
Theorem deleteUser_run_ends UserName schedule s :
  DeleteUserRun.run UserName schedule (DeleteUserRun.begin UserName) = Some s ->
  (forall p, DeleteUserRun.pending (DeleteUserRun.past s) p = false) ->
  exists r,
    DeleteUserRun.outcome s = Some r /\
    match r with
    | Resolved a =>
        exists p,
          DeleteUserRun.at_ s = DeleteUserRun.Returned p /\
          In (DeleteUserRun.Issued p (iam (IAM.deleteUser UserName)))
             (DeleteUserRun.past s) /\
          In (DeleteUserRun.Settled p (Resolved a)) (DeleteUserRun.past s)
    | Rejected reasons =>
        (DeleteUserRun.at_ s = DeleteUserRun.Threw reasons /\
         DeleteUserRun.no_final UserName (DeleteUserRun.past s)) \/
        (exists p,
            DeleteUserRun.at_ s = DeleteUserRun.Returned p /\
            In (DeleteUserRun.Issued p (iam (IAM.deleteUser UserName)))
               (DeleteUserRun.past s) /\
            In (DeleteUserRun.Settled p (Rejected reasons)) (DeleteUserRun.past s))
    end.
Proof.
  intros Hrun Hquiet.
  destruct (DeleteUserFacts.deleteUser_finishes UserName schedule s Hrun Hquiet)
    as [r Hr].
  exists r. split; [exact Hr|].
  pose proof (DeleteUserFacts.invariant_run UserName schedule _ _
                (DeleteUserFacts.invariant_begin UserName) Hrun) as Hinv.
  unfold DeleteUserRun.outcome in Hr. unfold DeleteUserRun.invariant in Hinv.
  destruct (DeleteUserRun.at_ s) as [q|gps q|gps kps|gps q|gps|q|reasons];
    try discriminate.
  - destruct Hinv as [after [before [Hh _]]].
    assert (In (DeleteUserRun.Issued q (iam (IAM.deleteUser UserName)))
               (DeleteUserRun.past s)) as Hin
        by (rewrite Hh; apply in_or_app; right; now left).
    apply DeleteUserFacts.settled_In in Hr.
    destruct r as [a|reasons].
    + exists q. now repeat split.
    + right. exists q. now repeat split.
  - injection Hr as <-. left. now split.
Qed.

Lemma deleteUser_run_ends_witness :
  DeleteUserRun.run "bob_keys"
    (DeleteUserRun.keys_schedule ++ [(5, Resolved (Data JS.JNull))])
    (DeleteUserRun.begin "bob_keys")
  = Some (DeleteUserRun.mkState
            (DeleteUserRun.Settled 5 (Resolved (Data JS.JNull))
             :: DeleteUserRun.Issued 5 (iam (IAM.deleteUser "bob_keys"))
             :: DeleteUserRun.calls_settled_before_bob_keys_is_deleted)
            6 (DeleteUserRun.Returned 5)) /\
  exists r,
    DeleteUserRun.outcome
      (DeleteUserRun.mkState
         (DeleteUserRun.Settled 5 (Resolved (Data JS.JNull))
          :: DeleteUserRun.Issued 5 (iam (IAM.deleteUser "bob_keys"))
          :: DeleteUserRun.calls_settled_before_bob_keys_is_deleted)
         6 (DeleteUserRun.Returned 5)) = Some r.
Proof.
  split; [vm_compute; reflexivity|].
  destruct (deleteUser_run_ends
              "bob_keys"
              (DeleteUserRun.keys_schedule ++ [(5, Resolved (Data JS.JNull))])
              (DeleteUserRun.mkState
                 (DeleteUserRun.Settled 5 (Resolved (Data JS.JNull))
                  :: DeleteUserRun.Issued 5 (iam (IAM.deleteUser "bob_keys"))
                  :: DeleteUserRun.calls_settled_before_bob_keys_is_deleted)
                 6 (DeleteUserRun.Returned 5))
              ltac:(vm_compute; reflexivity)
              ltac:(intros p; do 6 (destruct p as [|p]; [reflexivity|]); reflexivity))
    as [r [Hr _]].
  exists r. exact Hr.
Defined.

(** X16. In no run is [iam.deleteUser] issued twice, and it has been issued
    exactly when the method rests at its [return]. *)
Theorem deleteUser_issues_the_deletion_once UserName schedule s :
  DeleteUserRun.run UserName schedule (DeleteUserRun.begin UserName) = Some s ->
  (forall p,
      In (DeleteUserRun.Issued p (iam (IAM.deleteUser UserName))) (DeleteUserRun.past s)
      <-> DeleteUserRun.at_ s = DeleteUserRun.Returned p) /\
  (forall a b c p q,
      DeleteUserRun.past s
      <> (a ++ DeleteUserRun.Issued p (iam (IAM.deleteUser UserName))
            :: b ++ DeleteUserRun.Issued q (iam (IAM.deleteUser UserName)) :: c)%list).
Proof.
  intros Hrun.
  pose proof (DeleteUserFacts.invariant_run UserName schedule _ _
                (DeleteUserFacts.invariant_begin UserName) Hrun) as Hinv.
  unfold DeleteUserRun.invariant in Hinv.
  assert (forall p after before,
             DeleteUserRun.past s
             = (after ++ DeleteUserRun.Issued p (iam (IAM.deleteUser UserName))
                      :: before)%list ->
             DeleteUserRun.at_ s = DeleteUserRun.Returned p /\
             DeleteUserRun.no_final UserName after /\
             DeleteUserRun.no_final UserName before) as Hsplit.
  { intros p after before Hpast.
    assert (In (DeleteUserRun.Issued p (iam (IAM.deleteUser UserName)))
               (DeleteUserRun.past s)) as Hin
        by (rewrite Hpast; apply in_or_app; right; now left).
    destruct (DeleteUserRun.at_ s) as [q|gps q|gps kps|gps q|gps|q|reasons];
      try (exfalso; apply (proj1 Hinv p); exact Hin).
    - destruct Hinv as [after' [before' [Hh [Ha [Hb _]]]]].
      rewrite Hpast in Hh.
      pose proof (DeleteUserFacts.final_unique UserName _ _ _ _ _ _ Ha Hb Hh) as Hsame.
      subst before'. 
      assert (List.length after = List.length after') as Hlen.
      { apply (f_equal (@List.length _)) in Hh.
        rewrite !length_app in Hh. simpl in Hh. lia. }
      assert (after = after' /\ p = q) as [-> ->].
      { clear - Hh Hlen. revert after' Hh Hlen.
        induction after as [|e after IH]; intros [|e' after'] Hh Hlen;
          try discriminate.
        - injection Hh as ->. now split.
        - injection Hh as -> Hh. injection Hlen as Hlen.
          destruct (IH _ Hh Hlen) as [-> ->]. now split. }
      now repeat split.
    - exfalso. apply (Hinv p). exact Hin. }
  split.
  - intros p. split.
    + intros Hin. apply in_split in Hin as [after [before Hpast]].
      now apply (Hsplit p after before).
    + intros Hat. rewrite Hat in Hinv.
      destruct Hinv as [after [before [Hh _]]].
      rewrite Hh. apply in_or_app. right. now left.
  - intros a b c p q Hpast.
    destruct (Hsplit p a _ Hpast) as [_ [_ Hb]].
    apply (Hb q). apply in_or_app. right. now left.
Qed.

Lemma deleteUser_issues_the_deletion_once_witness :
  DeleteUserRun.run "bob_keys" DeleteUserRun.keys_schedule
                    (DeleteUserRun.begin "bob_keys")
  = Some (DeleteUserRun.mkState
            (DeleteUserRun.Issued 5 (iam (IAM.deleteUser "bob_keys"))
             :: DeleteUserRun.calls_settled_before_bob_keys_is_deleted)
            6 (DeleteUserRun.Returned 5)) /\
  forall p,
    In (DeleteUserRun.Issued p (iam (IAM.deleteUser "bob_keys")))
       (DeleteUserRun.Issued 5 (iam (IAM.deleteUser "bob_keys"))
        :: DeleteUserRun.calls_settled_before_bob_keys_is_deleted)
    <-> DeleteUserRun.Returned 5 = DeleteUserRun.Returned p.
Proof.
  split; [vm_compute; reflexivity|].
  exact (proj1 (deleteUser_issues_the_deletion_once
                  "bob_keys" DeleteUserRun.keys_schedule
                  (DeleteUserRun.mkState
                     (DeleteUserRun.Issued 5 (iam (IAM.deleteUser "bob_keys"))
                      :: DeleteUserRun.calls_settled_before_bob_keys_is_deleted)
                     6 (DeleteUserRun.Returned 5))
                  ltac:(vm_compute; reflexivity))).
Defined.

Section Answered.

Import DeleteUserRun.

Variable UserName : string.

Lemma issued_issue_all cs : forall h n h' n' ps q,
  issue_all cs h n = (h', n', ps) ->
  issued h' q = true -> issued h q = true \/ In q ps.
Proof.
  induction cs as [|c cs IH]; intros h n h' n' ps q Hi Hq; simpl in Hi.
  - inversion Hi; subst. now left.
  - destruct (issue_all cs (Issued n c :: h) (S n)) as [[h1 n1] ps1] eqn:Hi1.
    inversion Hi; subst.
    destruct (IH _ _ _ _ _ q Hi1 Hq) as [Hold|Hnew].
    + unfold issued in Hold. simpl in Hold. apply orb_true_iff in Hold.
      destruct Hold as [Heq|Hold].
      * apply Nat.eqb_eq in Heq. subst. right. now left.
      * now left.
    + right. now right.
Qed.

Lemma settled_issue_all cs : forall h n h' n' ps q,
  issue_all cs h n = (h', n', ps) -> settled h' q = settled h q.
Proof.
  induction cs as [|c cs IH]; intros h n h' n' ps q Hi; simpl in Hi.
  - now inversion Hi.
  - destruct (issue_all cs (Issued n c :: h) (S n)) as [[h1 n1] ps1] eqn:Hi1.
    inversion Hi; subst. now rewrite (IH _ _ _ _ _ q Hi1).
Qed.

Lemma all_resolved_settled h ps p :
  all_resolved h ps = true -> In p ps -> exists a, settled h p = Some (Resolved a).
Proof.
  unfold all_resolved. rewrite forallb_forall. intros H Hp.
  specialize (H p Hp). destruct (settled h p) as [[a|]|]; try discriminate.
  now exists a.
Qed.

Lemma In_issued h p c : In (Issued p c) h -> issued h p = true.
Proof.
  intros H. unfold issued. apply existsb_exists.
  exists (Issued p c). split; [exact H | apply Nat.eqb_refl].
Qed.

Lemma answered_begin : answered_or_held (begin UserName).
Proof.
  intros q Hq. left. unfold issued in Hq. simpl in Hq.
  rewrite orb_false_r in Hq. apply Nat.eqb_eq in Hq. now left.
Qed.

Lemma answered_settle s p r :
  pending (past s) p = true ->
  answered_or_held s ->
  answered_or_held (mkState (Settled p r :: past s) (next s) (at_ s)).
Proof.
  destruct s as [h n pt]. unfold answered_or_held, pending. simpl.
  intros Hp H. apply andb_true_iff in Hp as [Hissued Hunsettled].
  destruct pt; try exact I; intros q Hq;
    (destruct (H q Hq) as [Hheld|[a Ha]]; [now left|]);
    (destruct (Nat.eqb q p) eqn:Hqp; [|right; now exists a]);
    apply Nat.eqb_eq in Hqp; subst; rewrite Ha in Hunsettled; discriminate.
Qed.

Lemma answered_advance s : answered_or_held s -> answered_or_held (advance UserName s).
Proof.
  destruct s as [h n pt]. unfold answered_or_held, advance. simpl.
  destruct pt as [p|gps p|gps kps|gps p|gps|p|reasons]; simpl; intros H.
  - (* the groups are listed *)
    destruct (settled h p) as [[data|reasons]|] eqn:Hs; simpl;
      [|exact I|exact H].
    destruct data as [body|l|groups|l|l|l]; simpl; try exact I.
    destruct (issue_all _ h n) as [[h1 n1] gps] eqn:Hi.
    assert (forall c q, issued (Issued n1 c :: h1) q = true ->
                        In q (n1 :: gps) \/
                        exists a, settled (Issued n1 c :: h1) q = Some (Resolved a))
      as Hall.
    { intros c q Hq. unfold issued in Hq. simpl in Hq.
      apply orb_true_iff in Hq as [Hq|Hq];
        [apply Nat.eqb_eq in Hq; subst; left; now left|].
      destruct (issued_issue_all _ _ _ _ _ _ q Hi Hq) as [Hold|Hnew];
        [|left; now right].
      right. simpl. rewrite (settled_issue_all _ _ _ _ _ _ q Hi).
      destruct (H q Hold) as [[<-|[]]|Ha]; [now exists (Groups groups) | exact Ha]. }
    destruct (Users.has_keys_suffix UserName);
      [exact (Hall (iam (IAM.listAccessKeys UserName)))
      |exact (Hall (iam (IAM.deleteLoginProfile UserName)))].
  - (* the keys are listed *)
    destruct (settled h p) as [[data|reasons]|] eqn:Hs; simpl;
      [|exact I|exact H].
    destruct data as [body|l|l|items|l|l]; simpl; try exact I.
    destruct (issue_all _ h n) as [[h1 n1] kps] eqn:Hi. simpl.
    intros q Hq. rewrite (settled_issue_all _ _ _ _ _ _ q Hi).
    destruct (issued_issue_all _ _ _ _ _ _ q Hi Hq) as [Hold|Hnew];
      [|left; apply in_or_app; now left].
    destruct (H q Hold) as [[<-|Hg]|Ha].
    + right. now exists (AccessKeyMetadata items).
    + left. apply in_or_app. now right.
    + now right.
  - (* the keys are deleted *)
    destruct (first_rejection h kps) as [reasons|]; simpl; [exact I|].
    destruct (all_resolved h kps) eqn:Ha; simpl; [|exact H].
    intros q Hq. destruct (H q Hq) as [Hheld|Hq']; [|now right].
    apply in_app_or in Hheld as [Hk|Hg]; [|now left].
    right. now apply (all_resolved_settled h kps).
  - (* the login profile is deleted *)
    destruct (settled h p) as [[data|reasons]|] eqn:Hs; simpl;
      [|exact I|exact H].
    intros q Hq. destruct (H q Hq) as [[<-|Hg]|Hq']; [|now left|now right].
    right. now exists data.
  - (* the group removals are done *)
    destruct (first_rejection h gps) as [reasons|]; simpl; [exact I|].
    destruct (all_resolved h gps) eqn:Ha; simpl; [|exact H].
    intros q Hq. unfold issued in Hq. simpl in Hq.
    apply orb_true_iff in Hq as [Hq|Hq];
      [apply Nat.eqb_eq in Hq; subst; left; now left|].
    right. destruct (H q Hq) as [Hg|Hq']; [|exact Hq'].
    now apply (all_resolved_settled h gps).
  - exact H.
  - exact I.
Qed.

Lemma answered_run schedule : forall s s',
  answered_or_held s -> run UserName schedule s = Some s' -> answered_or_held s'.
Proof.
  induction schedule as [|[p r] schedule IH]; intros s s' Hs; simpl.
  - intros H. inversion H. now subst.
  - destruct (pending (past s) p) eqn:Hp; [|discriminate].
    apply IH. unfold react. do 3 apply answered_advance.
    now apply answered_settle.
Qed.

End Answered.

(** X17. Whatever the order in which the world settles the calls, at the
    moment [deleteUser] has issued [iam.deleteUser] every call it issued
    before has been answered, and answered with success: no failure is
    overlooked and no call is left in flight. *)
Theorem deleteUser_deletes_after_every_success UserName schedule s p :
  DeleteUserRun.run UserName schedule (DeleteUserRun.begin UserName) = Some s ->
  DeleteUserRun.at_ s = DeleteUserRun.Returned p ->
  forall q c,
    In (DeleteUserRun.Issued q c) (DeleteUserRun.past s) -> q <> p ->
    exists a,
      DeleteUserRun.settled (DeleteUserRun.past s) q = Some (Resolved a) /\
      In (DeleteUserRun.Settled q (Resolved a)) (DeleteUserRun.past s).
Proof.
  intros Hrun Hat q c Hin Hq.
  pose proof (answered_run UserName schedule _ _ (answered_begin UserName) Hrun)
    as Hall.
  unfold answered_or_held in Hall. rewrite Hat in Hall.
  destruct (Hall q (In_issued _ _ _ Hin)) as [[<-|[]]|[a Ha]]; [congruence|].
  exists a. split; [exact Ha | now apply DeleteUserFacts.settled_In].
Qed.

Lemma deleteUser_deletes_after_every_success_witness :
  DeleteUserRun.run "carol" DeleteUserRun.credentials_first
                    (DeleteUserRun.begin "carol")
  = Some (DeleteUserRun.mkState
            [DeleteUserRun.Issued 3 (iam (IAM.deleteUser "carol"));
             DeleteUserRun.Settled 1 (Resolved (Data JS.JNull));
             DeleteUserRun.Settled 2 (Resolved (Data JS.JNull));
             DeleteUserRun.Issued 2 (iam (IAM.deleteLoginProfile "carol"));
             DeleteUserRun.Issued 1 (groups_removeUserFromGroup "carol" "devs");
             DeleteUserRun.Settled 0 (Resolved (Groups [mkGroup "devs"]));
             DeleteUserRun.Issued 0 (iam (IAM.listGroupsForUser "carol"))]
            4 (DeleteUserRun.Returned 3)) /\
  exists a,
    DeleteUserRun.settled
      [DeleteUserRun.Issued 3 (iam (IAM.deleteUser "carol"));
       DeleteUserRun.Settled 1 (Resolved (Data JS.JNull));
       DeleteUserRun.Settled 2 (Resolved (Data JS.JNull));
       DeleteUserRun.Issued 2 (iam (IAM.deleteLoginProfile "carol"));
       DeleteUserRun.Issued 1 (groups_removeUserFromGroup "carol" "devs");
       DeleteUserRun.Settled 0 (Resolved (Groups [mkGroup "devs"]));
       DeleteUserRun.Issued 0 (iam (IAM.listGroupsForUser "carol"))] 1
    = Some (Resolved a).
Proof.
  split; [vm_compute; reflexivity|].
  destruct (deleteUser_deletes_after_every_success
              "carol" DeleteUserRun.credentials_first
              (DeleteUserRun.mkState
                 [DeleteUserRun.Issued 3 (iam (IAM.deleteUser "carol"));
                  DeleteUserRun.Settled 1 (Resolved (Data JS.JNull));
                  DeleteUserRun.Settled 2 (Resolved (Data JS.JNull));
                  DeleteUserRun.Issued 2 (iam (IAM.deleteLoginProfile "carol"));
                  DeleteUserRun.Issued 1 (groups_removeUserFromGroup "carol" "devs");
                  DeleteUserRun.Settled 0 (Resolved (Groups [mkGroup "devs"]));
                  DeleteUserRun.Issued 0 (iam (IAM.listGroupsForUser "carol"))]
                 4 (DeleteUserRun.Returned 3))
              3 ltac:(vm_compute; reflexivity) eq_refl
              1 (groups_removeUserFromGroup "carol" "devs")
              ltac:(simpl; tauto) ltac:(discriminate))
    as [a [Ha _]].
  exists a. exact Ha.
Defined.

Lemma base64_injective_witness :
  JS.base64 ["M"%byte; "a"%byte] = JS.base64 ["M"%byte; "a"%byte] /\
  ["M"%byte; "a"%byte] = ["M"%byte; "a"%byte].
Proof.
  split; [reflexivity|].
  exact (base64_injective ["M"%byte; "a"%byte] ["M"%byte; "a"%byte] eq_refl).
Defined.
